(** * Cats Gallery: a shallow embedding of [src/index.js]

    The gallery is a single JavaScript module: a handful of module-level
    variables, the DOM regions it writes to, and the functions that filter,
    render and drive the lightbox modal.  This development embeds those
    functions as Rocq definitions and states the gallery's specification as
    theorems about them.

    Conventions of the embedding.

    - A JavaScript string is a [string]; each [ascii] stands for one UTF-16
      code unit in the Latin-1 range U+0000..U+00FF.  [toLowerCase] and
      [trim] are the ECMAScript functions restricted to that range.
    - A record ("cat") and a media item are Rocq records whose field types
      follow the table schema: TEXT is a [string], a nullable column is an
      [option], TEXT[] and the JSONB array are lists.  On such values the
      guard [x && Array.isArray(x)] holds exactly of [Some _].
    - Arrays of records live in a store and are named by location, since
      [Array.prototype.sort] works in place and [filtered = allCats] is an
      alias, not a copy.
    - A handler either completes or throws; what it wrote before throwing
      stays written.  Handlers are functions [State -> result _ * State].
    - The HTML a template literal produces is kept as a small syntax tree
      (a card, a modal view) holding the values the template interpolates.
      Where the template leaves the parser to read a text as more than text
      (a title or a category name inside a double-quoted attribute, a URL
      inside the script of an [onclick] attribute, an error message written
      without [escapeHtml]), the tree holds what the parser reads, as far as
      the embedding follows it.
    - A JavaScript number that the swipe handler computes with (a touch
      coordinate, the viewport width) is a binary64 [float]; differences,
      products and comparisons are the IEEE 754 operations, rounding
      included.
    - Records and media items are values: no statement of the module assigns
      to a property of a record or of a media item, so the store has cells
      for arrays of records only.
    - Outside the embedding: the registration of listeners (each listener is
      a handler here), the timers that defer [observeVideos], the
      intersection observer and the playback of videos.  A literal of the
      source with a character outside Latin-1 (the cat emoji) is kept as its
      UTF-8 bytes; such literals are only written to the page. *)

From Stdlib Require Import Floats ZArith QArith Qabs Lqa Bool List Sorted Ascii
  String DecimalString Lia.
From stdpp Require Import base list strings.

(* A decimal literal stands for the nearest binary64 value, as in the
   source. *)
Set Warnings "-inexact-float".

Local Open Scope string_scope.
Local Open Scope nat_scope.

(** ** JavaScript strings *)

Module JsString.

(** [!s] is true of the empty string only. *)
Definition truthy (s : string) : bool :=
  match s with
  | EmptyString => false
  | String _ _ => true
  end.

(** Lower-casing of one Latin-1 code unit: A..Z and the accented capitals
    U+00C0..U+00DE (U+00D7, the multiplication sign, excepted) move up by 32. *)
Definition lower_unit (c : ascii) : ascii :=
  let n := nat_of_ascii c in
  if (((65 <=? n) && (n <=? 90)) ||
      ((192 <=? n) && (n <=? 222) && negb (n =? 215)))%nat
  then ascii_of_nat (n + 32)
  else c.

Fixpoint toLowerCase (s : string) : string :=
  match s with
  | EmptyString => EmptyString
  | String c s' => String (lower_unit c) (toLowerCase s')
  end.

(** White space and line terminators below U+0100: TAB, LF, VT, FF, CR,
    SPACE and NO-BREAK SPACE. *)
Definition isWhiteSpace (c : ascii) : bool :=
  let n := nat_of_ascii c in
  (((9 <=? n) && (n <=? 13)) || (n =? 32) || (n =? 160))%nat.

Fixpoint trimStart (s : string) : string :=
  match s with
  | EmptyString => EmptyString
  | String c s' => if isWhiteSpace c then trimStart s' else s
  end.

Fixpoint trimEnd (s : string) : string :=
  match s with
  | EmptyString => EmptyString
  | String c s' =>
      match trimEnd s' with
      | EmptyString => if isWhiteSpace c then EmptyString else String c EmptyString
      | t => String c t
      end
  end.

Definition trim (s : string) : string := trimEnd (trimStart s).

Fixpoint startsWith (s pat : string) : bool :=
  match pat, s with
  | EmptyString, _ => true
  | String _ _, EmptyString => false
  | String p pat', String c s' => Ascii.eqb c p && startsWith s' pat'
  end.

(** [s.includes(pat)]: [pat] occurs in [s] at some position. *)
Fixpoint includes (s pat : string) : bool :=
  startsWith s pat ||
  match s with
  | EmptyString => false
  | String _ s' => includes s' pat
  end.

(** [s.endsWith(pat)]. *)
Fixpoint endsWith (s pat : string) : bool :=
  String.eqb s pat ||
  match s with
  | EmptyString => false
  | String _ s' => endsWith s' pat
  end.

(** [s.substring(0, n)]. *)
Fixpoint substring0 (n : nat) (s : string) : string :=
  match n, s with
  | S n', String c s' => String c (substring0 n' s')
  | _, _ => EmptyString
  end.

(** [`${n}`] for a non-negative integer. *)
Definition ofNat (n : nat) : string := NilEmpty.string_of_uint (Nat.to_uint n).

(** [o || d] where [o] is a nullable string. *)
Definition orElse (o : option string) (d : string) : string :=
  match o with
  | Some s => if truthy s then s else d
  | None => d
  end.

(** Truthiness of a nullable string. *)
Definition truthy_opt (o : option string) : bool :=
  match o with
  | Some s => truthy s
  | None => false
  end.

End JsString.
Import JsString.

(** ** Data model *)

(** A media item of the [image_data] JSONB array: [{url, type}] with the
    optional per-item [title], [description] and [categories]. *)
Module Media.
Record t : Type := mk {
  url : string;
  type : string;
  title : option string;
  description : option string;
  categories : option (list string)
}.
End Media.

(** A row of the [cats] table as [selectAll] returns it. [image_urls] is the
    legacy flat list of URLs. *)
Module Cat.
Record t : Type := mk {
  id : string;
  title : option string;
  description : option string;
  image_data : option (list Media.t);
  image_urls : option (list string);
  categories : option (list string);
  is_featured : bool;
  created_at : option string
}.
End Cat.

(** ** Completion records *)

Inductive exn : Type :=
| TypeError (msg : string).

Inductive result (A : Type) : Type :=
| Ok (a : A)
| Throw (e : exn).
Arguments Ok {A} a.
Arguments Throw {A} e.

Definition rbind {A B : Type} (r : result A) (k : A -> result B) : result B :=
  match r with
  | Ok a => k a
  | Throw e => Throw e
  end.

(** [xs.map(f)] where [f] may throw: the first exception aborts the map. *)
Fixpoint mapM {A B : Type} (f : A -> result B) (xs : list A) : result (list B) :=
  match xs with
  | [] => Ok []
  | x :: xs' =>
      rbind (f x) (fun y => rbind (mapM f xs') (fun ys => Ok (y :: ys)))
  end.

(** ** Helper: is this URL a video? *)

(** The value of [m.url || m]: the URL when it is a non-empty string, the
    media object itself otherwise. *)
Inductive UrlArg : Type :=
| UStr (s : string)
| UObj (m : Media.t).

Definition urlOrSelf (m : Media.t) : UrlArg :=
  if truthy (Media.url m) then UStr (Media.url m) else UObj m.

(** The body of [isVideoUrl] on a string argument. *)
Definition isVideoUrlString (url : string) : bool :=
  if negb (truthy url) then false
  else
    let lower := toLowerCase url in
    includes lower ".mp4" || includes lower ".webm" ||
    includes lower ".mov" || includes lower "/video/".

(** [isVideoUrl(url)].  An object is truthy and has no [toLowerCase]
    method, so on an object the second line of the body throws. *)
Definition isVideoUrl (url : UrlArg) : result bool :=
  match url with
  | UStr s => Ok (isVideoUrlString s)
  | UObj _ => Throw (TypeError "url.toLowerCase is not a function")
  end.

(** What [escapeHtml] reads out of [m.url || m]: the URL, or the default
    string form of an object. *)
Definition urlText (u : UrlArg) : string :=
  match u with
  | UStr s => s
  | UObj _ => "[object Object]"
  end.

(** ** Helper: the media of a record *)

Definition legacyItem (url : string) : Media.t :=
  Media.mk url (if isVideoUrlString url then "video" else "image") None None None.

(** [getCatMedia(cat)]: the structured list when it has an entry, else the
    legacy URLs wrapped as [{url, type}], else the empty array. *)
Definition getCatMedia (cat : Cat.t) : list Media.t :=
  match Cat.image_data cat with
  | Some (m :: ms) => m :: ms
  | _ =>
      match Cat.image_urls cat with
      | Some (u :: us) => List.map legacyItem (u :: us)
      | _ => []
      end
  end.

Definition placeholder : Media.t :=
  Media.mk "https://via.placeholder.com/400x400?text=🐱" "image" None None None.

(** ** Text interpolated into markup *)

(** The double quote, U+0022. *)
Definition doubleQuote : ascii := Eval cbv in ascii_of_nat 34.

(** The serialization of one code unit of a text node: the ampersand, the
    angle brackets and the no-break space become character references;
    every other code unit, the quotes among them, is written as it is. *)
Definition escapeUnit (c : ascii) (rest : string) : string :=
  if Ascii.eqb c "&"
  then String "&" (String "a" (String "m" (String "p" (String ";" rest))))
  else if Ascii.eqb c "<" then String "&" (String "l" (String "t" (String ";" rest)))
  else if Ascii.eqb c ">" then String "&" (String "g" (String "t" (String ";" rest)))
  else if Ascii.eqb c "160"
  then String "&" (String "n" (String "b" (String "s" (String "p" (String ";" rest)))))
  else String c rest.

(** [escapeHtml(text)]: the [innerHTML] of an element whose [textContent]
    is [text]; the empty string for the empty string. *)
Fixpoint escapeHtml (text : string) : string :=
  match text with
  | EmptyString => EmptyString
  | String c rest => escapeUnit c (escapeHtml rest)
  end.

(** The text up to the first double quote, and the text after it when
    there is one. *)
Fixpoint beforeQuote (s : string) : string :=
  match s with
  | EmptyString => EmptyString
  | String c rest =>
      if Ascii.eqb c doubleQuote then EmptyString else String c (beforeQuote rest)
  end.

Fixpoint afterQuote (s : string) : option string :=
  match s with
  | EmptyString => None
  | String c rest => if Ascii.eqb c doubleQuote then Some rest else afterQuote rest
  end.

(** The character references that [escapeHtml] writes, read back; [skip]
    counts the code units of a reference still to be passed over.  (Another
    reference cannot occur in what [escapeHtml] wrote, where every ampersand
    starts one of these four.) *)
Fixpoint decodeReferences (skip : nat) (s : string) : string :=
  match s with
  | EmptyString => EmptyString
  | String c rest =>
      match skip with
      | S k => decodeReferences k rest
      | O =>
          if Ascii.eqb c "&" then
            if startsWith rest "amp;" then String "&" (decodeReferences 4 rest)
            else if startsWith rest "lt;" then String "<" (decodeReferences 3 rest)
            else if startsWith rest "gt;" then String ">" (decodeReferences 3 rest)
            else if startsWith rest "nbsp;" then String "160" (decodeReferences 5 rest)
            else String c (decodeReferences 0 rest)
          else String c (decodeReferences 0 rest)
      end
  end.

(** An attribute as the HTML parser reads it out of a template that wrote
    [name="${...}"]: the value ends at the first double quote of the
    interpolated text.  [attr_spill] is the rest of that text, when it holds
    a double quote; the parser goes on to read it as markup of the tag, and
    the embedding does not follow it there. *)
Record Attr : Type := mkAttr {
  attr_value : string;
  attr_spill : option string
}.

(** The parser's reading of the interpolated text [html] of a double-quoted
    attribute. *)
Definition attributeValue (html : string) : Attr :=
  mkAttr (decodeReferences 0 (beforeQuote html)) (afterQuote html).

(** ** The rendered page

    The text a template literal produces is kept as the tree of the values it
    interpolates.  Text nodes hold the text before HTML escaping.  An
    attribute that holds a title or a category name is kept as the parser
    reads it.  When such an attribute spills ([attr_spill] is not [None]),
    the tree still tells what the template wrote; what the parser makes of
    the markup after the spill is not followed. *)

Inductive MediaElement : Type :=
| VideoEl (src : string)
| ImgEl (src : string) (alt : option Attr).

(** The category chips of a card: at most two names and the [+N] chip. *)
Record Chips : Type := mkChips {
  chips_visible : list string;
  chips_more : option nat
}.

Record Card : Type := mkCard {
  card_compact : bool;
  card_individual : bool;
  card_id : string;
  card_img : option nat;
  card_media : MediaElement;
  card_badge : option nat;
  card_title : option string;
  card_description : option string;
  card_categories : option Chips
}.

Record Checkbox : Type := mkCheckbox {
  cb_data_name : Attr;
  cb_value : Attr;
  cb_checked : bool;
  cb_count : string
}.

(** The [innerHTML] of a region of the page.  [RMessage] is a paragraph
    with the given text; [RMarkup] is a paragraph whose content the template
    interpolated without [escapeHtml], so that the parser reads [html] as
    markup, not as text. *)
Inductive Region : Type :=
| RStatic
| RMessage (class text : string)
| RMarkup (class html : string)
| RCards (cards : list Card)
| RCheckboxes (boxes : list Checkbox).

(** A thumbnail of the modal's strip, by the values the template
    interpolates: the URL (into the [src] attribute and into the [onclick]
    handler), the record's id and the item's index (into the handler).  What
    the handler does when the thumbnail is clicked is [thumbOnClick] below. *)
Record Thumb : Type := mkThumb {
  thumb_active : bool;
  thumb_src : string;
  thumb_video : bool;
  thumb_cat : string;
  thumb_idx : nat
}.

Record DescEl : Type := mkDescEl {
  desc_text : string;
  desc_display : string
}.

(** The content of [#modalBody] after [openCatModal]. *)
Record ModalView : Type := mkModalView {
  modal_main : MediaElement;
  modal_gallery : option (list Thumb);
  modal_title : string;
  modal_added : option string;
  modal_description : option DescEl;
  modal_categories : list string
}.

(** ** Module state *)

(** A value that [(categoryCounts[c] || 0) + 1] can yield: a number, or a
    string when the left operand was not a number. *)
Inductive CountVal : Type :=
| CNum (n : nat)
| CStr (s : string).

Record CategoryEntry : Type := mkEntry {
  name : string;
  count : CountVal
}.

(** The closure variables of [setupSwipeToClose]. *)
Record Swipe : Type := mkSwipe {
  startX : float;
  startY : float;
  tracking : bool
}.

Record Touch : Type := mkTouch {
  clientX : float;
  clientY : float
}.

(** The module's variables, the DOM it writes, and the platform state it
    reads (session history, viewport width).  [heap] is the store of arrays
    of records; [allCats] names one of them.  [history] lists the [modalOpen]
    flag of each session-history entry, the current entry first. *)
Record State : Type := mkState {
  heap : list (list Cat.t);
  allCats : nat;
  selectedCategories : list string;
  allCategoriesWithCounts : list CategoryEntry;
  currentViewMode : string;
  searchInput : string;
  catCount : string;
  catsGrid : Region;
  recentCats : Region;
  popularCats : Region;
  categoryFilters : Region;
  recentSection : string;
  popularSection : string;
  modalBody : option ModalView;
  catModal_active : bool;
  body_overflow : string;
  history : list bool;
  swipe : Swipe;
  innerWidth : float
}.

Definition set_heap (v : list (list Cat.t)) (st : State) : State :=
  mkState v (allCats st) (selectedCategories st) (allCategoriesWithCounts st)
    (currentViewMode st) (searchInput st) (catCount st) (catsGrid st)
    (recentCats st) (popularCats st) (categoryFilters st) (recentSection st)
    (popularSection st) (modalBody st) (catModal_active st) (body_overflow st)
    (history st) (swipe st) (innerWidth st).

Definition set_allCats (v : nat) (st : State) : State :=
  mkState (heap st) v (selectedCategories st) (allCategoriesWithCounts st)
    (currentViewMode st) (searchInput st) (catCount st) (catsGrid st)
    (recentCats st) (popularCats st) (categoryFilters st) (recentSection st)
    (popularSection st) (modalBody st) (catModal_active st) (body_overflow st)
    (history st) (swipe st) (innerWidth st).

Definition set_selectedCategories (v : list string) (st : State) : State :=
  mkState (heap st) (allCats st) v (allCategoriesWithCounts st)
    (currentViewMode st) (searchInput st) (catCount st) (catsGrid st)
    (recentCats st) (popularCats st) (categoryFilters st) (recentSection st)
    (popularSection st) (modalBody st) (catModal_active st) (body_overflow st)
    (history st) (swipe st) (innerWidth st).

Definition set_allCategoriesWithCounts (v : list CategoryEntry) (st : State) : State :=
  mkState (heap st) (allCats st) (selectedCategories st) v
    (currentViewMode st) (searchInput st) (catCount st) (catsGrid st)
    (recentCats st) (popularCats st) (categoryFilters st) (recentSection st)
    (popularSection st) (modalBody st) (catModal_active st) (body_overflow st)
    (history st) (swipe st) (innerWidth st).

Definition set_currentViewMode (v : string) (st : State) : State :=
  mkState (heap st) (allCats st) (selectedCategories st) (allCategoriesWithCounts st)
    v (searchInput st) (catCount st) (catsGrid st)
    (recentCats st) (popularCats st) (categoryFilters st) (recentSection st)
    (popularSection st) (modalBody st) (catModal_active st) (body_overflow st)
    (history st) (swipe st) (innerWidth st).

Definition set_catCount (v : string) (st : State) : State :=
  mkState (heap st) (allCats st) (selectedCategories st) (allCategoriesWithCounts st)
    (currentViewMode st) (searchInput st) v (catsGrid st)
    (recentCats st) (popularCats st) (categoryFilters st) (recentSection st)
    (popularSection st) (modalBody st) (catModal_active st) (body_overflow st)
    (history st) (swipe st) (innerWidth st).

Definition set_catsGrid (v : Region) (st : State) : State :=
  mkState (heap st) (allCats st) (selectedCategories st) (allCategoriesWithCounts st)
    (currentViewMode st) (searchInput st) (catCount st) v
    (recentCats st) (popularCats st) (categoryFilters st) (recentSection st)
    (popularSection st) (modalBody st) (catModal_active st) (body_overflow st)
    (history st) (swipe st) (innerWidth st).

Definition set_recentCats (v : Region) (st : State) : State :=
  mkState (heap st) (allCats st) (selectedCategories st) (allCategoriesWithCounts st)
    (currentViewMode st) (searchInput st) (catCount st) (catsGrid st)
    v (popularCats st) (categoryFilters st) (recentSection st)
    (popularSection st) (modalBody st) (catModal_active st) (body_overflow st)
    (history st) (swipe st) (innerWidth st).

Definition set_popularCats (v : Region) (st : State) : State :=
  mkState (heap st) (allCats st) (selectedCategories st) (allCategoriesWithCounts st)
    (currentViewMode st) (searchInput st) (catCount st) (catsGrid st)
    (recentCats st) v (categoryFilters st) (recentSection st)
    (popularSection st) (modalBody st) (catModal_active st) (body_overflow st)
    (history st) (swipe st) (innerWidth st).

Definition set_categoryFilters (v : Region) (st : State) : State :=
  mkState (heap st) (allCats st) (selectedCategories st) (allCategoriesWithCounts st)
    (currentViewMode st) (searchInput st) (catCount st) (catsGrid st)
    (recentCats st) (popularCats st) v (recentSection st)
    (popularSection st) (modalBody st) (catModal_active st) (body_overflow st)
    (history st) (swipe st) (innerWidth st).

Definition set_recentSection (v : string) (st : State) : State :=
  mkState (heap st) (allCats st) (selectedCategories st) (allCategoriesWithCounts st)
    (currentViewMode st) (searchInput st) (catCount st) (catsGrid st)
    (recentCats st) (popularCats st) (categoryFilters st) v
    (popularSection st) (modalBody st) (catModal_active st) (body_overflow st)
    (history st) (swipe st) (innerWidth st).

Definition set_popularSection (v : string) (st : State) : State :=
  mkState (heap st) (allCats st) (selectedCategories st) (allCategoriesWithCounts st)
    (currentViewMode st) (searchInput st) (catCount st) (catsGrid st)
    (recentCats st) (popularCats st) (categoryFilters st) (recentSection st)
    v (modalBody st) (catModal_active st) (body_overflow st)
    (history st) (swipe st) (innerWidth st).

Definition set_modalBody (v : option ModalView) (st : State) : State :=
  mkState (heap st) (allCats st) (selectedCategories st) (allCategoriesWithCounts st)
    (currentViewMode st) (searchInput st) (catCount st) (catsGrid st)
    (recentCats st) (popularCats st) (categoryFilters st) (recentSection st)
    (popularSection st) v (catModal_active st) (body_overflow st)
    (history st) (swipe st) (innerWidth st).

Definition set_catModal_active (v : bool) (st : State) : State :=
  mkState (heap st) (allCats st) (selectedCategories st) (allCategoriesWithCounts st)
    (currentViewMode st) (searchInput st) (catCount st) (catsGrid st)
    (recentCats st) (popularCats st) (categoryFilters st) (recentSection st)
    (popularSection st) (modalBody st) v (body_overflow st)
    (history st) (swipe st) (innerWidth st).

Definition set_body_overflow (v : string) (st : State) : State :=
  mkState (heap st) (allCats st) (selectedCategories st) (allCategoriesWithCounts st)
    (currentViewMode st) (searchInput st) (catCount st) (catsGrid st)
    (recentCats st) (popularCats st) (categoryFilters st) (recentSection st)
    (popularSection st) (modalBody st) (catModal_active st) v
    (history st) (swipe st) (innerWidth st).

Definition set_history (v : list bool) (st : State) : State :=
  mkState (heap st) (allCats st) (selectedCategories st) (allCategoriesWithCounts st)
    (currentViewMode st) (searchInput st) (catCount st) (catsGrid st)
    (recentCats st) (popularCats st) (categoryFilters st) (recentSection st)
    (popularSection st) (modalBody st) (catModal_active st) (body_overflow st)
    v (swipe st) (innerWidth st).

Definition set_swipe (v : Swipe) (st : State) : State :=
  mkState (heap st) (allCats st) (selectedCategories st) (allCategoriesWithCounts st)
    (currentViewMode st) (searchInput st) (catCount st) (catsGrid st)
    (recentCats st) (popularCats st) (categoryFilters st) (recentSection st)
    (popularSection st) (modalBody st) (catModal_active st) (body_overflow st)
    (history st) v (innerWidth st).

(** The state when the module has been evaluated and before [loadCats]:
    [allCats = []], no category selected, batch view, modal closed. *)
Definition initialState (width : float) : State :=
  mkState [[]] 0 [] [] "batch" "" "" RStatic RStatic RStatic RStatic "" "" None
    false "" [false] (mkSwipe 0 0 false) width.

(** ** The array store *)

(** The elements of the array at location [l]. *)
Definition readArray (st : State) (l : nat) : list Cat.t :=
  default [] (heap st !! l).

(** A fresh array holding [xs]; the result is its location. *)
Definition allocArray (xs : list Cat.t) (st : State) : nat * State :=
  (length (heap st), set_heap (heap st ++ [xs])%list st).

(** Overwrite the array at [l] with [xs], as an in-place sort does. *)
Definition writeArray (l : nat) (xs : list Cat.t) (st : State) : State :=
  set_heap (<[l := xs]> (heap st)) st.

(** Every location the module holds names an allocated array. *)
Definition wfState (st : State) : Prop := allCats st < length (heap st).

(** ** Handlers *)

(** A handler: the completion it ends with, and the state it leaves. *)
Definition M (A : Type) : Type := State -> result A * State.

Definition ret {A : Type} (a : A) : M A := fun st => (Ok a, st).

Definition throw {A : Type} (e : exn) : M A := fun st => (Throw e, st).

Definition bind {A B : Type} (m : M A) (k : A -> M B) : M B :=
  fun st =>
    match m st with
    | (Ok a, st') => k a st'
    | (Throw e, st') => (Throw e, st')
    end.

(** A pure computation that may throw. *)
Definition lift {A : Type} (r : result A) : M A := fun st => (r, st).

(** An assignment to a variable or to a DOM property. *)
Definition modify (f : State -> State) : M unit := fun st => (Ok tt, f st).

Definition get : M State := fun st => (Ok st, st).

Declare Scope handler_scope.
Delimit Scope handler_scope with handler.
Notation "x <- m ;; k" := (bind m (fun x => k))
  (at level 100, m at next level, right associativity) : handler_scope.
Notation "m ;;; k" := (bind m (fun _ => k))
  (at level 100, right associativity) : handler_scope.

Local Open Scope handler_scope.

(** [xs.forEach(f)] threading the variables the callback assigns to. *)
Fixpoint forEachM {A S : Type} (f : S -> A -> result S) (xs : list A) (s : S)
  : result S :=
  match xs with
  | [] => Ok s
  | x :: xs' => rbind (f s x) (forEachM f xs')
  end.

(** [arr.filter(p)]: a new array. *)
Definition arrayFilter (p : Cat.t -> bool) (l : nat) : M nat :=
  fun st =>
    let (l', st') := allocArray (List.filter p (readArray st l)) st in
    (Ok l', st').

(** [[...arr]]: a new array with the same elements. *)
Definition arraySpread (l : nat) : M nat :=
  fun st =>
    let (l', st') := allocArray (readArray st l) st in
    (Ok l', st').

(** [arr.slice(0, n)]: a new array. *)
Definition arraySlice0 (n : nat) (l : nat) : M nat :=
  fun st =>
    let (l', st') := allocArray (take n (readArray st l)) st in
    (Ok l', st').

(** Insertion of [x] in front of a list sorted by [cmp]: [x] goes before
    the first element it does not compare greater than. *)
Fixpoint sortInsert {A : Type} (cmp : A -> A -> Z) (x : A) (l : list A) : list A :=
  match l with
  | [] => [x]
  | y :: l' => if (cmp x y <=? 0)%Z then x :: y :: l' else y :: sortInsert cmp x l'
  end.

(** [Array.prototype.sort(cmp)] on the elements: a stable sort.  For a
    consistent comparator every stable sort returns this list. *)
Fixpoint sortBy {A : Type} (cmp : A -> A -> Z) (l : list A) : list A :=
  match l with
  | [] => []
  | x :: l' => sortInsert cmp x (sortBy cmp l')
  end.

(** [arr.sort(cmp)]: sorts the array at [l] in place and returns [l]. *)
Definition arraySort (cmp : Cat.t -> Cat.t -> Z) (l : nat) : M nat :=
  fun st => (Ok l, writeArray l (sortBy cmp (readArray st l)) st).

(** ** Cards *)

(** [xs.includes(c)] for a string [c]. *)
Definition arrayIncludes (xs : list string) (c : string) : bool :=
  existsb (String.eqb c) xs.

(** The category chips shared by both kinds of card. *)
Definition categoryChips (cat : Cat.t) : option Chips :=
  match Cat.categories cat with
  | Some (c :: cs) =>
      let maxShow := 2 in
      let cats := c :: cs in
      Some (mkChips (take maxShow cats)
              (if maxShow <? length cats then Some (length cats - maxShow) else None))
  | _ => None
  end.

(** [description.substring(0, n)] followed by the ellipsis when longer. *)
Definition truncated (n : nat) (description : string) : string :=
  substring0 n description +:+
  (if n <? String.length description then "..." else "").

(** [m.type === 'video' || isVideoUrl(m.url || m)]. *)
Definition mediaIsVideo (m : Media.t) : result bool :=
  if String.eqb (Media.type m) "video" then Ok true
  else isVideoUrl (urlOrSelf m).

(** [renderCatCard(cat, compact)]. *)
Definition renderCatCard (compact : bool) (cat : Cat.t) : result Card :=
  let media := getCatMedia cat in
  let mainMedia := default placeholder (media !! 0) in
  let mainUrl := urlOrSelf mainMedia in
  rbind (mediaIsVideo mainMedia) (fun isVideo =>
  let mediaCount :=
    if 1 <? length media then Some (length media - 1) else None in
  let mediaElement :=
    if isVideo then VideoEl (urlText mainUrl)
    else ImgEl (urlText mainUrl)
           (Some (attributeValue (escapeHtml (orElse (Cat.title cat) "Cat")))) in
  let title := orElse (Cat.title cat) (orElse (Media.title mainMedia) "") in
  let description := orElse (Cat.description cat) "" in
  Ok (mkCard compact false (Cat.id cat) None mediaElement mediaCount
        (if truthy title then Some title else None)
        (if truthy description then Some (truncated 80 description) else None)
        (categoryChips cat))).

(** [renderIndividualCard(cat, imgData, imgIndex)]. *)
Definition renderIndividualCard (cat : Cat.t) (imgData : Media.t) (imgIndex : nat)
  : result Card :=
  let url := urlOrSelf imgData in
  rbind (mediaIsVideo imgData) (fun isVideo =>
  let title := orElse (Media.title imgData) (orElse (Cat.title cat) "") in
  let description :=
    orElse (Media.description imgData) (orElse (Cat.description cat) "") in
  let mediaElement :=
    if isVideo then VideoEl (urlText url)
    else ImgEl (urlText url)
           (Some (attributeValue (escapeHtml (if truthy title then title else "Cat")))) in
  Ok (mkCard false true (Cat.id cat) (Some imgIndex) mediaElement None
        (if truthy title then Some title else None)
        (if truthy description then Some (truncated 60 description) else None)
        (categoryChips cat))).

(** ** The grid *)

(** [`${n} ${noun}${n !== 1 ? 's' : ''}`]. *)
Definition countLabel (n : nat) (noun : string) : string :=
  ofNat n +:+ " " +:+ noun +:+ (if negb (n =? 1)%nat then "s" else "").

(** The body of the inner [media.forEach]: one more card, one more image. *)
Definition individualStep (cat : Cat.t) (acc : list Card * nat) (im : nat * Media.t)
  : result (list Card * nat) :=
  rbind (renderIndividualCard cat (snd im) (fst im))
    (fun card => Ok ((fst acc ++ [card])%list, S (snd acc))).

(** The body of the outer [cats.forEach]. *)
Definition individualCat (acc : list Card * nat) (cat : Cat.t)
  : result (list Card * nat) :=
  let media := getCatMedia cat in
  if 0 <? length media
  then forEachM (individualStep cat) (imap pair media) acc
  else Ok acc.

(** [renderCats(cats)].  In batch mode the count label is written before
    the cards are built; in individual mode after. *)
Definition renderCats (cats : nat) : M unit :=
  st <- get ;;
  let arr := readArray st cats in
  if String.eqb (currentViewMode st) "batch" then
    modify (set_catCount (countLabel (length arr) "cat")) ;;;
    if (length arr =? 0)%nat
    then modify (set_catsGrid (RMessage "no-data" "🐱 No cats found"))
    else
      cards <- lift (mapM (renderCatCard false) arr) ;;
      modify (set_catsGrid (RCards cards))
  else
    acc <- lift (forEachM individualCat arr ([], 0)) ;;
    let cardsHtml := fst acc in
    let totalImages := snd acc in
    modify (set_catCount (countLabel totalImages "photo")) ;;;
    if (totalImages =? 0)%nat
    then modify (set_catsGrid (RMessage "no-data" "🐱 No photos found"))
    else modify (set_catsGrid (RCards cardsHtml)).

(** ** Filter and render *)

(** Every selected category is in [cats]. *)
Definition hasEvery (selected : list string) (cats : option (list string)) : bool :=
  match cats with
  | Some cs => forallb (arrayIncludes cs) selected
  | None => false
  end.

(** The callback of the category stage. *)
Definition categoryMatch (selected : list string) (cat : Cat.t) : bool :=
  let catHasCategories := hasEvery selected (Cat.categories cat) in
  let imageHasCategories :=
    match Cat.image_data cat with
    | Some imgs => existsb (fun img => hasEvery selected (Media.categories img)) imgs
    | None => false
    end in
  catHasCategories || imageHasCategories.

(** The callback of the search stage. *)
Definition searchMatch (searchTerm : string) (cat : Cat.t) : bool :=
  let title := toLowerCase (orElse (Cat.title cat) "") in
  let description := toLowerCase (orElse (Cat.description cat) "") in
  let imageMatch :=
    match Cat.image_data cat with
    | Some imgs =>
        existsb (fun img =>
          includes (toLowerCase (orElse (Media.title img) "")) searchTerm ||
          includes (toLowerCase (orElse (Media.description img) "")) searchTerm) imgs
    | None => false
    end in
  includes title searchTerm || includes description searchTerm || imageMatch.

(** [filterCats] up to its last line: the array that [filtered] names when
    [renderCats(filtered)] is reached. *)
Definition filterCats_filtered : M nat :=
  st <- get ;;
  let searchTerm := trim (toLowerCase (searchInput st)) in
  let filtered := allCats st in
  filtered <-
    (if 0 <? length (selectedCategories st)
     then arrayFilter (categoryMatch (selectedCategories st)) filtered
     else ret filtered) ;;
  filtered <-
    (if truthy searchTerm
     then arrayFilter (searchMatch searchTerm) filtered
     else ret filtered) ;;
  ret filtered.

(** [filterCats()]. *)
Definition filterCats : M unit :=
  filtered <- filterCats_filtered ;;
  renderCats filtered.

(** [selectedCategories.add(c)] and [selectedCategories.delete(c)] on the
    set's elements in insertion order. *)
Definition setAdd (c : string) (s : list string) : list string :=
  if arrayIncludes s c then s else (s ++ [c])%list.

Definition setDelete (c : string) (s : list string) : list string :=
  List.filter (fun x => negb (String.eqb x c)) s.

(** [handleCategoryChange(e)] with [e.target.value] and [e.target.checked]. *)
Definition handleCategoryChange (category : string) (checked : bool) : M unit :=
  st <- get ;;
  modify (set_selectedCategories
            (if checked then setAdd category (selectedCategories st)
             else setDelete category (selectedCategories st))) ;;;
  filterCats.

(** [switchViewMode()] with the value of the checked radio button. *)
Definition switchViewMode (selectedMode : string) : M unit :=
  modify (set_currentViewMode selectedMode) ;;;
  filterCats.

(** ** Shelves and modal: the functions that read the platform's dates *)

Section Platform.

(** The time value of [new Date(s)] for a string [s], [None] when the date
    is invalid; the time value of "now" moved back by [setDate(getDate() - 7)];
    and [new Date(s).toLocaleDateString()]. *)
Variable dateValue : string -> option Z.
Variable oneWeekAgo : Z.
Variable toLocaleDateString : string -> string.

(** The time value of [new Date(c.created_at)]; [new Date(null)] is the
    epoch. *)
Definition createdDate (c : Cat.t) : option Z :=
  match Cat.created_at c with
  | Some s => dateValue s
  | None => Some 0%Z
  end.

(** [c.created_at && new Date(c.created_at) >= oneWeekAgo]. *)
Definition withinWeek (c : Cat.t) : bool :=
  truthy_opt (Cat.created_at c) &&
  match createdDate c with
  | Some t => (oneWeekAgo <=? t)%Z
  | None => false
  end.

(** [new Date(b.created_at) - new Date(a.created_at)]; a comparator that
    returns NaN counts as returning 0. *)
Definition newestFirst (a b : Cat.t) : Z :=
  match createdDate b, createdDate a with
  | Some tb, Some ta => (tb - ta)%Z
  | _, _ => 0%Z
  end.

(** [renderRecentCats()]. *)
Definition renderRecentCats : M unit :=
  st <- get ;;
  copy <- arraySpread (allCats st) ;;
  kept <- arrayFilter withinWeek copy ;;
  sorted <- arraySort newestFirst kept ;;
  recentWithinWeek <- arraySlice0 8 sorted ;;
  st' <- get ;;
  let recent := readArray st' recentWithinWeek in
  if (length recent =? 0)%nat
  then modify (set_recentSection "none")
  else
    modify (set_recentSection "block") ;;;
    cards <- lift (mapM (renderCatCard true) recent) ;;
    modify (set_recentCats (RCards cards)).

(** [renderPopularCats()]. *)
Definition renderPopularCats : M unit :=
  st <- get ;;
  popular <- arrayFilter (fun c => Bool.eqb (Cat.is_featured c) true) (allCats st) ;;
  st' <- get ;;
  let pop := readArray st' popular in
  if (length pop =? 0)%nat
  then modify (set_popularSection "none")
  else
    modify (set_popularSection "block") ;;;
    cards <- lift (mapM (renderCatCard true) pop) ;;
    modify (set_popularCats (RCards cards)).

(** One thumbnail of the modal's gallery strip, as the template writes
    it. *)
Definition galleryThumb (cat : Cat.t) (startIndex : nat) (im : nat * Media.t)
  : result Thumb :=
  let m := snd im in
  let idx := fst im in
  let mUrl := urlOrSelf m in
  rbind (mediaIsVideo m) (fun isVid =>
  Ok (mkThumb (idx =? startIndex)%nat (urlText mUrl) isVid (Cat.id cat) idx)).

(** [media[startIndex] || media[0] || placeholder]: an index past the end
    reads [undefined]; a media object is truthy. *)
Definition currentMediaAt (media : list Media.t) (startIndex : nat) : Media.t :=
  match media !! startIndex with
  | Some m => m
  | None => default placeholder (media !! 0)
  end.

(** What [openCatModal] assigns to [modalBody.innerHTML] for a record that
    was found. *)
Definition modalView (cat : Cat.t) (startIndex : nat) : result ModalView :=
  let media := getCatMedia cat in
  let currentMedia := currentMediaAt media startIndex in
  let mainUrl := urlOrSelf currentMedia in
  rbind (mediaIsVideo currentMedia) (fun isVideo =>
  let displayTitle := orElse (Media.title currentMedia) (orElse (Cat.title cat) "") in
  let displayDesc :=
    orElse (Media.description currentMedia) (orElse (Cat.description cat) "") in
  let categories := default [] (Cat.categories cat) in
  let description :=
    if truthy displayDesc then Some (mkDescEl displayDesc "") else None in
  let addedAtInfo :=
    match Cat.created_at cat with
    | Some s => if truthy s then Some (toLocaleDateString s) else None
    | None => None
    end in
  let mainMediaHtml :=
    if isVideo then VideoEl (urlText mainUrl)
    else ImgEl (urlText mainUrl) (Some (attributeValue (escapeHtml displayTitle))) in
  rbind
    (if 1 <? length media
     then rbind (mapM (galleryThumb cat startIndex) (imap pair media))
            (fun thumbs => Ok (Some thumbs))
     else Ok None)
    (fun galleryHtml =>
  Ok (mkModalView mainMediaHtml galleryHtml
        (if truthy displayTitle then displayTitle else "🐱 Cute Cat")
        addedAtInfo description categories))).

(** [openCatModal(catId, startIndex)]. *)
Definition openCatModal (catId : string) (startIndex : nat) : M unit :=
  st <- get ;;
  match List.find (fun c => String.eqb (Cat.id c) catId) (readArray st (allCats st)) with
  | None => ret tt
  | Some cat =>
      view <- lift (modalView cat startIndex) ;;
      modify (set_modalBody (Some view)) ;;;
      modify (set_catModal_active true) ;;;
      modify (set_body_overflow "hidden") ;;;
      modify (fun s => set_history (true :: history s) s)
  end.

End Platform.

(** [changeModalMedia(src, thumb, isVideo, catId, imgIndex)]; [thumb] is the
    position of the clicked thumbnail in the strip.  Without a main media
    element in the document, the final [oldMedia.replaceWith] throws. *)
Definition changeModalMedia (src : string) (thumb : nat) (isVideo : bool)
    (catId : string) (imgIndex : nat) : M unit :=
  st <- get ;;
  match modalBody st with
  | None => throw (TypeError "Cannot read properties of null (reading 'replaceWith')")
  | Some view =>
      let gallery :=
        option_map
          (imap (fun i t =>
             mkThumb (i =? thumb)%nat (thumb_src t) (thumb_video t)
               (thumb_cat t) (thumb_idx t)))
          (modal_gallery view) in
      let found :=
        List.find (fun c => String.eqb (Cat.id c) catId) (readArray st (allCats st)) in
      let title :=
        match found with
        | Some cat =>
            let media := getCatMedia cat in
            let displayTitle :=
              orElse (mjoin (Media.title <$> media !! imgIndex))
                (orElse (Cat.title cat) "") in
            if truthy displayTitle then displayTitle else "🐱 Cute Cat"
        | None => modal_title view
        end in
      let description :=
        match found with
        | Some cat =>
            let media := getCatMedia cat in
            let displayDesc :=
              orElse (mjoin (Media.description <$> media !! imgIndex))
                (orElse (Cat.description cat) "") in
            option_map
              (fun _ => mkDescEl displayDesc (if truthy displayDesc then "block" else "none"))
              (modal_description view)
        | None => modal_description view
        end in
      let main := if isVideo then VideoEl src else ImgEl src None in
      modify (set_modalBody
                (Some (mkModalView main gallery title (modal_added view)
                         description (modal_categories view))))
  end.

(** *** The click on a thumbnail

    The strip writes the handler as text,
    [onclick="changeModalMedia('${escapeHtml(mUrl)}', this, true, '${cat.id}', ${idx})"]:
    the URL and the id stand inside single-quoted string literals of a
    script that the browser compiles when the thumbnail is clicked. *)

(** A code unit that stands for itself inside such a literal: not the
    double quote (it ends the attribute), not the apostrophe (it ends the
    literal), not the backslash (it starts an escape sequence), not a line
    break (a literal cannot hold one) and not NUL (the HTML parser replaces
    it). *)
Definition scriptSafeUnit (c : ascii) : bool :=
  negb (Ascii.eqb c doubleQuote || Ascii.eqb c "'" || Ascii.eqb c "\" ||
        Ascii.eqb c "010" || Ascii.eqb c "013" || Ascii.eqb c "000").

Fixpoint scriptSafe (s : string) : bool :=
  match s with
  | EmptyString => true
  | String c rest => scriptSafeUnit c && scriptSafe rest
  end.

(** The id is interpolated without [escapeHtml], so an ampersand in it may
    also start a character reference. *)
Definition idSafe (s : string) : bool :=
  scriptSafe s && negb (includes s "&").

(** What the handler text of a thumbnail compiles to: the call of
    [changeModalMedia] with the interpolated values when the URL and the id
    stand for themselves in their literals; otherwise some other script
    (often one that does not compile), which the embedding does not
    follow. *)
Inductive OnClick : Type :=
| CallChangeModalMedia (src : string) (isVideo : bool) (catId : string) (imgIndex : nat)
| OtherScript.

Definition thumbOnClick (t : Thumb) : OnClick :=
  if scriptSafe (thumb_src t) && idSafe (thumb_cat t)
  then CallChangeModalMedia (thumb_src t) (thumb_video t) (thumb_cat t) (thumb_idx t)
  else OtherScript.

(** A click on the thumbnail [t] at position [thumb] of the strip, when its
    handler is the call. *)
Definition clickThumb (thumb : nat) (t : Thumb) : option (M unit) :=
  match thumbOnClick t with
  | CallChangeModalMedia src isVideo catId imgIndex =>
      Some (changeModalMedia src thumb isVideo catId imgIndex)
  | OtherScript => None
  end.

(** [closeModal(event)]: [None] when called without an argument, [Some b]
    for an event whose target is ([b = true]) or is not the modal backdrop.
    [history.back()] leaves the entry that [openCatModal] pushed. *)
Definition closeModal (event : option bool) : M unit :=
  st <- get ;;
  match event with
  | Some false => ret tt
  | _ =>
      if negb (catModal_active st) then ret tt
      else
        modify (set_catModal_active false) ;;;
        modify (set_body_overflow "") ;;;
        match history st with
        | true :: rest => modify (set_history rest)
        | _ => ret tt
        end
  end.

(** ** Swipe to close *)

(** The [touchstart] listener. *)
Definition onTouchStart (touches : list Touch) : M unit :=
  match touches with
  | [touch] => modify (set_swipe (mkSwipe (clientX touch) (clientY touch) true))
  | _ => ret tt
  end.

(** The [touchend] listener. *)
Definition onTouchEnd (changedTouches : list Touch) : M unit :=
  st <- get ;;
  match changedTouches with
  | touch :: _ =>
      if negb (tracking (swipe st)) then ret tt
      else
        modify (set_swipe (mkSwipe (startX (swipe st)) (startY (swipe st)) false)) ;;;
        let dx := (clientX touch - startX (swipe st))%float in
        let dy := (clientY touch - startY (swipe st))%float in
        let threshold := (innerWidth st * 0.20)%float in
        if ((abs dy * 1.5 <? abs dx) && (threshold <? dx))%float
        then closeModal None
        else ret tt
  | [] => ret tt
  end.

(** ** The category index *)

(** The members of [Object.prototype], which every object literal inherits. *)
Definition objectPrototypeKeys : list string :=
  [ "constructor"; "__defineGetter__"; "__defineSetter__"; "hasOwnProperty";
    "__lookupGetter__"; "__lookupSetter__"; "isPrototypeOf";
    "propertyIsEnumerable"; "toString"; "valueOf"; "__proto__";
    "toLocaleString" ].

(** The string an inherited member turns into under [+]: [__proto__] reads
    the prototype object, every other member is a built-in function
    ([constructor] is [Object]). *)
Definition inheritedText (k : string) : string :=
  if String.eqb k "__proto__" then "[object Object]"
  else
    "function " +:+ (if String.eqb k "constructor" then "Object" else k) +:+
    "() { [native code] }".

(** What [categoryCounts[c]] reads. *)
Inductive PropVal : Type :=
| PUndefined
| PCount (v : CountVal)
| PInherited (text : string).

(** [categoryCounts]: its own properties in order of creation. *)
Definition Counts : Type := list (string * CountVal).

Fixpoint ownGet (o : Counts) (k : string) : option CountVal :=
  match o with
  | [] => None
  | (k', v) :: o' => if String.eqb k' k then Some v else ownGet o' k
  end.

(** [categoryCounts[k]]: an own property, else an inherited one. *)
Definition propGet (o : Counts) (k : string) : PropVal :=
  match ownGet o k with
  | Some v => PCount v
  | None => if arrayIncludes objectPrototypeKeys k then PInherited (inheritedText k)
            else PUndefined
  end.

Fixpoint ownSet (o : Counts) (k : string) (v : CountVal) : Counts :=
  match o with
  | [] => [(k, v)]
  | (k', v') :: o' =>
      if String.eqb k' k then (k', v) :: o' else (k', v') :: ownSet o' k v
  end.

(** [categoryCounts[k] = v] for a number or string [v].  The inherited
    [__proto__] is a setter, which ignores a value that is not an object;
    every other key becomes or stays an own property. *)
Definition propSet (o : Counts) (k : string) (v : CountVal) : Counts :=
  if String.eqb k "__proto__" then o else ownSet o k v.

(** [(x || 0) + 1]. *)
Definition orZeroPlusOne (x : PropVal) : CountVal :=
  match x with
  | PUndefined => CNum 1
  | PCount (CNum n) => CNum (n + 1)
  | PCount (CStr s) => if truthy s then CStr (s +:+ "1") else CNum 1
  | PInherited text => CStr (text +:+ "1")
  end.

(** [categoryCounts[c] = (categoryCounts[c] || 0) + 1]. *)
Definition countCategory (o : Counts) (c : string) : Counts :=
  propSet o c (orZeroPlusOne (propGet o c)).

(** [cats.forEach(c => ...)] over a nullable array of names. *)
Definition countAll (o : Counts) (cats : option (list string)) : Counts :=
  match cats with
  | Some cs => fold_left countCategory cs o
  | None => o
  end.

(** The body of [allCats.forEach]: the record's own categories, then those
    of each of its images. *)
Definition countCat (o : Counts) (cat : Cat.t) : Counts :=
  let o1 := countAll o (Cat.categories cat) in
  match Cat.image_data cat with
  | Some imgs => fold_left (fun acc img => countAll acc (Media.categories img)) imgs o1
  | None => o1
  end.

(** The value of a decimal digit. *)
Definition digitValue (c : ascii) : option N :=
  let n := N_of_ascii c in
  if ((48 <=? n) && (n <=? 57))%N then Some (n - 48)%N else None.

Fixpoint parseDigits (acc : N) (s : string) : option N :=
  match s with
  | EmptyString => Some acc
  | String c s' =>
      match digitValue c with
      | Some d => parseDigits (acc * 10 + d)%N s'
      | None => None
      end
  end.

(** The array index a property key denotes, if any: a canonical decimal
    numeral below [2^32 - 1]. *)
Definition arrayIndex (k : string) : option N :=
  match k with
  | EmptyString => None
  | String c rest =>
      if Ascii.eqb c "0" && truthy rest then None
      else
        match parseDigits 0 k with
        | Some n => if (n <? 4294967295)%N then Some n else None
        | None => None
        end
  end.

(** [Object.entries(o)]: the integer keys in ascending order first, then
    the other keys in order of creation. *)
Definition objectEntries (o : Counts) : list (string * CountVal) :=
  let indexed :=
    omap (fun kv => option_map (fun n => (n, kv)) (arrayIndex (fst kv))) o in
  let others := List.filter (fun kv => negb (bool_decide (is_Some (arrayIndex (fst kv))))) o in
  let byIndex (a b : N * (string * CountVal)) := (Z.of_N (fst a) - Z.of_N (fst b))%Z in
  (List.map snd (sortBy byIndex indexed) ++ others)%list.

(** [b.count - a.count]; with a string operand the difference is NaN, which
    the sort reads as 0. *)
Definition byCountDesc (a b : CategoryEntry) : Z :=
  match count b, count a with
  | CNum nb, CNum na => (Z.of_nat nb - Z.of_nat na)%Z
  | _, _ => 0%Z
  end.

(** [`(${count})`] without the parentheses. *)
Definition countText (v : CountVal) : string :=
  match v with
  | CNum n => ofNat n
  | CStr s => s
  end.

(** What [loadCategories] assigns to [allCategoriesWithCounts]. *)
Definition categoryIndex (cats : list Cat.t) : list CategoryEntry :=
  let categoryCounts := fold_left countCat cats [] in
  sortBy byCountDesc
    (List.map (fun kv => mkEntry (fst kv) (snd kv)) (objectEntries categoryCounts)).

(** [renderCategories(categories)]. *)
Definition renderCategories (categories : list CategoryEntry) : M unit :=
  st <- get ;;
  modify (set_categoryFilters
    (RCheckboxes
       (List.map (fun e =>
          mkCheckbox (attributeValue (escapeHtml (toLowerCase (name e))))
            (attributeValue (escapeHtml (name e)))
            (arrayIncludes (selectedCategories st) (name e))
            (countText (count e)))
          categories))).

(** [loadCategories()].  Nothing in the [try] block throws, so the [catch]
    block is not reached. *)
Definition loadCategories : M unit :=
  st <- get ;;
  let entries := categoryIndex (readArray st (allCats st)) in
  modify (set_allCategoriesWithCounts entries) ;;;
  if (length entries =? 0)%nat
  then modify (set_categoryFilters (RMessage "no-data" "No categories available"))
  else renderCategories entries.

(** ** The remaining listeners *)

(** The [input] listener of the category search box, with the box's value. *)
Definition onCategorySearchInput (value : string) : M unit :=
  st <- get ;;
  let searchTerm := trim (toLowerCase value) in
  if negb (truthy searchTerm) then renderCategories (allCategoriesWithCounts st)
  else
    let filtered :=
      List.filter (fun e => includes (toLowerCase (name e)) searchTerm)
        (allCategoriesWithCounts st) in
    if (length filtered =? 0)%nat
    then modify (set_categoryFilters (RMessage "no-data" "No matching categories"))
    else renderCategories filtered.

(** The [keydown] listener, with [e.key]. *)
Definition onKeyDown (key : string) : M unit :=
  st <- get ;;
  if String.eqb key "Escape" && catModal_active st then closeModal None
  else ret tt.

(** The [popstate] listener. *)
Definition onPopState : M unit :=
  st <- get ;;
  if catModal_active st then closeModal None else ret tt.

(** ** Loading the records *)

(** [try { body } catch (err) { handler(err) }]. *)
Definition tryCatch {A : Type} (body : M A) (handler : exn -> M A) : M A :=
  fun st =>
    match body st with
    | (Throw e, st') => handler e st'
    | r => r
    end.

Definition message (e : exn) : string :=
  match e with
  | TypeError msg => msg
  end.

(** [loadCats()], given how the promise of [db.selectAll()] settles: with
    the rows, or rejected with an error. *)
Definition loadCats (dateValue : string -> option Z) (oneWeekAgo : Z)
    (rows : result (list Cat.t)) : M unit :=
  modify (set_catsGrid (RMessage "loading" "🐱 Loading cats...")) ;;;
  modify (set_recentCats (RMessage "loading" "Loading...")) ;;;
  modify (set_popularCats (RMessage "loading" "Loading...")) ;;;
  tryCatch
    (fetched <- lift rows ;;
     l <- (fun st => let (l, st') := allocArray fetched st in (Ok l, st')) ;;
     modify (set_allCats l) ;;;
     renderRecentCats dateValue oneWeekAgo ;;;
     renderPopularCats ;;;
     renderCats l)
    (fun err =>
       modify (set_catsGrid (RMarkup "error" ("Failed to load cats: " +:+ message err))) ;;;
       modify (set_recentCats (RMessage "error" "Failed to load")) ;;;
       modify (set_popularCats (RMessage "error" "Failed to load"))).

(** ** The specification's reading of the video heuristic

    The specification words the heuristic as a suffix check: the lower-cased
    URL ends with [.mp4], [.webm] or [.mov], or contains [/video/]. *)
Definition specIsVideo (url : string) : bool :=
  let lower := toLowerCase url in
  endsWith lower ".mp4" || endsWith lower ".webm" || endsWith lower ".mov" ||
  includes lower "/video/".


(** The exact value of a finite binary64 number. *)
Definition numberValue (x : float) : option Q :=
  match Prim2SF x with
  | S754_zero _ => Some 0%Q
  | S754_finite s m e =>
      Some (inject_Z (if s then Z.neg m else Z.pos m) * Qpower 2 e)%Q
  | _ => None
  end.

(** The number [x] is finite and its exact value is [q]. *)
Definition exactly (x : float) (q : Q) : Prop :=
  match numberValue x with
  | Some v => (v == q)%Q
  | None => False
  end.

(** ** Vocabulary of the properties *)

(** [url] contains a stretch that reads [pat] once lower-cased. *)
Definition containsIgnoringCase (url pat : string) : Prop :=
  exists pre mid post, url = pre +:+ mid +:+ post /\ toLowerCase mid = pat.

(** A nullable array that is present and has an element. *)
Definition nonEmptyArray {A : Type} (o : option (list A)) : Prop :=
  exists x xs, o = Some (x :: xs).

(** Every unit of the string is white space. *)
Fixpoint allWhiteSpace (s : string) : bool :=
  match s with
  | EmptyString => true
  | String c s' => isWhiteSpace c && allWhiteSpace s'
  end.

(** [cs] holds every selected category. *)
Definition holdsAll (selected cs : list string) : Prop :=
  forall c, In c selected -> In c cs.

(** The record's own categories hold every selected category. *)
Definition recordHoldsAll (selected : list string) (cat : Cat.t) : Prop :=
  exists cs, Cat.categories cat = Some cs /\ holdsAll selected cs.

(** The categories of one of the record's [image_data] items hold every
    selected category. *)
Definition someImageHoldsAll (selected : list string) (cat : Cat.t) : Prop :=
  exists imgs img cs,
    Cat.image_data cat = Some imgs /\ In img imgs /\
    Media.categories img = Some cs /\ holdsAll selected cs.

(** ** A small gallery

    Three records whose media lists have 1, 3 and 2 entries: the first with
    one structured image, the second with three structured items, the third
    with two legacy URLs. *)

Definition tom : Cat.t :=
  Cat.mk "c1" (Some "Tom") (Some "Asleep on the sofa")
    (Some [Media.mk "https://x/1.jpg" "image" None None None])
    None (Some ["orange"; "sleepy"]) true (Some "2026-01-10T08:00:00Z").

Definition misty : Cat.t :=
  Cat.mk "c2" None None
    (Some [Media.mk "https://x/2.jpg" "image" (Some "Window") None
             (Some ["sleepy"; "orange"; "indoor"]);
           Media.mk "https://x/3.mp4" "video" None None None;
           Media.mk "https://x/4.jpg" "image" None (Some "Yawning") (Some ["orange"])])
    None (Some ["tabby"]) false None.

Definition felix : Cat.t :=
  Cat.mk "c3" (Some "Felix") None None
    (Some ["https://x/5.jpg"; "https://x/VIDEO/6"]) None false None.

Definition gallery : list Cat.t := [tom; misty; felix].

(** The page once [gallery] is loaded, in the given view mode, with the
    given categories selected and the given text in the search box. *)
Definition galleryState (mode : string) (selected : list string) (search : string)
  : State :=
  mkState [gallery] 0 selected [] mode search "" RStatic RStatic RStatic RStatic
    "" "" None false "" [false] (mkSwipe 0 0 false) 1000.

(** A record with an empty structured list and one legacy URL, and a record
    with no media at all. *)
Definition legacyOnly : Cat.t :=
  Cat.mk "c4" None None (Some []) (Some ["https://x/b.MP4"]) None false None.

Definition bare : Cat.t :=
  Cat.mk "c5" None None None (Some []) None false None.

(** A record whose only media item has an empty [url]. *)
Definition blank : Cat.t :=
  Cat.mk "c6" (Some "Blank") None
    (Some [Media.mk "" "image" None None None]) None None false None.

(** The page once [blank] alone is loaded, in the given view mode. *)
Definition blankState (mode : string) : State :=
  mkState [[blank]] 0 [] [] mode "" "" RStatic RStatic RStatic RStatic
    "" "" None false "" [false] (mkSwipe 0 0 false) 1000.

(** The media item can be drawn: its type is "video", or its [url] is a
    non-empty string for [isVideoUrl] to inspect. *)
Definition drawable (m : Media.t) : bool :=
  String.eqb (Media.type m) "video" || truthy (Media.url m).

(** Every media item of every record of the list can be drawn. *)
Definition allDrawable (cats : list Cat.t) : Prop :=
  Forall (fun cat => Forall (fun m => drawable m = true) (getCatMedia cat)) cats.

(** The count label the specification asks for: the singular noun for
    exactly one, the plural noun otherwise. *)
Definition labelFor (n : nat) (singular plural : string) : string :=
  ofNat n +:+ " " +:+ (if decide (n = 1) then singular else plural).

(** The [src] under which a media item is shown. *)
Definition mediaSrc (m : Media.t) : string := urlText (urlOrSelf m).

(** The element shows the media item [m]. *)
Definition shows (el : MediaElement) (m : Media.t) : Prop :=
  match el with
  | VideoEl src => src = mediaSrc m
  | ImgEl src _ => src = mediaSrc m
  end.

(** A one-finger swipe over the modal: a [touchstart] with the single touch
    [start], then a [touchend] whose changed touch is [finish]. *)
Definition swipeGesture (start finish : Touch) : M unit :=
  onTouchStart [start] ;;; onTouchEnd [finish].

(** The small gallery with the modal open on Tom, on a viewport 1000 wide. *)
Definition openedState : State :=
  snd (openCatModal (fun s => s) "c1" 0 (galleryState "batch" [] "")).

(** [st'] has the records of [st]: [allCats] names the same array and that
    array has the same elements in the same order. *)
Definition sameRecords (st st' : State) : Prop :=
  allCats st' = allCats st /\
  readArray st' (allCats st') = readArray st (allCats st).

(** [st] extends the store of [st0]: [allCats] is the same location, and
    every array that [st0] had allocated is still there, unchanged. *)
Definition keeps (st0 st : State) : Prop :=
  allCats st = allCats st0 /\
  length (heap st0) <= length (heap st) /\
  forall l, l < length (heap st0) -> heap st !! l = heap st0 !! l.

(** The location was allocated after [st0]. *)
Definition fresh (st0 : State) (l : nat) : Prop := length (heap st0) <= l.

(** The handler [m], run from any state that extends the store of [st0],
    ends in such a state, whether it completes or throws; a value it
    completes with satisfies [Q]. *)
Definition frames {A : Type} (st0 : State) (m : M A) (Q : A -> Prop) : Prop :=
  forall st, keeps st0 st ->
    keeps st0 (snd (m st)) /\ forall a, fst (m st) = Ok a -> Q a.

(** The page while browsing the small gallery: individual view, one
    category selected, a search under way. *)
Definition browsing : State := galleryState "individual" ["orange"] "o".

(** A record tagged with the name of a member of [Object.prototype]. *)
Definition proto : Cat.t :=
  Cat.mk "c7" (Some "Proto") None None None (Some ["__proto__"]) false None.

(** Every category tag of a record, in the order [loadCategories] visits
    them: the record's own, then those of each image. *)
Definition categoryNames (cat : Cat.t) : list string :=
  (default [] (Cat.categories cat) ++
   flat_map (fun img => default [] (Media.categories img))
     (default [] (Cat.image_data cat)))%list.

Definition allCategoryNames (cats : list Cat.t) : list string :=
  flat_map categoryNames cats.

(** The name is not one that an object literal inherits. *)
Definition plainName (c : string) : Prop :=
  arrayIncludes objectPrototypeKeys c = false.

(** The count of an entry as a number; a string counts for nothing. *)
Definition entryNum (e : CategoryEntry) : nat :=
  match count e with
  | CNum n => n
  | CStr _ => 0
  end.

(** The number recorded under [c], 0 when there is none. *)
Definition tallyOf (o : Counts) (c : string) : nat :=
  match ownGet o c with
  | Some (CNum n) => n
  | _ => 0
  end.

(** Every own property is a positive number, and no key occurs twice. *)
Definition tallies (o : Counts) : Prop :=
  NoDup (List.map fst o) /\
  forall k v, In (k, v) o -> exists n, v = CNum n /\ 0 < n.

(** ** Vocabulary of the further properties *)

(** The text [filterCats] searches for: the search box, lower-cased and
    trimmed. *)
Definition searchTermOf (st : State) : string :=
  trim (toLowerCase (searchInput st)).

(** The lower-cased [field] contains [term]. *)
Definition lowerContains (field term : string) : Prop :=
  exists pre post, toLowerCase field = pre +:+ term +:+ post.

(** [term] occurs in the record's title or description, or in the title or
    description of one of its [image_data] items; an absent text reads as
    empty. *)
Definition textMatches (term : string) (cat : Cat.t) : Prop :=
  lowerContains (orElse (Cat.title cat) "") term \/
  lowerContains (orElse (Cat.description cat) "") term \/
  exists imgs img,
    Cat.image_data cat = Some imgs /\ In img imgs /\
    (lowerContains (orElse (Media.title img) "") term \/
     lowerContains (orElse (Media.description img) "") term).

(** The record passes the filters that are active in [st]. *)
Definition passesFilters (st : State) (cat : Cat.t) : Prop :=
  (selectedCategories st = [] \/
   recordHoldsAll (selectedCategories st) cat \/
   someImageHoldsAll (selectedCategories st) cat) /\
  (searchTermOf st = EmptyString \/ textMatches (searchTermOf st) cat).

(** The callback that the two stages of [filterCats] amount to. *)
Definition activeFilter (st : State) (cat : Cat.t) : bool :=
  (negb (0 <? length (selectedCategories st)) ||
   categoryMatch (selectedCategories st) cat) &&
  (negb (truthy (searchTermOf st)) || searchMatch (searchTermOf st) cat).

(** The records [filterCats] hands to [renderCats]. *)
Definition filteredRecords (st : State) : list Cat.t :=
  match filterCats_filtered st with
  | (Ok filtered, st') => readArray st' filtered
  | (Throw _, _) => []
  end.

(** The handler leaves the component [proj] of the state as it found it,
    whether it completes or throws. *)
Definition leaves {A B : Type} (proj : State -> B) (m : M A) : Prop :=
  forall st, proj (snd (m st)) = proj st.

(** The state when the category stage has changed the selection and
    [filterCats] is about to run. *)
Definition withSelection (selected : list string) (st : State) : State :=
  set_selectedCategories selected st.

(** The selection a change of the checkbox of [c] leaves. *)
Definition selectionAfter (c : string) (checked : bool) (st : State) : list string :=
  selectedCategories (snd (handleCategoryChange c checked st)).

(** The media item a gallery card is drawn from: the record's first, or the
    placeholder. *)
Definition mainMediaOf (cat : Cat.t) : Media.t :=
  default placeholder (getCatMedia cat !! 0).

(** What a click on the card passes to [openCatModal]: the record's id and,
    on an individual card, the index of the item. *)
Definition cardTarget (card : Card) : string * option nat :=
  (card_id card, card_img card).

(** The targets of the individual cards of a list of records, item by
    item. *)
Definition individualTargets (cats : list Cat.t) : list (string * option nat) :=
  flat_map (fun cat => imap (fun i _ => (Cat.id cat, Some i)) (getCatMedia cat)) cats.

(** The cards in a region, none when it holds anything else. *)
Definition cardsOf (r : Region) : list Card :=
  match r with
  | RCards cards => cards
  | _ => []
  end.

(** The record [openCatModal] and [changeModalMedia] find under an id: the
    first record of [allCats] with that id. *)
Definition findCat (st : State) (catId : string) : option Cat.t :=
  List.find (fun c => String.eqb (Cat.id c) catId) (readArray st (allCats st)).

(** The state [openCatModal] leaves when it opens the modal on [view]. *)
Definition openedWith (view : ModalView) (st : State) : State :=
  set_history (true :: history st)
    (set_body_overflow "hidden"
       (set_catModal_active true (set_modalBody (Some view) st))).

(** The state [closeModal] leaves when it closes an open modal whose
    history entry is the current one. *)
Definition closedFrom (st : State) : State :=
  set_history (tail (history st))
    (set_body_overflow "" (set_catModal_active false st)).

(** The back button: the browser leaves the current history entry, then
    fires [popstate]. *)
Definition pressBack : M unit :=
  modify (fun s => set_history (tail (history s)) s) ;;;
  onPopState.

(** The media item and the video flag are those the element shows. *)
Definition isVideoEl (el : MediaElement) : bool :=
  match el with
  | VideoEl _ => true
  | ImgEl _ _ => false
  end.

Definition srcOf (el : MediaElement) : string :=
  match el with
  | VideoEl src => src
  | ImgEl src _ => src
  end.

(** The record has a non-empty [created_at] that parses to a date not
    before [oneWeekAgo]. *)
Definition recentEnough (dateValue : string -> option Z) (oneWeekAgo : Z)
    (c : Cat.t) : Prop :=
  exists s t,
    Cat.created_at c = Some s /\ s <> EmptyString /\
    dateValue s = Some t /\ (oneWeekAgo <= t)%Z.

(** The time value of the record's creation date, 0 when it has none. *)
Definition timeOf (dateValue : string -> option Z) (c : Cat.t) : Z :=
  default 0%Z (createdDate dateValue c).

(** The records the recent shelf is built from. *)
Definition recentShown (dateValue : string -> option Z) (oneWeekAgo : Z)
    (st : State) : list Cat.t :=
  take 8 (sortBy (newestFirst dateValue)
            (List.filter (withinWeek dateValue oneWeekAgo)
               (readArray st (allCats st)))).

(** The state of the store when [renderRecentCats] has made its arrays: the
    copy, the filtered array sorted in place, and the slice. *)
Definition recentArrays (dateValue : string -> option Z) (oneWeekAgo : Z)
    (st : State) : State :=
  set_heap
    (heap st ++
     [readArray st (allCats st);
      sortBy (newestFirst dateValue)
        (List.filter (withinWeek dateValue oneWeekAgo) (readArray st (allCats st)));
      recentShown dateValue oneWeekAgo st])%list st.


(** ** The database class *)

Module Database.

(** A row of the answer to [?select=categories]: its [categories] column,
    [null] or an array of names. *)
Record Row : Type := mkRow {
  categories : option (list string)
}.

(** What [fetch] resolved with, once [response.json()] has been read: the
    rows when [response.ok], the error body's [message] otherwise. *)
Inductive Response : Type :=
| Success (rows : list Row)
| Failure (message : option string).

(** How an [async] method settles; it rejects with [new Error(message)]. *)
Inductive Promise (A : Type) : Type :=
| Resolved (a : A)
| Rejected (message : string).
Arguments Resolved {A} a.
Arguments Rejected {A} message.

(** The comparison of [Array.prototype.sort()] without a comparator, on
    strings: by code units, a proper prefix first. *)
Definition defaultCompare (a b : string) : Z :=
  match String.compare a b with
  | Lt => (-1)%Z
  | Eq => 0%Z
  | Gt => 1%Z
  end.

(** [[...new Set(xs)]]: the elements in the order of their first
    occurrence. *)
Definition newSet (xs : list string) : list string :=
  fold_left (fun s c => setAdd c s) xs [].

(** [getUniqueCategories()], given what the request came back with. *)
Definition getUniqueCategories (response : Response) : Promise (list string) :=
  match response with
  | Failure message =>
      Rejected (JsString.orElse message "Failed to fetch categories")
  | Success cats =>
      let allCategories :=
        flat_map (fun c => default [] (categories c))
          (List.filter (fun c => match categories c with Some _ => true | None => false end)
             cats) in
      Resolved (sortBy defaultCompare (newSet allCategories))
  end.

(** [a] comes strictly before [b] in code-unit order. *)
Definition before (a b : string) : Prop := String.compare a b = Lt.

End Database.

(** [st] on a viewport of another width. *)
Definition withInnerWidth (width : float) (st : State) : State :=
  mkState (heap st) (allCats st) (selectedCategories st) (allCategoriesWithCounts st)
    (currentViewMode st) (searchInput st) (catCount st) (catsGrid st)
    (recentCats st) (popularCats st) (categoryFilters st) (recentSection st)
    (popularSection st) (modalBody st) (catModal_active st) (body_overflow st)
    (history st) (swipe st) width.


(** The category a checkbox stands for: the value its [input] holds. *)
Definition tagOf (b : Checkbox) : string := attr_value (cb_value b).

(** A code unit that the parser reads as text inside a paragraph: not the
    start of a tag or of a character reference, and neither NUL nor the
    carriage return, which the parser drops or rewrites. *)
Definition markupFreeUnit (c : ascii) : bool :=
  negb (Ascii.eqb c "<" || Ascii.eqb c "&" || Ascii.eqb c "000" || Ascii.eqb c "013").

Fixpoint markupFree (s : string) : bool :=
  match s with
  | EmptyString => true
  | String c rest => markupFreeUnit c && markupFree rest
  end.

(** The text a paragraph region shows: that of a message; that of
    interpolated markup when no code unit of it can start markup.  [None]
    where the embedding does not follow the parser. *)
Definition regionText (r : Region) : option string :=
  match r with
  | RMessage _ text => Some text
  | RMarkup _ html => if markupFree html then Some html else None
  | _ => None
  end.

(** * Properties *)

(** ** Strings *)

Lemma startsWith_app (s pat : string) :
  startsWith s pat = true <-> exists rest, s = pat +:+ rest.
Proof.
  revert s. induction pat as [|p pat IH]; intros s.
  - split; [intros _; exists s; reflexivity | intros _; destruct s; reflexivity].
  - destruct s as [|c s]; simpl.
    + split; [discriminate | intros [rest H]; discriminate].
    + rewrite andb_true_iff, IH. split.
      * intros [Hc [rest ->]]. apply Ascii.eqb_eq in Hc. subst c.
        exists rest. reflexivity.
      * intros [rest H]. injection H as -> ->. split.
        -- apply Ascii.eqb_refl.
        -- exists rest. reflexivity.
Qed.

Lemma includes_app (s pat : string) :
  includes s pat = true <-> exists pre post, s = pre +:+ pat +:+ post.
Proof.
  induction s as [|c s IH]; cbn [includes].
  - rewrite orb_false_r, startsWith_app. split.
    + intros [rest H]. exists EmptyString, rest. exact H.
    + intros [pre [post H]]. destruct pre; [|discriminate].
      exists post. exact H.
  - rewrite orb_true_iff, startsWith_app, IH. split.
    + intros [[rest H] | [pre [post H]]].
      * exists EmptyString, rest. exact H.
      * exists (String c pre), post. simpl. rewrite H. reflexivity.
    + intros [pre [post H]]. destruct pre as [|c' pre].
      * left. exists post. exact H.
      * right. simpl in H. injection H as _ H. exists pre, post. exact H.
Qed.

Lemma toLowerCase_app (a b : string) :
  toLowerCase (a +:+ b) = toLowerCase a +:+ toLowerCase b.
Proof. induction a as [|c a IH]; simpl; [reflexivity | rewrite IH; reflexivity]. Qed.

(** Lower-casing works unit by unit, so a split of the lower-cased string
    comes from a split of the string. *)
Lemma toLowerCase_split (s a b : string) :
  toLowerCase s = a +:+ b ->
  exists s1 s2, s = s1 +:+ s2 /\ toLowerCase s1 = a /\ toLowerCase s2 = b.
Proof.
  revert s. induction a as [|c a IH]; intros s H; simpl in H.
  - exists EmptyString, s. auto.
  - destruct s as [|d s]; [discriminate|]. simpl in H. injection H as Hc H.
    destruct (IH s H) as [s1 [s2 [-> [H1 H2]]]].
    exists (String d s1), s2. simpl. rewrite Hc, H1. auto.
Qed.

Lemma includes_toLowerCase (url pat : string) :
  includes (toLowerCase url) pat = true <-> containsIgnoringCase url pat.
Proof.
  rewrite includes_app. split.
  - intros [a [b H]].
    apply toLowerCase_split in H as [s1 [s2 [-> [H1 H2]]]].
    apply toLowerCase_split in H2 as [s3 [s4 [-> [H3 H4]]]].
    exists s1, s3, s4. auto.
  - intros [pre [mid [post [-> H]]]].
    exists (toLowerCase pre), (toLowerCase post).
    rewrite !toLowerCase_app, H. reflexivity.
Qed.

Lemma isVideoUrlString_contains (url : string) :
  isVideoUrlString url = true <->
  containsIgnoringCase url ".mp4" \/ containsIgnoringCase url ".webm" \/
  containsIgnoringCase url ".mov" \/ containsIgnoringCase url "/video/".
Proof.
  unfold isVideoUrlString. destruct url as [|c url].
  - simpl. split; [discriminate|].
    intros H.
    assert (Hno : forall pat, pat <> EmptyString -> ~ containsIgnoringCase EmptyString pat).
    { intros pat Hpat [pre [mid [post [Heq Hmid]]]].
      destruct pre; [|discriminate]. destruct mid; [|discriminate].
      simpl in Hmid. congruence. }
    destruct H as [H | [H | [H | H]]]; exfalso; revert H; apply Hno; discriminate.
  - cbn [truthy negb].
    rewrite !orb_true_iff, !includes_toLowerCase. tauto.
Qed.

(** ** C3: the video heuristic *)

(** C3, as the code has it: on every URL string [isVideoUrl] returns, and it
    returns [true] exactly when the URL contains, in any letter case and at
    any position, one of [.mp4], [.webm], [.mov] or [/video/]; the URL
    "https://x/VIDEO/a.MP4" is a video. *)
Theorem isVideoUrl_contains :
  (forall url : string,
     exists b, isVideoUrl (UStr url) = Ok b /\
       (b = true <->
        containsIgnoringCase url ".mp4" \/ containsIgnoringCase url ".webm" \/
        containsIgnoringCase url ".mov" \/ containsIgnoringCase url "/video/")) /\
  isVideoUrl (UStr "https://x/VIDEO/a.MP4") = Ok true.
Proof.
  split; [|reflexivity].
  intros url. exists (isVideoUrlString url). split; [reflexivity|].
  apply isVideoUrlString_contains.
Qed.

(** C3, as the specification words it, fails: "https://x/a.mp4?v=1" does
    not end with any of the three suffixes and has no [/video/] segment, yet
    it is inferred to be a video. *)
Lemma isVideoUrl_not_suffix :
  isVideoUrl (UStr "https://x/a.mp4?v=1") = Ok true /\
  specIsVideo "https://x/a.mp4?v=1" = false.
Proof. split; reflexivity. Qed.

(** ** C5: the media resolver *)

(** C5: [getCatMedia] is a function of the record alone and is defined on
    every record.  A non-empty [image_data] is returned as it is; failing
    that, a non-empty [image_urls] is mapped, URL by URL, to an item with
    that URL, no other field, and the type "video" or "image" as
    [isVideoUrl] decides; failing both, the result is the empty list. *)
Theorem getCatMedia_cases (cat : Cat.t) :
  (nonEmptyArray (Cat.image_data cat) ->
     Some (getCatMedia cat) = Cat.image_data cat) /\
  (~ nonEmptyArray (Cat.image_data cat) -> nonEmptyArray (Cat.image_urls cat) ->
     exists urls, Cat.image_urls cat = Some urls /\
       length (getCatMedia cat) = length urls /\
       forall i url, urls !! i = Some url ->
         exists type,
           getCatMedia cat !! i = Some (Media.mk url type None None None) /\
           (isVideoUrl (UStr url) = Ok true -> type = "video") /\
           (isVideoUrl (UStr url) = Ok false -> type = "image")) /\
  (~ nonEmptyArray (Cat.image_data cat) -> ~ nonEmptyArray (Cat.image_urls cat) ->
     getCatMedia cat = []).
Proof.
  unfold getCatMedia, nonEmptyArray.
  destruct (Cat.image_data cat) as [[|m ms]|] eqn:Hd;
    destruct (Cat.image_urls cat) as [[|u us]|] eqn:Hu;
    (split; [|split]);
    try (intros [x [xs H]]; discriminate);
    try (intros Hn [x [xs H]]; discriminate);
    try (intros [x [xs H]]; reflexivity);
    try (intros Hn1 Hn2; reflexivity);
    try (intros Hn1 Hn2; exfalso; apply Hn1; eauto; fail);
    try (intros Hn1 Hn2; exfalso; apply Hn2; eauto; fail);
    try (intros Hn; exfalso; apply Hn; eauto; fail).
  all: intros _ _; exists (u :: us); split; [reflexivity|];
    split; [apply length_map|];
    intros i url Hi;
    exists (if isVideoUrlString url then "video" else "image");
    (split; [|split]);
    [ change (List.map legacyItem (u :: us)) with (legacyItem <$> (u :: us));
      rewrite list_lookup_fmap, Hi; reflexivity
    | simpl; intros [= ->]; reflexivity
    | simpl; intros [= ->]; reflexivity ].
Qed.

(** The three branches of C5 on three records: Tom has a structured list,
    [legacyOnly] a legacy list only, and [bare] neither. *)
Lemma getCatMedia_cases_witness :
  Some (getCatMedia tom) = Cat.image_data tom /\
  (exists urls, Cat.image_urls legacyOnly = Some urls /\
     length (getCatMedia legacyOnly) = length urls /\
     forall i url, urls !! i = Some url ->
       exists type,
         getCatMedia legacyOnly !! i = Some (Media.mk url type None None None) /\
         (isVideoUrl (UStr url) = Ok true -> type = "video") /\
         (isVideoUrl (UStr url) = Ok false -> type = "image")) /\
  getCatMedia bare = [].
Proof.
  split; [|split].
  - apply (proj1 (getCatMedia_cases tom)).
    eexists _, _. reflexivity.
  - apply (proj1 (proj2 (getCatMedia_cases legacyOnly))).
    + intros [x [xs H]]. discriminate.
    + eexists _, _. reflexivity.
  - apply (proj2 (proj2 (getCatMedia_cases bare))).
    + intros [x [xs H]]. discriminate.
    + intros [x [xs H]]. discriminate.
Defined.

(** ** The array store *)

Lemma readArray_alloc (xs : list Cat.t) (st : State) :
  readArray (snd (allocArray xs st)) (fst (allocArray xs st)) = xs.
Proof.
  unfold readArray, allocArray. simpl.
  rewrite list_lookup_middle by reflexivity. reflexivity.
Qed.

Lemma readArray_alloc_old (xs : list Cat.t) (st : State) (l : nat) :
  l < length (heap st) ->
  readArray (snd (allocArray xs st)) l = readArray st l.
Proof.
  intros Hl. unfold readArray, allocArray. simpl.
  rewrite lookup_app_l by exact Hl. reflexivity.
Qed.

(** ** C1: the category stage keeps records that hold every selected category *)

Lemma arrayIncludes_In (xs : list string) (c : string) :
  arrayIncludes xs c = true <-> In c xs.
Proof.
  unfold arrayIncludes. rewrite existsb_exists. split.
  - intros [x [Hin Heq]]. apply String.eqb_eq in Heq. subst. exact Hin.
  - intros Hin. exists c. split; [exact Hin | apply String.eqb_refl].
Qed.

Lemma hasEvery_holdsAll (selected : list string) (o : option (list string)) :
  hasEvery selected o = true <-> exists cs, o = Some cs /\ holdsAll selected cs.
Proof.
  unfold hasEvery, holdsAll. destruct o as [cs|].
  - rewrite forallb_forall. split.
    + intros H. exists cs. split; [reflexivity|].
      intros c Hc. apply arrayIncludes_In, H, Hc.
    + intros [cs' [[= <-] H]] c Hc. apply arrayIncludes_In, H, Hc.
  - split; [discriminate | intros [cs [H _]]; discriminate].
Qed.

Lemma categoryMatch_holdsAll (selected : list string) (cat : Cat.t) :
  categoryMatch selected cat = true <->
  recordHoldsAll selected cat \/ someImageHoldsAll selected cat.
Proof.
  unfold categoryMatch, recordHoldsAll, someImageHoldsAll.
  rewrite orb_true_iff, hasEvery_holdsAll.
  apply or_iff_compat_l.
  destruct (Cat.image_data cat) as [imgs|].
  - rewrite existsb_exists. split.
    + intros [img [Hin H]]. apply hasEvery_holdsAll in H as [cs [Hcs H]].
      exists imgs, img, cs. auto.
    + intros [imgs' [img [cs [[= <-] [Hin [Hcs H]]]]]].
      exists img. split; [exact Hin|]. apply hasEvery_holdsAll. eauto.
  - split; [discriminate|]. intros [imgs [img [cs [H _]]]]. discriminate.
Qed.

(** C1: with at least one category selected, and whatever the search box
    holds, [filterCats] reaches [renderCats(filtered)] with an array whose
    every record comes from [allCats] and holds every selected category,
    either in its own [categories] or in the [categories] of one of its
    [image_data] items. *)
Theorem filterCats_holds_every_selected (st : State) :
  selectedCategories st <> [] ->
  exists filtered st',
    filterCats_filtered st = (Ok filtered, st') /\
    filterCats st = renderCats filtered st' /\
    forall cat, In cat (readArray st' filtered) ->
      In cat (readArray st (allCats st)) /\
      (recordHoldsAll (selectedCategories st) cat \/
       someImageHoldsAll (selectedCategories st) cat).
Proof.
  intros Hsel.
  assert (Hrun : exists filtered st',
            filterCats_filtered st = (Ok filtered, st') /\
            forall cat, In cat (readArray st' filtered) ->
              In cat (readArray st (allCats st)) /\
              (recordHoldsAll (selectedCategories st) cat \/
               someImageHoldsAll (selectedCategories st) cat)).
  { unfold filterCats_filtered, bind, get, ret.
    destruct (selectedCategories st) as [|s0 sel] eqn:Esel; [congruence|].
    cbn [length Nat.ltb Nat.leb].
    unfold arrayFilter.
    set (kept := List.filter (categoryMatch (s0 :: sel)) (readArray st (allCats st))).
    assert (Hkept : forall cat, In cat kept ->
              In cat (readArray st (allCats st)) /\
              (recordHoldsAll (s0 :: sel) cat \/ someImageHoldsAll (s0 :: sel) cat)).
    { intros cat Hin. apply filter_In in Hin as [Hin Hm].
      split; [exact Hin | apply categoryMatch_holdsAll, Hm]. }
    pose proof (readArray_alloc kept st) as Hread.
    destruct (allocArray kept st) as [l1 st1] eqn:Ea. cbn [fst snd] in Hread.
    destruct (truthy (trim (toLowerCase (searchInput st)))).
    - set (found := List.filter _ (readArray st1 l1)).
      pose proof (readArray_alloc found st1) as Hread2.
      destruct (allocArray found st1) as [l2 st2] eqn:Ea2. cbn [fst snd] in Hread2.
      exists l2, st2. split; [reflexivity|].
      intros cat Hin. rewrite Hread2 in Hin. subst found.
      apply filter_In in Hin as [Hin _]. rewrite Hread in Hin. auto.
    - exists l1, st1. split; [reflexivity|].
      intros cat Hin. rewrite Hread in Hin. auto. }
  destruct Hrun as [filtered [st' [Hrun Hall]]].
  exists filtered, st'. split; [exact Hrun|]. split; [|exact Hall].
  unfold filterCats, bind. rewrite Hrun. reflexivity.
Qed.

(** C1 on the small gallery with "orange" and "sleepy" selected. *)
Lemma filterCats_holds_every_selected_witness :
  selectedCategories (galleryState "batch" ["orange"; "sleepy"] "") <> [] /\
  exists filtered st',
    filterCats_filtered (galleryState "batch" ["orange"; "sleepy"] "")
      = (Ok filtered, st') /\
    filterCats (galleryState "batch" ["orange"; "sleepy"] "")
      = renderCats filtered st' /\
    forall cat, In cat (readArray st' filtered) ->
      In cat gallery /\
      (recordHoldsAll ["orange"; "sleepy"] cat \/
       someImageHoldsAll ["orange"; "sleepy"] cat).
Proof.
  split.
  - discriminate.
  - apply (filterCats_holds_every_selected
             (galleryState "batch" ["orange"; "sleepy"] "")).
    discriminate.
Defined.

(** Selecting both categories keeps Tom (his own tags) and Misty (the tags
    of her first image), and drops Felix. *)
Example filterCats_small_gallery :
  match filterCats_filtered (galleryState "batch" ["orange"; "sleepy"] "") with
  | (Ok filtered, st') => readArray st' filtered = [tom; misty]
  | _ => False
  end.
Proof. reflexivity. Qed.

(** ** C2: without filters the whole list is rendered *)

Lemma lower_unit_whiteSpace (c : ascii) :
  isWhiteSpace c = true -> lower_unit c = c.
Proof.
  destruct c as [[] [] [] [] [] [] [] []]; try discriminate; reflexivity.
Qed.

Lemma trim_allWhiteSpace (s : string) :
  allWhiteSpace s = true -> trim (toLowerCase s) = EmptyString.
Proof.
  unfold trim. induction s as [|c s IH]; simpl; [reflexivity|].
  intros H. apply andb_true_iff in H as [Hc Hs].
  rewrite (lower_unit_whiteSpace c Hc), Hc. apply IH, Hs.
Qed.

(** C2: with no category selected and a search box that is empty or holds
    white space only, [filterCats] allocates nothing and hands [allCats]
    itself, the same array with the same elements, to [renderCats]. *)
Theorem filterCats_no_filter (st : State) :
  selectedCategories st = [] ->
  allWhiteSpace (searchInput st) = true ->
  filterCats_filtered st = (Ok (allCats st), st) /\
  filterCats st = renderCats (allCats st) st.
Proof.
  intros Hsel Hws.
  assert (Hrun : filterCats_filtered st = (Ok (allCats st), st)).
  { unfold filterCats_filtered, bind, get, ret.
    rewrite Hsel, (trim_allWhiteSpace _ Hws). reflexivity. }
  split; [exact Hrun|].
  unfold filterCats, bind. rewrite Hrun. reflexivity.
Qed.

(** C2 on the small gallery with blanks in the search box. *)
Lemma filterCats_no_filter_witness :
  filterCats_filtered (galleryState "batch" [] "   ")
    = (Ok 0, galleryState "batch" [] "   ") /\
  filterCats (galleryState "batch" [] "   ")
    = renderCats 0 (galleryState "batch" [] "   ").
Proof.
  apply (filterCats_no_filter (galleryState "batch" [] "   ")); reflexivity.
Defined.

(** ** C7: the count label *)

Lemma countLabel_labelFor (n : nat) (noun : string) :
  countLabel n noun = labelFor n noun (noun +:+ "s").
Proof.
  assert (Hnil : forall s : string, s +:+ EmptyString = s).
  { induction s as [|c s IH]; [reflexivity|].
    change (String c (s +:+ EmptyString) = String c s). rewrite IH. reflexivity. }
  unfold countLabel, labelFor. destruct (Nat.eqb_spec n 1) as [->|Hn].
  - cbn [negb]. rewrite Hnil. reflexivity.
  - cbn [negb]. destruct (decide (n = 1)); [contradiction | reflexivity].
Qed.

Lemma mediaIsVideo_drawable (m : Media.t) :
  drawable m = true -> exists b, mediaIsVideo m = Ok b.
Proof.
  unfold drawable, mediaIsVideo, urlOrSelf.
  destruct (String.eqb (Media.type m) "video"); [eauto|].
  simpl. intros ->. simpl. eauto.
Qed.

Lemma mediaIsVideo_not_drawable (m : Media.t) :
  drawable m = false -> exists e, mediaIsVideo m = Throw e.
Proof.
  unfold drawable, mediaIsVideo, urlOrSelf.
  destruct (String.eqb (Media.type m) "video"); [discriminate|].
  simpl. intros ->. simpl. eauto.
Qed.

Lemma renderIndividualCard_drawable (cat : Cat.t) (m : Media.t) (i : nat) :
  drawable m = true -> exists card, renderIndividualCard cat m i = Ok card.
Proof.
  intros H. destruct (mediaIsVideo_drawable m H) as [b Hb].
  unfold renderIndividualCard. rewrite Hb. simpl. eauto.
Qed.

(** The inner loop adds one image per item. *)
Lemma individualStep_all (cat : Cat.t) (ims : list (nat * Media.t))
    (acc : list Card * nat) :
  Forall (fun im => drawable (snd im) = true) ims ->
  exists cards, forEachM (individualStep cat) ims acc = Ok (cards, snd acc + length ims).
Proof.
  revert acc. induction ims as [|[i m] ims IH]; intros acc H; simpl.
  - exists (fst acc). rewrite Nat.add_0_r. destruct acc; reflexivity.
  - inversion H as [|? ? Hm Hims]; subst. simpl in Hm.
    destruct (renderIndividualCard_drawable cat m i Hm) as [card Hcard].
    unfold individualStep at 1. simpl. rewrite Hcard. simpl.
    destruct (IH ((fst acc ++ [card])%list, S (snd acc)) Hims) as [cards Hcards].
    exists cards. rewrite Hcards. simpl. f_equal. f_equal. lia.
Qed.

Lemma imap_pair_drawable (media : list Media.t) :
  Forall (fun m => drawable m = true) media ->
  Forall (fun im : nat * Media.t => drawable (snd im) = true) (imap pair media).
Proof.
  intros H. apply Forall_forall. intros [i m] Hin.
  apply elem_of_lookup_imap in Hin as [j [y [[= -> ->] Hy]]].
  simpl. rewrite Forall_forall in H. apply H.
  eapply list_elem_of_lookup_2. exact Hy.
Qed.

(** The outer loop adds the length of each record's media list. *)
Lemma individualCat_all (cats : list Cat.t) (acc : list Card * nat) :
  allDrawable cats ->
  exists cards,
    forEachM individualCat cats acc
      = Ok (cards, snd acc + length (flat_map getCatMedia cats)).
Proof.
  revert acc. induction cats as [|cat cats IH]; intros acc H; simpl.
  - exists (fst acc). rewrite Nat.add_0_r. destruct acc; reflexivity.
  - inversion H as [|? ? Hcat Hcats]; subst.
    assert (Hstep : exists cards,
              individualCat acc cat = Ok (cards, snd acc + length (getCatMedia cat))).
    { unfold individualCat. destruct (getCatMedia cat) as [|m ms] eqn:Em.
      - simpl. exists (fst acc). rewrite Nat.add_0_r. destruct acc; reflexivity.
      - cbn [length Nat.ltb Nat.leb].
        destruct (individualStep_all cat (imap pair (m :: ms)) acc
                    (imap_pair_drawable _ Hcat)) as [cards Hc].
        exists cards. rewrite Hc, length_imap. reflexivity. }
    destruct Hstep as [cards1 H1]. rewrite H1. simpl.
    destruct (IH (cards1, snd acc + length (getCatMedia cat)) Hcats) as [cards Hc].
    exists cards. rewrite Hc. simpl. rewrite length_app. f_equal. f_equal. lia.
Qed.

(** The count label [renderCats] writes.  In batch mode it is written
    first and reads "N cat" for one record and "N cats" otherwise.  In any
    other mode it is written once every card is built: when every media item
    can be drawn, [renderCats] completes and the label reads "N photo" for
    one media item in all and "N photos" otherwise. *)
Lemma renderCats_count_label (st : State) (cats : nat) :
  (currentViewMode st = "batch" ->
     catCount (snd (renderCats cats st))
       = labelFor (length (readArray st cats)) "cat" "cats") /\
  (currentViewMode st <> "batch" -> allDrawable (readArray st cats) ->
     fst (renderCats cats st) = Ok tt /\
     catCount (snd (renderCats cats st))
       = labelFor (length (flat_map getCatMedia (readArray st cats))) "photo" "photos").
Proof.
  split.
  - intros Hmode. unfold renderCats, bind, get, modify, lift.
    rewrite Hmode. cbn [String.eqb Ascii.eqb Bool.eqb andb].
    rewrite countLabel_labelFor.
    destruct (length (readArray st cats) =? 0)%nat; [reflexivity|].
    destruct (mapM (renderCatCard false) (readArray st cats)); reflexivity.
  - intros Hmode Hall. unfold renderCats, bind, get, modify, lift.
    apply String.eqb_neq in Hmode. rewrite Hmode.
    destruct (individualCat_all (readArray st cats) ([], 0) Hall) as [cards Hc].
    rewrite Hc. cbn [fst snd Nat.add]. rewrite countLabel_labelFor.
    destruct (length (flat_map getCatMedia (readArray st cats)) =? 0)%nat;
      split; reflexivity.
Qed.

(** Three records with 1, 3 and 2 media items: "3 cats" in batch mode and
    "6 photos" in individual mode. *)
Example renderCats_gallery_labels :
  List.map (fun cat => length (getCatMedia cat)) gallery = [1; 3; 2] /\
  catCount (snd (renderCats 0 (galleryState "batch" [] ""))) = "3 cats" /\
  catCount (snd (renderCats 0 (galleryState "individual" [] ""))) = "6 photos".
Proof. repeat split; reflexivity. Qed.

(** C7 fails in individual mode on a media item with an empty [url]:
    [renderIndividualCard] passes the item itself to [isVideoUrl], which
    throws; [renderCats] ends there and the count label, written last, keeps
    its former text instead of reading "1 photo". *)
Theorem renderCats_individual_blank_url :
  length (flat_map getCatMedia (readArray (blankState "individual") 0)) = 1 /\
  renderCats 0 (blankState "individual")
    = (Throw (TypeError "url.toLowerCase is not a function"), blankState "individual") /\
  catCount (snd (renderCats 0 (blankState "individual"))) <> "1 photo".
Proof. repeat split; try reflexivity. discriminate. Qed.

(** ** C8: an unknown id opens nothing *)

Lemma find_id_none (cats : list Cat.t) (catId : string) :
  (forall c, In c cats -> Cat.id c <> catId) ->
  List.find (fun c => String.eqb (Cat.id c) catId) cats = None.
Proof.
  intros H. destruct (List.find _ cats) as [c|] eqn:E; [|reflexivity].
  apply find_some in E as [Hin Heq]. apply String.eqb_eq in Heq.
  exfalso. exact (H c Hin Heq).
Qed.

(** C8: when no record of [allCats] has the id, [openCatModal] completes
    and leaves the whole state as it was: the modal is not made active,
    [modalBody] is not written, nothing is pushed on the session history. *)
Theorem openCatModal_unknown_id (toLocaleDateString : string -> string)
    (st : State) (catId : string) (startIndex : nat) :
  (forall c, In c (readArray st (allCats st)) -> Cat.id c <> catId) ->
  openCatModal toLocaleDateString catId startIndex st = (Ok tt, st).
Proof.
  intros H. unfold openCatModal, bind, get.
  rewrite (find_id_none _ _ H). reflexivity.
Qed.

(** C8 on the small gallery: no record is called "nonexistent". *)
Lemma openCatModal_unknown_id_witness :
  openCatModal (fun s => s) "nonexistent" 0 (galleryState "batch" [] "")
    = (Ok tt, galleryState "batch" [] "") /\
  catModal_active (galleryState "batch" [] "") = false.
Proof.
  split; [|reflexivity].
  apply (openCatModal_unknown_id (fun s => s) (galleryState "batch" [] "")).
  intros c [<- | [<- | [<- | []]]]; discriminate.
Defined.

(** ** C10: a media index past the end *)

Lemma galleryThumb_all (cat : Cat.t) (startIndex : nat) (ims : list (nat * Media.t)) :
  Forall (fun im => drawable (snd im) = true) ims ->
  exists thumbs, mapM (galleryThumb cat startIndex) ims = Ok thumbs.
Proof.
  induction ims as [|[i m] ims IH]; intros H; simpl; [eauto|].
  inversion H as [|? ? Hm Hims]; subst. simpl in Hm.
  destruct (mediaIsVideo_drawable m Hm) as [b Hb].
  destruct (IH Hims) as [thumbs Ht].
  unfold galleryThumb at 1. simpl. rewrite Hb. simpl. rewrite Ht. simpl. eauto.
Qed.

Lemma currentMediaAt_past_end (media : list Media.t) (startIndex : nat) :
  length media <= startIndex ->
  currentMediaAt media startIndex = default placeholder (media !! 0).
Proof.
  intros H. unfold currentMediaAt. rewrite (lookup_ge_None_2 _ _ H). reflexivity.
Qed.

(** What [openCatModal] does past the end of a media list whose items can
    all be drawn: it completes, writes the modal, makes it active, locks the
    page scroll and pushes one history entry; the main element shows the
    first media item, or the placeholder image when there is no item. *)
Lemma openCatModal_past_end (toLocaleDateString : string -> string)
    (st : State) (cat : Cat.t) (startIndex : nat) :
  List.find (fun c => String.eqb (Cat.id c) (Cat.id cat)) (readArray st (allCats st))
    = Some cat ->
  length (getCatMedia cat) <= startIndex ->
  Forall (fun m => drawable m = true) (getCatMedia cat) ->
  exists view,
    openCatModal toLocaleDateString (Cat.id cat) startIndex st
      = (Ok tt,
         set_history (true :: history st)
           (set_body_overflow "hidden"
              (set_catModal_active true (set_modalBody (Some view) st)))) /\
    shows (modal_main view) (default placeholder (getCatMedia cat !! 0)) /\
    (getCatMedia cat = [] ->
       modal_main view
         = ImgEl (Media.url placeholder)
             (Some (attributeValue (escapeHtml (orElse (Cat.title cat) EmptyString))))).
Proof.
  intros Hfind Hidx Hdraw.
  assert (Hview : exists view,
            modalView toLocaleDateString cat startIndex = Ok view /\
            shows (modal_main view) (default placeholder (getCatMedia cat !! 0)) /\
            (getCatMedia cat = [] ->
               modal_main view
                 = ImgEl (Media.url placeholder)
                     (Some (attributeValue (escapeHtml (orElse (Cat.title cat) EmptyString)))))).
  { unfold modalView. rewrite (currentMediaAt_past_end _ _ Hidx).
    set (current := default placeholder (getCatMedia cat !! 0)).
    assert (Hcur : drawable current = true).
    { subst current. destruct (getCatMedia cat) as [|m ms]; [reflexivity|].
      inversion Hdraw; subst. assumption. }
    destruct (mediaIsVideo_drawable current Hcur) as [b Hb]. rewrite Hb.
    cbn [rbind].
    destruct (galleryThumb_all cat startIndex (imap pair (getCatMedia cat))
                (imap_pair_drawable _ Hdraw)) as [thumbs Ht].
    rewrite Ht. cbn [rbind].
    destruct (1 <? length (getCatMedia cat)); cbn [rbind];
      (eexists; split; [reflexivity|]; split;
       [ destruct b; reflexivity
       | intros Hnil; subst current; rewrite Hnil in Hb |- *;
         injection Hb as <-; reflexivity ]). }
  destruct Hview as [view [Hview [Hshow Hnil]]].
  exists view. split; [|split; assumption].
  unfold openCatModal, bind, get, lift, modify. rewrite Hfind, Hview. reflexivity.
Qed.

(** C10 fails on a record whose first media item has an empty [url]: past
    the end the item is selected as the fallback, [isVideoUrl] is called on
    the item itself and throws, and the modal stays closed and empty. *)
Theorem openCatModal_past_end_blank_url :
  List.find (fun c => String.eqb (Cat.id c) "c6") (readArray (blankState "batch") 0)
    = Some blank /\
  length (getCatMedia blank) <= 1 /\
  openCatModal (fun s => s) "c6" 1 (blankState "batch")
    = (Throw (TypeError "url.toLowerCase is not a function"), blankState "batch") /\
  catModal_active (blankState "batch") = false.
Proof. repeat split; reflexivity. Qed.

(** Past the end of Misty's three items the modal opens on her first. *)
Example openCatModal_past_end_misty :
  exists view st',
    openCatModal (fun s => s) "c2" 7 (galleryState "individual" [] "")
      = (Ok tt, st') /\
    modalBody st' = Some view /\
    catModal_active st' = true /\
    history st' = [true; false] /\
    modal_main view = ImgEl "https://x/2.jpg" (Some (mkAttr "Window" None)).
Proof. eexists _, _. repeat split; reflexivity. Qed.

(** ** C4: swipe to close *)





(** The products are rounded.  On a viewport 1001 wide the product with 0.20
    is rounded up to 200.20000000000002, so a level swipe by exactly that
    much, which is more than 20% of 1001, does not close the modal; one by
    200.20000000000005 does.  On a viewport 1000 wide, 204.8 times 1.5 is
    rounded up to 307.20000000000005, and a swipe by exactly
    (307.20000000000005, 204.8) does not close it either. *)
Example swipeGesture_rounding :
  let wide := withInnerWidth 1001 openedState in
  (exists dx, exactly (200.20000000000002 - 0)%float dx /\
              (inject_Z 1001 * (20 # 100) < dx)%Q) /\
  catModal_active
    (snd (swipeGesture (mkTouch 0 0) (mkTouch 200.20000000000002 0) wide)) = true /\
  catModal_active
    (snd (swipeGesture (mkTouch 0 0) (mkTouch 200.20000000000005 0) wide)) = false /\
  catModal_active
    (snd (swipeGesture (mkTouch 0 0) (mkTouch 307.20000000000005 204.8)
            openedState)) = true.
Proof.
  split; [|repeat split; reflexivity].
  eexists. split.
  - unfold exactly. vm_compute numberValue. reflexivity.
  - reflexivity.
Qed.

(** ** C9: the record list is never written *)

Lemma keeps_refl (st : State) : keeps st st.
Proof. unfold keeps. auto. Qed.

Lemma keeps_same_store (st0 st st' : State) :
  heap st' = heap st -> allCats st' = allCats st -> keeps st0 st -> keeps st0 st'.
Proof. unfold keeps. intros -> ->. auto. Qed.

Lemma keeps_alloc (st0 st : State) (xs : list Cat.t) :
  keeps st0 st ->
  keeps st0 (snd (allocArray xs st)) /\ fresh st0 (fst (allocArray xs st)).
Proof.
  unfold keeps, fresh, allocArray. simpl. intros [Ha [Hlen Hold]].
  rewrite length_app. simpl. split; [split; [exact Ha | split; [lia|]] | exact Hlen].
  intros l Hl. rewrite lookup_app_l by lia. apply Hold, Hl.
Qed.

Lemma keeps_write (st0 st : State) (l : nat) (xs : list Cat.t) :
  fresh st0 l -> keeps st0 st -> keeps st0 (writeArray l xs st).
Proof.
  unfold keeps, fresh, writeArray. simpl. intros Hl [Ha [Hlen Hold]].
  rewrite length_insert. repeat split; [exact Ha | exact Hlen |].
  intros l' Hl'. rewrite list_lookup_insert_ne by lia. apply Hold, Hl'.
Qed.

Lemma keeps_sameRecords (st st' : State) :
  wfState st -> keeps st st' -> sameRecords st st'.
Proof.
  unfold wfState, keeps, sameRecords, readArray. intros Hwf [Ha [_ Hold]].
  split; [exact Ha|]. rewrite Ha, (Hold _ Hwf). reflexivity.
Qed.

Section Frames.

Variable st0 : State.

Lemma frames_weaken {A : Type} (m : M A) (Q Q' : A -> Prop) :
  frames st0 m Q -> (forall a, Q a -> Q' a) -> frames st0 m Q'.
Proof.
  intros Hm HQ st Hst. destruct (Hm st Hst) as [Hk Ha]. split; [exact Hk|].
  intros a E. apply HQ, Ha, E.
Qed.

Lemma frames_ret {A : Type} (a : A) (Q : A -> Prop) :
  Q a -> frames st0 (ret a) Q.
Proof. intros HQ st Hst. split; [exact Hst|]. simpl. intros ? [= <-]. exact HQ. Qed.

Lemma frames_throw {A : Type} (e : exn) (Q : A -> Prop) :
  frames st0 (throw e) Q.
Proof. intros st Hst. split; [exact Hst|]. simpl. discriminate. Qed.

Lemma frames_lift {A : Type} (r : result A) :
  frames st0 (lift r) (fun _ => True).
Proof. intros st Hst. split; [exact Hst | auto]. Qed.

Lemma frames_get : frames st0 get (fun _ => True).
Proof. intros st Hst. split; [exact Hst | auto]. Qed.

Lemma frames_modify (f : State -> State) :
  (forall st, heap (f st) = heap st /\ allCats (f st) = allCats st) ->
  frames st0 (modify f) (fun _ => True).
Proof.
  intros Hf st Hst. split; [|auto]. simpl.
  destruct (Hf st) as [Hh Ha]. exact (keeps_same_store _ _ _ Hh Ha Hst).
Qed.

Lemma frames_bind {A B : Type} (m : M A) (k : A -> M B)
    (R : A -> Prop) (Q : B -> Prop) :
  frames st0 m R -> (forall a, R a -> frames st0 (k a) Q) ->
  frames st0 (bind m k) Q.
Proof.
  intros Hm Hk st Hst. unfold bind.
  destruct (Hm st Hst) as [Hkeep HR].
  destruct (m st) as [[a|e] st']; simpl in *.
  - apply (Hk a (HR a eq_refl) st' Hkeep).
  - split; [exact Hkeep | discriminate].
Qed.

Lemma frames_tryCatch {A : Type} (body : M A) (handler : exn -> M A)
    (Q : A -> Prop) :
  frames st0 body Q -> (forall e, frames st0 (handler e) Q) ->
  frames st0 (tryCatch body handler) Q.
Proof.
  intros Hb Hh st Hst. unfold tryCatch.
  destruct (Hb st Hst) as [Hkeep HQ].
  destruct (body st) as [[a|e] st']; simpl in *.
  - split; [exact Hkeep | exact HQ].
  - apply (Hh e st' Hkeep).
Qed.

Lemma frames_alloc (xs : State -> list Cat.t) :
  frames st0 (fun st => let (l, st') := allocArray (xs st) st in (Ok l, st'))
    (fresh st0).
Proof.
  intros st Hst. destruct (keeps_alloc st0 st (xs st) Hst) as [Hk Hf].
  destruct (allocArray (xs st) st) as [l st']. simpl in *.
  split; [exact Hk|]. intros ? [= <-]. exact Hf.
Qed.

Lemma frames_arrayFilter (p : Cat.t -> bool) (l : nat) :
  frames st0 (arrayFilter p l) (fresh st0).
Proof. apply (frames_alloc (fun st => List.filter p (readArray st l))). Qed.

Lemma frames_arraySpread (l : nat) : frames st0 (arraySpread l) (fresh st0).
Proof. apply (frames_alloc (fun st => readArray st l)). Qed.

Lemma frames_arraySlice0 (n l : nat) : frames st0 (arraySlice0 n l) (fresh st0).
Proof. apply (frames_alloc (fun st => take n (readArray st l))). Qed.

(** Sorting in place is harmless on an array allocated after [st0]. *)
Lemma frames_arraySort (cmp : Cat.t -> Cat.t -> Z) (l : nat) :
  fresh st0 l -> frames st0 (arraySort cmp l) (fun l' => l' = l).
Proof.
  intros Hl st Hst. unfold arraySort. simpl. split.
  - apply keeps_write; assumption.
  - intros ? [= <-]. reflexivity.
Qed.

End Frames.

(** One step through a handler: sequence, assignment to anything but the
    store, or a branch. *)
Ltac frames_step :=
  match goal with
  | |- frames _ (bind _ _) _ =>
      eapply frames_bind with (R := fun _ => True); [| intros ? _]
  | |- frames _ (modify _) _ => apply frames_modify; intros ?; split; reflexivity
  | |- frames _ (ret _) _ => apply frames_ret; exact I
  | |- frames _ (throw _) _ => apply frames_throw
  | |- frames _ (lift _) _ => apply frames_lift
  | |- frames _ get _ => apply frames_get
  | |- frames _ (arrayFilter _ _) _ =>
      eapply frames_weaken; [apply frames_arrayFilter | auto]
  | |- frames _ (arraySlice0 _ _) _ =>
      eapply frames_weaken; [apply frames_arraySlice0 | auto]
  | |- frames _ (if ?b then _ else _) _ => destruct b
  | |- frames _ (match ?x with _ => _ end) _ => destruct x
  end.

Lemma frames_renderCats (st0 : State) (cats : nat) :
  frames st0 (renderCats cats) (fun _ => True).
Proof. unfold renderCats. repeat frames_step. Qed.

Lemma frames_filterCats (st0 : State) : frames st0 filterCats (fun _ => True).
Proof.
  unfold filterCats, filterCats_filtered. repeat frames_step.
  apply frames_renderCats.
Qed.

Lemma frames_renderRecentCats (st0 : State) (dateValue : string -> option Z)
    (oneWeekAgo : Z) :
  frames st0 (renderRecentCats dateValue oneWeekAgo) (fun _ => True).
Proof.
  unfold renderRecentCats.
  frames_step; [frames_step|].
  eapply frames_bind; [apply frames_arraySpread | intros copy _].
  eapply frames_bind; [apply frames_arrayFilter | intros kept Hkept].
  eapply frames_bind; [apply (frames_arraySort _ _ _ Hkept) | intros sorted _].
  repeat frames_step.
Qed.

Lemma frames_renderPopularCats (st0 : State) :
  frames st0 renderPopularCats (fun _ => True).
Proof. unfold renderPopularCats. repeat frames_step. Qed.

Lemma frames_openCatModal (st0 : State) (toLocaleDateString : string -> string)
    (catId : string) (startIndex : nat) :
  frames st0 (openCatModal toLocaleDateString catId startIndex) (fun _ => True).
Proof. unfold openCatModal. repeat frames_step. Qed.

Lemma frames_changeModalMedia (st0 : State) (src : string) (thumb : nat)
    (isVideo : bool) (catId : string) (imgIndex : nat) :
  frames st0 (changeModalMedia src thumb isVideo catId imgIndex) (fun _ => True).
Proof. unfold changeModalMedia. repeat frames_step. Qed.

Lemma frames_closeModal (st0 : State) (event : option bool) :
  frames st0 (closeModal event) (fun _ => True).
Proof. unfold closeModal. repeat frames_step. Qed.

Lemma frames_sameRecords {A : Type} (m : M A) (st : State) :
  wfState st -> frames st m (fun _ => True) -> sameRecords st (snd (m st)).
Proof.
  intros Hwf Hm. apply keeps_sameRecords; [exact Hwf|].
  apply (Hm st (keeps_refl st)).
Qed.

(** C9: from a state in which [allCats] names an allocated array, each of
    [filterCats], [renderCats], [renderRecentCats], [renderPopularCats],
    [openCatModal] and [changeModalMedia] ends, whether it completes or
    throws, with [allCats] naming the same array and that array holding the
    same records in the same order.  [renderRecentCats] sorts in place an
    array it allocated itself. *)
Theorem handlers_keep_records (st : State)
    (dateValue : string -> option Z) (oneWeekAgo : Z)
    (toLocaleDateString : string -> string) :
  wfState st ->
  sameRecords st (snd (filterCats st)) /\
  (forall cats, sameRecords st (snd (renderCats cats st))) /\
  sameRecords st (snd (renderRecentCats dateValue oneWeekAgo st)) /\
  sameRecords st (snd (renderPopularCats st)) /\
  (forall catId startIndex,
     sameRecords st (snd (openCatModal toLocaleDateString catId startIndex st))) /\
  (forall src thumb isVideo catId imgIndex,
     sameRecords st (snd (changeModalMedia src thumb isVideo catId imgIndex st))).
Proof.
  intros Hwf.
  split; [|split; [|split; [|split; [|split]]]];
    intros; apply frames_sameRecords; try exact Hwf.
  - apply frames_filterCats.
  - apply frames_renderCats.
  - apply frames_renderRecentCats.
  - apply frames_renderPopularCats.
  - apply frames_openCatModal.
  - apply frames_changeModalMedia.
Qed.

(** C9 while browsing the small gallery. *)
Lemma handlers_keep_records_witness :
  wfState browsing /\
  sameRecords browsing (snd (filterCats browsing)) /\
  (forall cats, sameRecords browsing (snd (renderCats cats browsing))) /\
  sameRecords browsing (snd (renderRecentCats (fun _ => Some 0%Z) 0%Z browsing)) /\
  sameRecords browsing (snd (renderPopularCats browsing)) /\
  (forall catId startIndex,
     sameRecords browsing (snd (openCatModal (fun s => s) catId startIndex browsing))) /\
  (forall src thumb isVideo catId imgIndex,
     sameRecords browsing
       (snd (changeModalMedia src thumb isVideo catId imgIndex browsing))).
Proof.
  split.
  - unfold wfState. simpl. constructor.
  - apply (handlers_keep_records browsing (fun _ => Some 0%Z) 0%Z (fun s => s)).
    unfold wfState. simpl. constructor.
Defined.

(** The recent shelf sorts its own array: after [renderRecentCats] the
    store holds the gallery, untouched, and the arrays made on the way. *)
Example renderRecentCats_sorts_a_copy :
  readArray (snd (renderRecentCats (fun _ => Some 0%Z) 0%Z browsing)) 0 = gallery /\
  length (heap (snd (renderRecentCats (fun _ => Some 0%Z) 0%Z browsing))) = 4.
Proof. split; reflexivity. Qed.

(** ** C6: the category index *)

(** *** The sort *)

Lemma sortInsert_perm {A : Type} (cmp : A -> A -> Z) (x : A) (l : list A) :
  Permutation (sortInsert cmp x l) (x :: l).
Proof.
  induction l as [|y l IH]; simpl; [reflexivity|].
  destruct (cmp x y <=? 0)%Z; [reflexivity|].
  rewrite IH. apply perm_swap.
Qed.

Lemma sortBy_perm {A : Type} (cmp : A -> A -> Z) (l : list A) :
  Permutation (sortBy cmp l) l.
Proof.
  induction l as [|x l IH]; simpl; [reflexivity|].
  rewrite sortInsert_perm, IH. reflexivity.
Qed.

(** Inserting into a sorted list keeps it sorted, when on the elements at
    hand (those satisfying [P]) the comparator decides the order [R]. *)
Lemma sortInsert_sorted {A : Type} (cmp : A -> A -> Z) (R : A -> A -> Prop)
    (P : A -> Prop) (x : A) (l : list A) :
  (forall a b, P a -> P b -> (cmp a b <= 0)%Z -> R a b) ->
  (forall a b, P a -> P b -> (0 < cmp a b)%Z -> R b a) ->
  P x -> Forall P l ->
  Sorted R l -> Sorted R (sortInsert cmp x l).
Proof.
  intros Hle Hgt Hx. induction l as [|y l IH]; intros Hl Hs; simpl.
  - repeat constructor.
  - apply Forall_cons in Hl as [Hy Hl].
    destruct (Z.leb_spec (cmp x y) 0) as [Hc|Hc].
    + constructor; [exact Hs|]. constructor. apply Hle; assumption.
    + apply Sorted_inv in Hs as [Hs Hhd].
      constructor; [apply IH; assumption|].
      destruct l as [|z l]; simpl.
      * constructor. apply Hgt; assumption.
      * destruct (cmp x z <=? 0)%Z; constructor.
        -- apply Hgt; assumption.
        -- apply HdRel_inv in Hhd. exact Hhd.
Qed.

Lemma sortBy_sorted {A : Type} (cmp : A -> A -> Z) (R : A -> A -> Prop)
    (P : A -> Prop) (l : list A) :
  (forall a b, P a -> P b -> (cmp a b <= 0)%Z -> R a b) ->
  (forall a b, P a -> P b -> (0 < cmp a b)%Z -> R b a) ->
  Forall P l ->
  Sorted R (sortBy cmp l).
Proof.
  intros Hle Hgt. induction l as [|x l IH]; intros Hl; simpl; [constructor|].
  apply Forall_cons in Hl as [Hx Hl].
  apply (sortInsert_sorted cmp R P); auto.
  eapply Permutation_Forall; [symmetry; apply sortBy_perm | exact Hl].
Qed.

(** *** The counting object *)

Lemma ownGet_ownSet (o : Counts) (k k' : string) (v : CountVal) :
  ownGet (ownSet o k v) k' = if String.eqb k k' then Some v else ownGet o k'.
Proof.
  induction o as [|[k0 v0] o IH]; simpl.
  - reflexivity.
  - destruct (String.eqb_spec k0 k) as [->|Hk0]; simpl.
    + destruct (String.eqb k k'); reflexivity.
    + rewrite IH. destruct (String.eqb_spec k0 k') as [->|Hk0'].
      * destruct (String.eqb_spec k k') as [->|_]; [contradiction | reflexivity].
      * reflexivity.
Qed.

Lemma ownSet_keys (o : Counts) (k : string) (v : CountVal) :
  (In k (List.map fst o) -> List.map fst (ownSet o k v) = List.map fst o) /\
  (~ In k (List.map fst o) ->
   List.map fst (ownSet o k v) = (List.map fst o ++ [k])%list).
Proof.
  induction o as [|[k0 v0] o [IH1 IH2]]; simpl.
  - split; [tauto | reflexivity].
  - destruct (String.eqb_spec k0 k) as [->|Hk0]; simpl.
    + split; [reflexivity | tauto].
    + split.
      * intros [H | H]; [contradiction | rewrite (IH1 H); reflexivity].
      * intros H. rewrite IH2 by tauto. reflexivity.
Qed.

Lemma ownSet_In (o : Counts) (k : string) (v : CountVal) (k' : string) (v' : CountVal) :
  In (k', v') (ownSet o k v) -> (k' = k /\ v' = v) \/ In (k', v') o.
Proof.
  induction o as [|[k0 v0] o IH]; simpl.
  - intros [[= <- <-] | []]. auto.
  - destruct (String.eqb_spec k0 k) as [->|Hk0]; simpl.
    + intros [[= <- <-] | H]; auto.
    + intros [H | H]; [auto|]. apply IH in H. tauto.
Qed.

Lemma ownGet_In (o : Counts) (k : string) (v : CountVal) :
  NoDup (List.map fst o) -> (ownGet o k = Some v <-> In (k, v) o).
Proof.
  induction o as [|[k0 v0] o IH]; simpl; intros Hnd.
  - split; [discriminate | tauto].
  - apply NoDup_cons in Hnd as [Hk0 Hnd].
    destruct (String.eqb_spec k0 k) as [->|Hne].
    + split.
      * intros [= ->]. auto.
      * intros [[= ->] | Hin]; [reflexivity|].
        exfalso. apply Hk0. apply list_elem_of_In.
        apply (in_map fst) in Hin. exact Hin.
    + rewrite (IH Hnd). split; [auto|]. intros [[= -> ->] | H]; [contradiction | exact H].
Qed.

Lemma plainName_not_proto (c : string) : plainName c -> c <> "__proto__".
Proof. intros H ->. discriminate H. Qed.

(** On a plain name, counting is the increment of a map. *)
Lemma countCategory_plain (o : Counts) (c : string) :
  plainName c -> tallies o ->
  countCategory o c = ownSet o c (CNum (tallyOf o c + 1)).
Proof.
  intros Hc [Hnd Hnum]. unfold countCategory, propSet, propGet, tallyOf.
  destruct (String.eqb_spec c "__proto__") as [E|_];
    [exfalso; exact (plainName_not_proto c Hc E)|].
  destruct (ownGet o c) as [v|] eqn:Eg.
  - apply ownGet_In in Eg; [|exact Hnd].
    destruct (Hnum _ _ Eg) as [n [-> _]]. reflexivity.
  - unfold plainName in Hc. rewrite Hc. reflexivity.
Qed.

Lemma tallies_ownSet (o : Counts) (k : string) (n : nat) :
  tallies o -> 0 < n -> tallies (ownSet o k (CNum n)).
Proof.
  intros [Hnd Hnum] Hn. split.
  - destruct (ownSet_keys o k (CNum n)) as [Hin Hout].
    destruct (in_dec string_dec k (List.map fst o)) as [E|E].
    + rewrite (Hin E). exact Hnd.
    + rewrite (Hout E).
      apply NoDup_app. split; [exact Hnd|]. split.
      * intros x Hx Hk. apply list_elem_of_In in Hx.
        apply list_elem_of_In in Hk. destruct Hk as [<- | []]. exact (E Hx).
      * apply NoDup_singleton.
  - intros k' v' Hin. apply ownSet_In in Hin as [[_ ->] | Hin]; [eauto|].
    exact (Hnum _ _ Hin).
Qed.

Lemma tallyOf_ownSet (o : Counts) (k c : string) (n : nat) :
  tallyOf (ownSet o k (CNum n)) c = if String.eqb k c then n else tallyOf o c.
Proof.
  unfold tallyOf. rewrite ownGet_ownSet. destruct (String.eqb k c); reflexivity.
Qed.

(** Counting a list of plain names adds, name by name, its number of
    occurrences. *)
Lemma countCategory_fold (names : list string) (o : Counts) :
  Forall plainName names -> tallies o ->
  tallies (fold_left countCategory names o) /\
  forall c, tallyOf (fold_left countCategory names o) c
            = tallyOf o c + count_occ string_dec names c.
Proof.
  revert o. induction names as [|x names IH]; intros o Hplain Ho.
  - simpl. split; [exact Ho | intros; lia].
  - apply Forall_cons in Hplain as [Hx Hplain]. cbn [fold_left].
    rewrite (countCategory_plain o x Hx Ho).
    assert (Ho' : tallies (ownSet o x (CNum (tallyOf o x + 1)))).
    { apply tallies_ownSet; [exact Ho | lia]. }
    destruct (IH _ Hplain Ho') as [Ht Hc]. split; [exact Ht|].
    intros c. rewrite Hc, tallyOf_ownSet.
    cbn [count_occ]. destruct (string_dec x c) as [->|Hne].
    + rewrite String.eqb_refl. lia.
    + apply String.eqb_neq in Hne. rewrite Hne. lia.
Qed.

Lemma countAll_fold (o : Counts) (cats : option (list string)) :
  countAll o cats = fold_left countCategory (default [] cats) o.
Proof. destruct cats; reflexivity. Qed.

Lemma countCat_fold (o : Counts) (cat : Cat.t) :
  countCat o cat = fold_left countCategory (categoryNames cat) o.
Proof.
  unfold countCat, categoryNames. rewrite fold_left_app, countAll_fold.
  generalize (fold_left countCategory (default [] (Cat.categories cat)) o).
  destruct (Cat.image_data cat) as [imgs|]; [|reflexivity]. simpl.
  induction imgs as [|img imgs IH]; intros o1; simpl; [reflexivity|].
  rewrite fold_left_app, IH, countAll_fold. reflexivity.
Qed.

Lemma countCats_fold (cats : list Cat.t) (o : Counts) :
  fold_left countCat cats o = fold_left countCategory (allCategoryNames cats) o.
Proof.
  revert o. induction cats as [|cat cats IH]; intros o; simpl; [reflexivity|].
  rewrite fold_left_app, IH, countCat_fold. reflexivity.
Qed.

(** *** The entries *)

Lemma filter_split_perm {A : Type} (p : A -> bool) (l : list A) :
  Permutation (List.filter p l ++ List.filter (fun x => negb (p x)) l) l.
Proof.
  induction l as [|x l IH]; simpl; [reflexivity|].
  destruct (p x); simpl.
  - rewrite IH. reflexivity.
  - rewrite <- Permutation_middle, IH. reflexivity.
Qed.

(** [Object.entries] lists every own property once. *)
Lemma objectEntries_perm (o : Counts) : Permutation (objectEntries o) o.
Proof.
  unfold objectEntries.
  set (isIndex := fun kv : string * CountVal => bool_decide (is_Some (arrayIndex (fst kv)))).
  etransitivity; [|apply (filter_split_perm isIndex o)].
  apply Permutation_app; [|reflexivity].
  rewrite (Permutation_map snd (sortBy_perm _ _)).
  induction o as [|kv o IH]; simpl; [reflexivity|].
  unfold isIndex at 1. destruct (arrayIndex (fst kv)) as [n|]; simpl.
  - apply perm_skip, IH.
  - exact IH.
Qed.

(** *** The index *)

Lemma tallies_nil : tallies [].
Proof. split; [constructor | intros ? ? []]. Qed.

(** The category index on plain names.  When no category tag of the list
    is the name of a member of [Object.prototype], the index has one entry
    per distinct tag, each entry counts the occurrences of its tag among the
    record-level and the image-level tags together, and the entries come in
    non-increasing order of count. *)
Lemma categoryIndex_plain (cats : list Cat.t) :
  Forall plainName (allCategoryNames cats) ->
  NoDup (List.map name (categoryIndex cats)) /\
  (forall c, In c (List.map name (categoryIndex cats)) <-> In c (allCategoryNames cats)) /\
  (forall e, In e (categoryIndex cats) ->
     count e = CNum (count_occ string_dec (allCategoryNames cats) (name e))) /\
  StronglySorted (fun a b => entryNum b <= entryNum a) (categoryIndex cats).
Proof.
  intros Hplain. unfold categoryIndex. rewrite countCats_fold.
  destruct (countCategory_fold _ [] Hplain tallies_nil) as [[Hnd Hnum] Hocc].
  set (o := fold_left countCategory (allCategoryNames cats) []) in *.
  set (entries := List.map (fun kv => mkEntry (fst kv) (snd kv)) (objectEntries o)).
  assert (Hperm : Permutation (sortBy byCountDesc entries)
                    (List.map (fun kv => mkEntry (fst kv) (snd kv)) o)).
  { rewrite sortBy_perm. apply Permutation_map, objectEntries_perm. }
  assert (Hnames : Permutation (List.map name (sortBy byCountDesc entries))
                     (List.map fst o)).
  { rewrite (Permutation_map name Hperm), map_map. simpl. reflexivity. }
  assert (Hentry : forall e, In e (sortBy byCountDesc entries) ->
                     In (name e, count e) o).
  { intros e He. apply (Permutation_in _ Hperm) in He.
    apply in_map_iff in He as [[k v] [<- Hin]]. exact Hin. }
  assert (Hcount : forall e, In e (sortBy byCountDesc entries) ->
            count e = CNum (count_occ string_dec (allCategoryNames cats) (name e))).
  { intros e He. apply Hentry in He.
    destruct (Hnum _ _ He) as [n [Hn _]].
    apply ownGet_In in He; [|exact Hnd].
    specialize (Hocc (name e)). unfold tallyOf in Hocc at 1.
    rewrite He, Hn in Hocc. simpl in Hocc. rewrite Hn, Hocc. reflexivity. }
  split; [|split; [|split]].
  - rewrite Hnames. exact Hnd.
  - intros c. split.
    + intros Hin. apply (count_occ_In string_dec).
      apply in_map_iff in Hin as [e [<- He]].
      pose proof (Hcount e He) as Hc. apply Hentry in He.
      destruct (Hnum _ _ He) as [n [Hn Hpos]]. rewrite Hn in Hc.
      injection Hc as <-. exact Hpos.
    + intros Hpos. apply (count_occ_In string_dec) in Hpos.
      apply (Permutation_in _ (Permutation_sym Hnames)).
      specialize (Hocc c). unfold tallyOf in Hocc at 1.
      destruct (ownGet o c) as [v|] eqn:Eg.
      * apply ownGet_In in Eg; [|exact Hnd].
        apply (in_map fst) in Eg. exact Eg.
      * simpl in Hocc. lia.
  - exact Hcount.
  - apply Sorted_StronglySorted.
    + intros a b c Hab Hbc. lia.
    + apply (sortBy_sorted byCountDesc _
               (fun e => exists n, count e = CNum n)).
      * intros a b [na Ha] [nb Hb]. unfold byCountDesc, entryNum.
        rewrite Ha, Hb. lia.
      * intros a b [na Ha] [nb Hb]. unfold byCountDesc, entryNum.
        rewrite Ha, Hb. lia.
      * apply Forall_forall. intros e He.
        apply list_elem_of_In in He.
        assert (He' : In e (sortBy byCountDesc entries)).
        { apply (Permutation_in _ (Permutation_sym (sortBy_perm _ _))), He. }
        rewrite (Hcount e He'). eauto.
Qed.

(** C6 fails on a category called "__proto__": reading it finds the
    inherited accessor, and the assignment goes to the inherited setter,
    which ignores a string; the tag has no entry in the index although it
    occurs once, and the panel reports that there are no categories. *)
Theorem categoryIndex_proto_tag :
  allCategoryNames [proto] = ["__proto__"] /\
  categoryIndex [proto] = [] /\
  categoryFilters
    (snd (loadCategories
            (mkState [[proto]] 0 [] [] "batch" "" "" RStatic RStatic RStatic RStatic
               "" "" None false "" [false] (mkSwipe 0 0 false) 1000)))
    = RMessage "no-data" "No categories available".
Proof. repeat split; reflexivity. Qed.

(** Tom and Misty carry "orange" three times and "sleepy" twice, at record
    and at image level together. *)
Example categoryIndex_gallery :
  categoryIndex gallery
    = [mkEntry "orange" (CNum 3); mkEntry "sleepy" (CNum 2);
       mkEntry "tabby" (CNum 1); mkEntry "indoor" (CNum 1)].
Proof. reflexivity. Qed.

(** Three images tagged "X" on a record that is not tagged itself count
    three times. *)
Example categoryIndex_three_images :
  categoryIndex
    [Cat.mk "c8" None None
       (Some [Media.mk "https://x/a.jpg" "image" None None (Some ["X"]);
              Media.mk "https://x/b.jpg" "image" None None (Some ["X"]);
              Media.mk "https://x/c.jpg" "image" None None (Some ["X"])])
       None None false None]
    = [mkEntry "X" (CNum 3)].
Proof. reflexivity. Qed.

(** ** The other ways out of the modal *)

(** A swipe to the left, however long, leaves the modal open. *)
Example swipeGesture_leftward_stays_open :
  catModal_active
    (snd (swipeGesture (mkTouch 900 300) (mkTouch 100 300) openedState)) = true.
Proof. reflexivity. Qed.

(** Escape, the back button and a click on the backdrop close the opened
    modal and leave the history entry that opening it had pushed; a click
    inside the content does not close it. *)
Example closing_the_opened_modal :
  history openedState = [true; false] /\
  catModal_active (snd (onKeyDown "Escape" openedState)) = false /\
  history (snd (onKeyDown "Escape" openedState)) = [false] /\
  catModal_active (snd (onPopState openedState)) = false /\
  catModal_active (snd (closeModal (Some true) openedState)) = false /\
  closeModal (Some false) openedState = (Ok tt, openedState).
Proof. repeat split; reflexivity. Qed.

(** Closing a closed modal does nothing. *)
Lemma closeModal_closed (st : State) (event : option bool) :
  catModal_active st = false -> closeModal event st = (Ok tt, st).
Proof.
  intros H. unfold closeModal, bind, get, ret. rewrite H.
  destruct event as [[]|]; reflexivity.
Qed.

(** The category search box: "og" keeps "Dog" and "Frog". *)
Example onCategorySearchInput_og :
  categoryFilters
    (snd (onCategorySearchInput "OG "
            (set_allCategoriesWithCounts
               [mkEntry "Dog" (CNum 2); mkEntry "Cat" (CNum 1); mkEntry "Frog" (CNum 1)]
               (initialState 1000))))
    = RCheckboxes
        [mkCheckbox (mkAttr "dog" None) (mkAttr "Dog" None) false "2";
         mkCheckbox (mkAttr "frog" None) (mkAttr "Frog" None) false "1"].
Proof. reflexivity. Qed.

(** ** Loading *)

(** A rejected fetch leaves an error message in each region; a record that
    cannot be drawn makes [renderCats] throw inside the [try] block and ends
    in the same messages. *)
Example loadCats_failures :
  catsGrid (snd (loadCats (fun _ => None) 0%Z (Throw (TypeError "Failed to fetch"))
                   (initialState 1000)))
    = RMarkup "error" "Failed to load cats: Failed to fetch" /\
  catsGrid (snd (loadCats (fun _ => None) 0%Z (Ok [blank]) (initialState 1000)))
    = RMarkup "error" "Failed to load cats: url.toLowerCase is not a function".
Proof. split; reflexivity. Qed.

(** After a successful fetch [allCats] names an array holding the fetched
    rows, whether or not the rendering that follows throws. *)
Lemma loadCats_rows (dateValue : string -> option Z) (oneWeekAgo : Z)
    (rows : list Cat.t) (st : State) :
  readArray (snd (loadCats dateValue oneWeekAgo (Ok rows) st))
    (allCats (snd (loadCats dateValue oneWeekAgo (Ok rows) st))) = rows.
Proof.
  set (st1 := set_popularCats (RMessage "loading" "Loading...")
                (set_recentCats (RMessage "loading" "Loading...")
                   (set_catsGrid (RMessage "loading" "🐱 Loading cats...") st))).
  set (l := length (heap st1)).
  set (st2 := set_allCats l (snd (allocArray rows st1))).
  set (rest := (renderRecentCats dateValue oneWeekAgo ;;;
                renderPopularCats ;;; renderCats l)%handler).
  set (handler := fun err : exn =>
         (modify (set_catsGrid
                    (RMarkup "error" ("Failed to load cats: " +:+ message err))) ;;;
          modify (set_recentCats (RMessage "error" "Failed to load")) ;;;
          modify (set_popularCats (RMessage "error" "Failed to load")))%handler).
  assert (Hrun : loadCats dateValue oneWeekAgo (Ok rows) st
                 = tryCatch rest handler st2) by reflexivity.
  rewrite Hrun.
  assert (Hrows : readArray st2 (allCats st2) = rows).
  { unfold st2, readArray, allocArray. simpl.
    rewrite list_lookup_middle by reflexivity. reflexivity. }
  assert (Hwf : wfState st2).
  { unfold wfState, st2, allocArray, l. simpl. rewrite length_app. simpl. lia. }
  assert (Hframes : frames st2 (tryCatch rest handler) (fun _ => True)).
  { apply frames_tryCatch.
    - unfold rest.
      eapply frames_bind; [apply frames_renderRecentCats | intros _ _].
      eapply frames_bind; [apply frames_renderPopularCats | intros _ _].
      apply frames_renderCats.
    - intros e. unfold handler. repeat frames_step. }
  destruct (frames_sameRecords _ st2 Hwf Hframes) as [_ Hsame].
  rewrite Hsame. exact Hrows.
Qed.

(** * Further properties *)

(** ** Escaped text in a double-quoted attribute *)










(** ** What a handler leaves alone *)

Section Leaves.

Context {B : Type} (proj : State -> B).

Lemma leaves_ret {A : Type} (a : A) : leaves proj (ret a).
Proof. intros st. reflexivity. Qed.

Lemma leaves_throw {A : Type} (e : exn) : leaves proj (@throw A e).
Proof. intros st. reflexivity. Qed.

Lemma leaves_lift {A : Type} (r : result A) : leaves proj (lift r).
Proof. intros st. reflexivity. Qed.

Lemma leaves_get : leaves proj get.
Proof. intros st. reflexivity. Qed.

Lemma leaves_modify (f : State -> State) :
  (forall st, proj (f st) = proj st) -> leaves proj (modify f).
Proof. intros Hf st. apply Hf. Qed.

Lemma leaves_bind {A C : Type} (m : M A) (k : A -> M C) :
  leaves proj m -> (forall a, leaves proj (k a)) -> leaves proj (bind m k).
Proof.
  intros Hm Hk st. unfold bind. specialize (Hm st).
  destruct (m st) as [[a|e] st']; simpl in *.
  - rewrite (Hk a st'). exact Hm.
  - exact Hm.
Qed.

Lemma leaves_tryCatch {A : Type} (body : M A) (handler : exn -> M A) :
  leaves proj body -> (forall e, leaves proj (handler e)) ->
  leaves proj (tryCatch body handler).
Proof.
  intros Hb Hh st. unfold tryCatch. specialize (Hb st).
  destruct (body st) as [[a|e] st']; simpl in *.
  - exact Hb.
  - rewrite (Hh e st'). exact Hb.
Qed.

(** Allocation and in-place sort write the store only. *)
Hypothesis proj_heap : forall h st, proj (set_heap h st) = proj st.

Lemma leaves_arrayFilter (p : Cat.t -> bool) (l : nat) : leaves proj (arrayFilter p l).
Proof. intros st. apply proj_heap. Qed.

Lemma leaves_arraySpread (l : nat) : leaves proj (arraySpread l).
Proof. intros st. apply proj_heap. Qed.

Lemma leaves_arraySlice0 (n l : nat) : leaves proj (arraySlice0 n l).
Proof. intros st. apply proj_heap. Qed.

Lemma leaves_arraySort (cmp : Cat.t -> Cat.t -> Z) (l : nat) :
  leaves proj (arraySort cmp l).
Proof. intros st. apply proj_heap. Qed.

End Leaves.

(** One step through a handler that leaves a component alone. *)
Ltac leaves_step :=
  match goal with
  | |- leaves _ (bind _ _) => apply leaves_bind; [| intros ?]
  | |- leaves _ (modify _) => apply leaves_modify; intros ?; reflexivity
  | |- leaves _ (ret _) => apply leaves_ret
  | |- leaves _ (throw _) => apply leaves_throw
  | |- leaves _ (lift _) => apply leaves_lift
  | |- leaves _ get => apply leaves_get
  | |- leaves _ (arrayFilter _ _) => apply leaves_arrayFilter; intros; reflexivity
  | |- leaves _ (arraySpread _) => apply leaves_arraySpread; intros; reflexivity
  | |- leaves _ (arraySlice0 _ _) => apply leaves_arraySlice0; intros; reflexivity
  | |- leaves _ (arraySort _ _) => apply leaves_arraySort; intros; reflexivity
  | |- leaves _ (if ?b then _ else _) => destruct b
  | |- leaves _ (match ?x with _ => _ end) => destruct x
  end.

Lemma renderCats_leaves_selection (cats : nat) :
  leaves selectedCategories (renderCats cats).
Proof. unfold renderCats. repeat leaves_step. Qed.

Lemma filterCats_leaves_selection : leaves selectedCategories filterCats.
Proof.
  unfold filterCats, filterCats_filtered. repeat leaves_step.
  apply renderCats_leaves_selection.
Qed.

(** ** The filter engine *)

Lemma filter_sublist {A : Type} (p : A -> bool) (l : list A) :
  sublist (List.filter p l) l.
Proof.
  induction l as [|x l IH]; simpl; [constructor|].
  destruct (p x); [apply sublist_skip | apply sublist_cons]; exact IH.
Qed.

Lemma filter_sublist_filter {A : Type} (p q : A -> bool) (l : list A) :
  (forall x, In x l -> p x = true -> q x = true) ->
  sublist (List.filter p l) (List.filter q l).
Proof.
  induction l as [|x l IH]; intros H; simpl; [constructor|].
  assert (IH' : sublist (List.filter p l) (List.filter q l)).
  { apply IH. intros y Hy. apply H. right. exact Hy. }
  destruct (p x) eqn:Hp.
  - rewrite (H x (or_introl eq_refl) Hp). apply sublist_skip, IH'.
  - destruct (q x); [apply sublist_cons|]; exact IH'.
Qed.

Lemma filter_filter_and {A : Type} (p q : A -> bool) (l : list A) :
  List.filter q (List.filter p l) = List.filter (fun x => p x && q x) l.
Proof.
  induction l as [|x l IH]; simpl; [reflexivity|].
  destruct (p x); simpl; [destruct (q x)|]; rewrite IH; reflexivity.
Qed.

Lemma arrayFilter_run (p : Cat.t -> bool) (l : nat) (st : State) :
  exists st',
    arrayFilter p l st = (Ok (length (heap st)), st') /\
    readArray st' (length (heap st)) = List.filter p (readArray st l).
Proof.
  unfold arrayFilter, allocArray. eexists. split; [reflexivity|].
  unfold readArray. simpl. rewrite list_lookup_middle by reflexivity. reflexivity.
Qed.

(** The two stages amount to one pass with [activeFilter]. *)
Lemma filteredRecords_filter (st : State) :
  (exists filtered st', filterCats_filtered st = (Ok filtered, st')) /\
  filteredRecords st = List.filter (activeFilter st) (readArray st (allCats st)).
Proof.
  unfold filteredRecords, activeFilter, searchTermOf.
  unfold filterCats_filtered, bind, get, ret.
  set (term := trim (toLowerCase (searchInput st))).
  set (all := readArray st (allCats st)).
  assert (Hid : forall l : list Cat.t, List.filter (fun _ => true) l = l).
  { induction l as [|x l IH]; simpl; [|rewrite IH]; reflexivity. }
  destruct (0 <? length (selectedCategories st)); cbn [negb orb].
  - destruct (arrayFilter_run (categoryMatch (selectedCategories st)) (allCats st) st)
      as [st1 [E1 R1]].
    rewrite E1. fold all in R1.
    destruct (truthy term); cbn [negb orb].
    + destruct (arrayFilter_run (searchMatch term) (length (heap st)) st1)
        as [st2 [E2 R2]].
      rewrite E2. split; [eauto|]. rewrite R2, R1. apply filter_filter_and.
    + split; [eauto|]. rewrite R1. apply filter_ext. intros a.
      rewrite andb_true_r. reflexivity.
  - destruct (truthy term); cbn [negb orb].
    + destruct (arrayFilter_run (searchMatch term) (allCats st) st) as [st1 [E1 R1]].
      rewrite E1. split; [eauto|]. rewrite R1. reflexivity.
    + split; [eauto|]. fold all. symmetry. apply Hid.
Qed.

Lemma searchMatch_textMatches (term : string) (cat : Cat.t) :
  searchMatch term cat = true <-> textMatches term cat.
Proof.
  unfold searchMatch, textMatches, lowerContains.
  rewrite !orb_true_iff, !includes_app.
  assert (Himg :
    match Cat.image_data cat with
    | Some imgs =>
        existsb (fun img =>
          includes (toLowerCase (orElse (Media.title img) "")) term ||
          includes (toLowerCase (orElse (Media.description img) "")) term) imgs
    | None => false
    end = true <->
    exists imgs img,
      Cat.image_data cat = Some imgs /\ In img imgs /\
      ((exists pre post,
          toLowerCase (orElse (Media.title img) "") = pre +:+ term +:+ post) \/
       (exists pre post,
          toLowerCase (orElse (Media.description img) "") = pre +:+ term +:+ post))).
  { destruct (Cat.image_data cat) as [imgs|].
    - rewrite existsb_exists. split.
      + intros [img [Hin H]]. apply orb_true_iff in H.
        rewrite !includes_app in H. exists imgs, img. auto.
      + intros [imgs' [img [[= <-] [Hin H]]]]. exists img. split; [exact Hin|].
        apply orb_true_iff. rewrite !includes_app. exact H.
    - split; [discriminate|]. intros [imgs [img [H _]]]. discriminate. }
  rewrite Himg. tauto.
Qed.

Lemma activeFilter_passesFilters (st : State) (cat : Cat.t) :
  activeFilter st cat = true <-> passesFilters st cat.
Proof.
  unfold activeFilter, passesFilters.
  rewrite andb_true_iff, !orb_true_iff, categoryMatch_holdsAll, searchMatch_textMatches.
  assert (Hsel : negb (0 <? length (selectedCategories st)) = true
                 <-> selectedCategories st = []).
  { destruct (selectedCategories st); simpl; split; congruence. }
  assert (Hterm : negb (truthy (searchTermOf st)) = true
                  <-> searchTermOf st = EmptyString).
  { destruct (searchTermOf st); simpl; split; congruence. }
  rewrite Hsel, Hterm. tauto.
Qed.

(** The filter engine is exact.  [filterCats] always reaches [renderCats];
    the records it hands over are records of [allCats] in their original
    order, none twice that was there once; and a record of [allCats] is among
    them exactly when it holds every selected category (or none is selected)
    and its texts contain the search term (or the term is empty). *)
Theorem filterCats_exact (st : State) :
  (exists filtered st',
     filterCats_filtered st = (Ok filtered, st') /\
     filterCats st = renderCats filtered st' /\
     readArray st' filtered = filteredRecords st) /\
  sublist (filteredRecords st) (readArray st (allCats st)) /\
  (forall cat, In cat (filteredRecords st) <->
     In cat (readArray st (allCats st)) /\ passesFilters st cat).
Proof.
  destruct (filteredRecords_filter st) as [[filtered [st' Hrun]] Hf].
  split; [|split].
  - exists filtered, st'. split; [exact Hrun|]. split.
    + unfold filterCats, bind. rewrite Hrun. reflexivity.
    + unfold filteredRecords. rewrite Hrun. reflexivity.
  - rewrite Hf. apply filter_sublist.
  - intros cat. rewrite Hf, filter_In, activeFilter_passesFilters. reflexivity.
Qed.

(** ** The selected categories *)

Lemma handleCategoryChange_run (c : string) (checked : bool) (st : State) :
  handleCategoryChange c checked st
    = filterCats
        (withSelection
           (if checked then setAdd c (selectedCategories st)
            else setDelete c (selectedCategories st)) st).
Proof. reflexivity. Qed.

Lemma selectionAfter_eq (c : string) (checked : bool) (st : State) :
  selectionAfter c checked st
    = if checked then setAdd c (selectedCategories st)
      else setDelete c (selectedCategories st).
Proof.
  unfold selectionAfter. rewrite handleCategoryChange_run.
  rewrite filterCats_leaves_selection. reflexivity.
Qed.

Lemma setAdd_In (c d : string) (s : list string) :
  In d (setAdd c s) <-> d = c \/ In d s.
Proof.
  unfold setAdd. destruct (arrayIncludes s c) eqn:E.
  - apply arrayIncludes_In in E. split; [auto|]. intros [-> | H]; assumption.
  - rewrite in_app_iff. simpl. split; [intros [H | [<- | []]]; auto|].
    intros [-> | H]; auto.
Qed.

Lemma setDelete_In (c d : string) (s : list string) :
  In d (setDelete c s) <-> d <> c /\ In d s.
Proof.
  unfold setDelete. rewrite filter_In, negb_true_iff, String.eqb_neq. tauto.
Qed.

(** Toggling a category's checkbox updates the selection as a set, whether
    or not the rendering that follows throws: the category is selected
    exactly when the box is checked, no other category is touched, and a
    selection without duplicates stays without duplicates. *)
Theorem handleCategoryChange_selection (st : State) (c : string) (checked : bool) :
  (In c (selectionAfter c checked st) <-> checked = true) /\
  (forall d, d <> c ->
     (In d (selectionAfter c checked st) <-> In d (selectedCategories st))) /\
  (NoDup (selectedCategories st) -> NoDup (selectionAfter c checked st)).
Proof.
  rewrite selectionAfter_eq. destruct checked.
  - split; [|split].
    + rewrite setAdd_In. split; [reflexivity | auto].
    + intros d Hd. rewrite setAdd_In. tauto.
    + intros Hnd. unfold setAdd. destruct (arrayIncludes _ c) eqn:E; [exact Hnd|].
      apply NoDup_app. split; [exact Hnd|]. split; [|apply NoDup_singleton].
      intros x Hx Hc. apply list_elem_of_In in Hx. apply list_elem_of_In in Hc.
      destruct Hc as [<- | []].
      apply arrayIncludes_In in Hx. congruence.
  - split; [|split].
    + rewrite setDelete_In. split; [intros [H _]; congruence | discriminate].
    + intros d Hd. rewrite setDelete_In. tauto.
    + intros Hnd. unfold setDelete.
      exact (sublist_NoDup _ _ Hnd (filter_sublist _ _)).
Qed.

(** Checking a category that was not selected and unchecking it again
    restores the selection, order included. *)
Theorem check_uncheck_restores (st : State) (c : string) :
  ~ In c (selectedCategories st) ->
  selectionAfter c false (snd (handleCategoryChange c true st))
    = selectedCategories st.
Proof.
  intros Hc. rewrite selectionAfter_eq.
  change (selectedCategories (snd (handleCategoryChange c true st)))
    with (selectionAfter c true st).
  rewrite selectionAfter_eq. unfold setAdd.
  destruct (arrayIncludes (selectedCategories st) c) eqn:E.
  - apply arrayIncludes_In in E. contradiction.
  - unfold setDelete. rewrite List.filter_app. simpl.
    rewrite String.eqb_refl. simpl. rewrite app_nil_r.
    induction (selectedCategories st) as [|d s IH]; simpl; [reflexivity|].
    destruct (String.eqb_spec d c) as [->|Hd]; simpl.
    + exfalso. apply Hc. left. reflexivity.
    + f_equal. apply IH.
      * intros H. apply Hc. right. exact H.
      * unfold arrayIncludes in E |- *. simpl in E.
        apply orb_false_iff in E as [_ E]. exact E.
Qed.

(** Checking "tabby" on the small gallery and unchecking it again. *)
Lemma check_uncheck_restores_witness :
  selectionAfter "tabby" false
    (snd (handleCategoryChange "tabby" true (galleryState "batch" ["orange"] "")))
    = ["orange"].
Proof.
  apply (check_uncheck_restores (galleryState "batch" ["orange"] "") "tabby").
  intros [H | []]. discriminate H.
Defined.

Lemma holdsAll_subset (s s' cs : list string) :
  (forall c, In c s -> In c s') -> holdsAll s' cs -> holdsAll s cs.
Proof. unfold holdsAll. auto. Qed.

Lemma activeFilter_narrower (st : State) (s s' : list string) (cat : Cat.t) :
  (forall c, In c s -> In c s') ->
  activeFilter (withSelection s' st) cat = true ->
  activeFilter (withSelection s st) cat = true.
Proof.
  intros Hsub. rewrite !activeFilter_passesFilters. unfold passesFilters.
  change (searchTermOf (withSelection s' st)) with (searchTermOf st).
  change (searchTermOf (withSelection s st)) with (searchTermOf st).
  change (selectedCategories (withSelection s' st)) with s'.
  change (selectedCategories (withSelection s st)) with s.
  intros [Hcat Htext]. split; [|exact Htext].
  destruct s as [|c0 s]; [left; reflexivity | right].
  destruct Hcat as [-> | [[cs [Hcs H]] | [imgs [img [cs [Hi [Hin [Hcs H]]]]]]]].
  - exfalso. exact (Hsub c0 (or_introl eq_refl)).
  - left. exists cs. split; [exact Hcs|]. eapply holdsAll_subset; eassumption.
  - right. exists imgs, img, cs. repeat split; try assumption.
    eapply holdsAll_subset; eassumption.
Qed.

(** Category filters only narrow.  The records shown after one more
    category is checked are among those shown before, in the same order; the
    records shown before a category is unchecked are among those shown
    after. *)
Theorem category_filters_narrow (st : State) (c : string) :
  sublist (filteredRecords (withSelection (setAdd c (selectedCategories st)) st))
          (filteredRecords st) /\
  sublist (filteredRecords st)
          (filteredRecords (withSelection (setDelete c (selectedCategories st)) st)).
Proof.
  rewrite !(proj2 (filteredRecords_filter _)).
  change (readArray (withSelection _ st) (allCats (withSelection _ st)))
    with (readArray st (allCats st)).
  assert (Hst : forall cat, activeFilter st cat
                            = activeFilter (withSelection (selectedCategories st) st) cat)
    by reflexivity.
  split; apply filter_sublist_filter; intros cat _.
  - rewrite Hst. apply activeFilter_narrower.
    intros d Hd. apply setAdd_In. auto.
  - rewrite Hst. apply activeFilter_narrower.
    intros d Hd. apply setDelete_In in Hd. tauto.
Qed.

(** ** Cards *)

Lemma substring0_short (n : nat) (s : string) :
  String.length s <= n -> substring0 n s = s.
Proof.
  revert n. induction s as [|c s IH]; intros [|n] H; simpl in *;
    try reflexivity; try lia.
  rewrite IH by lia. reflexivity.
Qed.

Lemma substring0_long (n : nat) (s : string) :
  n < String.length s ->
  exists tail, s = substring0 n s +:+ tail /\
               String.length (substring0 n s) = n /\ tail <> EmptyString.
Proof.
  revert n. induction s as [|c s IH]; intros [|n] H; simpl in *; try lia.
  - exists (String c s). repeat split. discriminate.
  - destruct (IH n) as [tail [Hs [Hlen Ht]]]; [lia|].
    exists tail. repeat split; [|lia|exact Ht].
    change (String c s = String c (substring0 n s +:+ tail)). rewrite <- Hs. reflexivity.
Qed.

(** The text a card shows for a description, cut at [n] characters. *)
Lemma truncated_cases (n : nat) (d : string) :
  (String.length d <= n -> truncated n d = d) /\
  (n < String.length d ->
     exists head tail,
       d = head +:+ tail /\ String.length head = n /\ tail <> EmptyString /\
       truncated n d = head +:+ "...").
Proof.
  unfold truncated. split; intros H.
  - rewrite substring0_short by exact H.
    destruct (Nat.ltb_spec n (String.length d)); [lia|].
    induction d as [|c d IH]; [reflexivity|].
    change (String c (d +:+ EmptyString) = String c d). f_equal.
    clear. induction d as [|c d IH]; [reflexivity|].
    change (String c (d +:+ EmptyString) = String c d). rewrite IH. reflexivity.
  - destruct (substring0_long n d H) as [tail [Hd [Hlen Ht]]].
    exists (substring0 n d), tail. repeat split; try assumption.
    destruct (Nat.ltb_spec n (String.length d)); [reflexivity | lia].
Qed.

Lemma renderCatCard_fields (compact : bool) (cat : Cat.t) (card : Card) :
  renderCatCard compact cat = Ok card ->
  card_description card
    = (if truthy (orElse (Cat.description cat) "")
       then Some (truncated 80 (orElse (Cat.description cat) "")) else None) /\
  card_categories card = categoryChips cat /\
  card_id card = Cat.id cat /\ card_img card = None /\
  card_compact card = compact /\ card_individual card = false.
Proof.
  unfold renderCatCard.
  destruct (mediaIsVideo _) as [b|e]; simpl; [|discriminate].
  intros [= <-]. repeat split.
Qed.

Lemma renderIndividualCard_fields (cat : Cat.t) (img : Media.t) (i : nat)
    (card : Card) :
  renderIndividualCard cat img i = Ok card ->
  card_description card
    = (if truthy (orElse (Media.description img) (orElse (Cat.description cat) ""))
       then Some (truncated 60
                    (orElse (Media.description img) (orElse (Cat.description cat) "")))
       else None) /\
  card_title card
    = (if truthy (orElse (Media.title img) (orElse (Cat.title cat) ""))
       then Some (orElse (Media.title img) (orElse (Cat.title cat) "")) else None) /\
  card_categories card = categoryChips cat /\
  card_id card = Cat.id cat /\ card_img card = Some i /\
  card_badge card = None /\ card_individual card = true /\
  shows (card_media card) img.
Proof.
  unfold renderIndividualCard.
  destruct (mediaIsVideo _) as [b|e]; simpl; [|discriminate].
  intros [= <-]. repeat split. destruct b; reflexivity.
Qed.

(** The description on a card.  A gallery card shows the record's
    description, an individual card the item's description or else the
    record's; an empty description gives no paragraph; a description of at
    most 80 (gallery) or 60 (individual) characters is shown whole; a longer
    one is cut after that many characters and followed by "...". *)
Theorem card_description_budget (cat : Cat.t) :
  (forall compact card, renderCatCard compact cat = Ok card ->
     (orElse (Cat.description cat) "" = EmptyString -> card_description card = None) /\
     (orElse (Cat.description cat) "" <> EmptyString ->
      String.length (orElse (Cat.description cat) "") <= 80 ->
      card_description card = Some (orElse (Cat.description cat) "")) /\
     (80 < String.length (orElse (Cat.description cat) "") ->
      exists head tail,
        orElse (Cat.description cat) "" = head +:+ tail /\
        String.length head = 80 /\ tail <> EmptyString /\
        card_description card = Some (head +:+ "..."))) /\
  (forall img i card, renderIndividualCard cat img i = Ok card ->
     (orElse (Media.description img) (orElse (Cat.description cat) "") = EmptyString ->
      card_description card = None) /\
     (orElse (Media.description img) (orElse (Cat.description cat) "") <> EmptyString ->
      String.length (orElse (Media.description img) (orElse (Cat.description cat) ""))
        <= 60 ->
      card_description card
        = Some (orElse (Media.description img) (orElse (Cat.description cat) ""))) /\
     (60 < String.length
             (orElse (Media.description img) (orElse (Cat.description cat) "")) ->
      exists head tail,
        orElse (Media.description img) (orElse (Cat.description cat) "")
          = head +:+ tail /\
        String.length head = 60 /\ tail <> EmptyString /\
        card_description card = Some (head +:+ "..."))).
Proof.
  assert (Hgen : forall n d (o : option string),
            o = (if truthy d then Some (truncated n d) else None) ->
            (d = EmptyString -> o = None) /\
            (d <> EmptyString -> String.length d <= n -> o = Some d) /\
            (n < String.length d ->
             exists head tail,
               d = head +:+ tail /\ String.length head = n /\ tail <> EmptyString /\
               o = Some (head +:+ "..."))).
  { intros n d o ->. destruct (truncated_cases n d) as [Hshort Hlong].
    split; [|split].
    - intros ->. reflexivity.
    - intros Hd Hlen. destruct d; [contradiction|]. simpl truthy. cbv iota.
      rewrite Hshort by exact Hlen. reflexivity.
    - intros Hlen. destruct (Hlong Hlen) as [head [tail [Hd [Hh [Ht Htr]]]]].
      exists head, tail. repeat split; try assumption.
      destruct d; [simpl in Hlen; lia|]. simpl truthy. cbv iota.
      rewrite Htr. reflexivity. }
  split.
  - intros compact card Hc. apply Hgen.
    apply (renderCatCard_fields compact cat card Hc).
  - intros img i card Hc. apply Hgen.
    apply (renderIndividualCard_fields cat img i card Hc).
Qed.

(** The category chips of a card, of either kind: none for a record with
    no category; otherwise the first two categories and, when there are
    more, a chip counting the rest. *)
Theorem card_category_chips (cat : Cat.t) (card : Card) :
  (exists compact, renderCatCard compact cat = Ok card) \/
  (exists img i, renderIndividualCard cat img i = Ok card) ->
  match Cat.categories cat with
  | None | Some [] => card_categories card = None
  | Some cats =>
      exists chips hidden,
        card_categories card = Some chips /\
        cats = (chips_visible chips ++ hidden)%list /\
        length (chips_visible chips) <= 2 /\
        (hidden = [] -> chips_more chips = None) /\
        (hidden <> [] ->
         length (chips_visible chips) = 2 /\ chips_more chips = Some (length hidden))
  end.
Proof.
  intros Hcard.
  assert (Hchips : card_categories card = categoryChips cat).
  { destruct Hcard as [[compact H] | [img [i H]]].
    - apply (renderCatCard_fields compact cat card H).
    - apply (renderIndividualCard_fields cat img i card H). }
  rewrite Hchips. unfold categoryChips.
  destruct (Cat.categories cat) as [[|c cs]|]; try reflexivity.
  eexists _, (drop 2 (c :: cs)). split; [reflexivity|]. cbn [chips_visible chips_more].
  split; [symmetry; apply take_drop|]. split; [rewrite length_take; lia|].
  destruct cs as [|c2 [|c3 cs]]; simpl; split;
    try congruence; try (intros; split; reflexivity).
Qed.

(** Tom's card carries both of his categories and no overflow chip. *)
Lemma card_category_chips_witness :
  exists card chips hidden,
    renderCatCard false tom = Ok card /\
    card_categories card = Some chips /\
    ["orange"; "sleepy"] = (chips_visible chips ++ hidden)%list /\
    length (chips_visible chips) <= 2 /\
    (hidden = [] -> chips_more chips = None) /\
    (hidden <> [] ->
     length (chips_visible chips) = 2 /\ chips_more chips = Some (length hidden)).
Proof.
  destruct (renderCatCard false tom) as [card|e] eqn:E; [|discriminate E].
  destruct (card_category_chips tom card) as [chips [hidden H]].
  - left. exists false. exact E.
  - exists card, chips, hidden. split; [reflexivity | exact H].
Defined.

Lemma mediaIsVideo_ok_iff (m : Media.t) :
  (exists b, mediaIsVideo m = Ok b) <-> drawable m = true.
Proof.
  split; [|apply mediaIsVideo_drawable].
  intros [b Hb]. destruct (drawable m) eqn:E; [reflexivity|].
  destruct (mediaIsVideo_not_drawable m E) as [e He]. congruence.
Qed.


(** A title with a double quote: the [alt] attribute of Tom's card stops
    at the quote, and the rest of the title spills into the tag. *)
Example renderCatCard_quoted_title :
  let title := "Say " +:+ String doubleQuote ("hi" +:+ String doubleQuote "") in
  exists card src a,
    renderCatCard false
      (Cat.mk "c1" (Some title) None (Some [Media.mk "https://x/1.jpg" "image" None None None])
         None None false None) = Ok card /\
    card_media card = ImgEl src (Some a) /\
    attr_value a = "Say " /\
    attr_spill a = Some ("hi" +:+ String doubleQuote "") /\
    card_title card = Some title.
Proof. eexists _, _, _. repeat split; reflexivity. Qed.

Lemma individualStep_ok (cat : Cat.t) (ims : list (nat * Media.t))
    (acc r : list Card * nat) :
  forEachM (individualStep cat) ims acc = Ok r ->
  Forall (fun im => drawable (snd im) = true) ims /\
  List.map cardTarget (fst r)
    = (List.map cardTarget (fst acc) ++
       List.map (fun im => (Cat.id cat, Some (fst im))) ims)%list /\
  snd r = snd acc + length ims.
Proof.
  revert acc. induction ims as [|[i m] ims IH]; intros acc H; simpl in H.
  - injection H as <-. rewrite app_nil_r, Nat.add_0_r. auto.
  - unfold individualStep at 1 in H. simpl in H.
    destruct (renderIndividualCard cat m i) as [card|e] eqn:Ec; [|discriminate].
    simpl in H. apply IH in H as [Hall [Hcards Hn]]. cbn [fst snd] in *.
    split; [|split].
    + constructor; [|exact Hall]. simpl.
      unfold renderIndividualCard in Ec.
      destruct (mediaIsVideo m) as [b|e] eqn:Em; [|discriminate].
      apply mediaIsVideo_ok_iff. eauto.
    + rewrite Hcards, map_app. simpl. rewrite <- app_assoc. simpl.
      destruct (renderIndividualCard_fields cat m i card Ec)
        as [_ [_ [_ [Hid [Himg _]]]]].
      unfold cardTarget at 2. rewrite Hid, Himg. reflexivity.
    + simpl. lia.
Qed.

Lemma imap_pair_targets (cat : Cat.t) (media : list Media.t) :
  List.map (fun im : nat * Media.t => (Cat.id cat, Some (fst im))) (imap pair media)
    = imap (fun i _ => (Cat.id cat, Some i)) media.
Proof.
  change (List.map ?f ?l) with (f <$> l). rewrite fmap_imap. reflexivity.
Qed.

Lemma imap_pair_drawable_inv (media : list Media.t) :
  Forall (fun im : nat * Media.t => drawable (snd im) = true) (imap pair media) ->
  Forall (fun m => drawable m = true) media.
Proof.
  intros H. apply Forall_forall. intros m Hm.
  apply list_elem_of_lookup in Hm as [i Hi].
  rewrite Forall_forall in H. apply (H (i, m)).
  apply elem_of_lookup_imap. eauto.
Qed.

Lemma individualCat_ok (cats : list Cat.t) (acc r : list Card * nat) :
  forEachM individualCat cats acc = Ok r ->
  allDrawable cats /\
  List.map cardTarget (fst r)
    = (List.map cardTarget (fst acc) ++ individualTargets cats)%list /\
  snd r = snd acc + length (flat_map getCatMedia cats).
Proof.
  revert acc. induction cats as [|cat cats IH]; intros acc H; simpl in H.
  - injection H as <-. simpl. rewrite app_nil_r, Nat.add_0_r.
    split; [constructor | auto].
  - destruct (individualCat acc cat) as [acc1|e] eqn:E1; [|discriminate].
    simpl in H. apply IH in H as [Hall [Hcards Hn]].
    assert (H1 : Forall (fun m => drawable m = true) (getCatMedia cat) /\
                 List.map cardTarget (fst acc1)
                   = (List.map cardTarget (fst acc) ++
                      imap (fun i _ => (Cat.id cat, Some i)) (getCatMedia cat))%list /\
                 snd acc1 = snd acc + length (getCatMedia cat)).
    { unfold individualCat in E1. destruct (getCatMedia cat) as [|m ms] eqn:Em.
      - simpl in E1. injection E1 as <-. simpl. rewrite app_nil_r, Nat.add_0_r.
        split; [constructor | auto].
      - cbn [length Nat.ltb Nat.leb] in E1.
        apply individualStep_ok in E1 as [Hd [Hc Hl]].
        split; [apply imap_pair_drawable_inv, Hd|].
        rewrite Hc, Hl, imap_pair_targets, length_imap. auto. }
    destruct H1 as [Hd [Hc Hl]]. split; [|split].
    + constructor; assumption.
    + rewrite Hcards, Hc. unfold individualTargets at 2. simpl.
      rewrite <- app_assoc. reflexivity.
    + rewrite Hn, Hl. simpl. rewrite length_app. lia.
Qed.

(** The individual grid, in the form the proofs on loading use. *)
Lemma renderCats_individual_spec (st : State) (cats : nat) :
  currentViewMode st <> "batch" ->
  (fst (renderCats cats st) = Ok tt <-> allDrawable (readArray st cats)) /\
  (fst (renderCats cats st) = Ok tt ->
     catCount (snd (renderCats cats st))
       = countLabel (length (flat_map getCatMedia (readArray st cats))) "photo" /\
     (flat_map getCatMedia (readArray st cats) = [] ->
      catsGrid (snd (renderCats cats st)) = RMessage "no-data" "🐱 No photos found") /\
     (flat_map getCatMedia (readArray st cats) <> [] ->
      List.map cardTarget (cardsOf (catsGrid (snd (renderCats cats st))))
        = individualTargets (readArray st cats))) /\
  (fst (renderCats cats st) <> Ok tt -> snd (renderCats cats st) = st).
Proof.
  intros Hmode. apply String.eqb_neq in Hmode.
  unfold renderCats, bind, get, modify, lift. rewrite Hmode.
  destruct (forEachM individualCat (readArray st cats) ([], 0)) as [[cards n]|e] eqn:E.
  - apply individualCat_ok in E as [Hall [Hcards Hn]]. cbn [fst snd] in *.
    simpl in Hn. subst n.
    assert (Hlen : (length (flat_map getCatMedia (readArray st cats)) =? 0) = true
                   <-> flat_map getCatMedia (readArray st cats) = []).
    { rewrite Nat.eqb_eq. destruct (flat_map _ _); simpl; split; congruence. }
    destruct (length (flat_map getCatMedia (readArray st cats)) =? 0) eqn:E0;
      cbn [fst snd].
    + split; [tauto|]. split; [|congruence]. intros _.
      split; [reflexivity|]. split; [reflexivity|].
      intros Hne. exfalso. apply Hne, Hlen. reflexivity.
    + split; [tauto|]. split; [|congruence]. intros _.
      split; [reflexivity|]. split.
      * intros Hnil. apply Hlen in Hnil. discriminate.
      * intros _. exact Hcards.
  - cbn [fst snd]. split; [|split].
    + split; [discriminate|]. intros Hall.
      destruct (individualCat_all _ ([], 0) Hall) as [cards Hc]. congruence.
    + discriminate.
    + reflexivity.
Qed.

(** When the individual grid can be drawn.  In a mode other than "batch",
    [renderCats] completes exactly when every media item of every record can
    be drawn.  When it completes, the label counts the media items and the
    grid holds one card per media item, in order, each aimed at its record
    and item index (or the "No photos found" message when there is none).
    When it throws, it has written nothing: the page is as before. *)
Theorem renderCats_individual (st : State) (cats : nat) :
  currentViewMode st <> "batch" ->
  (fst (renderCats cats st) = Ok tt <-> allDrawable (readArray st cats)) /\
  (fst (renderCats cats st) = Ok tt ->
     catCount (snd (renderCats cats st))
       = countLabel (length (flat_map getCatMedia (readArray st cats))) "photo" /\
     (flat_map getCatMedia (readArray st cats) = [] ->
      catsGrid (snd (renderCats cats st)) = RMessage "no-data" "🐱 No photos found") /\
     (flat_map getCatMedia (readArray st cats) <> [] ->
      List.map cardTarget (cardsOf (catsGrid (snd (renderCats cats st))))
        = individualTargets (readArray st cats))) /\
  (fst (renderCats cats st) <> Ok tt -> snd (renderCats cats st) = st).
Proof. exact (renderCats_individual_spec st cats). Qed.

(** The individual grid of the small gallery: six cards, aimed at Tom's
    item, Misty's three and Felix's two. *)
Lemma renderCats_individual_witness :
  fst (renderCats 0 (galleryState "individual" [] "")) = Ok tt /\
  List.map cardTarget
    (cardsOf (catsGrid (snd (renderCats 0 (galleryState "individual" [] "")))))
    = [("c1", Some 0); ("c2", Some 0); ("c2", Some 1); ("c2", Some 2);
       ("c3", Some 0); ("c3", Some 1)].
Proof.
  destruct (renderCats_individual (galleryState "individual" [] "") 0)
    as [Hiff [Hok _]]; [discriminate|].
  assert (Hrun : fst (renderCats 0 (galleryState "individual" [] "")) = Ok tt).
  { apply Hiff. repeat constructor. }
  split; [exact Hrun|].
  destruct (Hok Hrun) as [_ [_ Hcards]]. apply Hcards. discriminate.
Defined.

Lemma renderCatCard_ok_iff (compact : bool) (cat : Cat.t) :
  (exists card, renderCatCard compact cat = Ok card) <->
  drawable (mainMediaOf cat) = true.
Proof.
  unfold mainMediaOf, renderCatCard.
  destruct (getCatMedia cat) as [|m ms] eqn:Em.
  - simpl. split; [reflexivity | eauto].
  - change (default placeholder ((m :: ms) !! 0)) with m.
    destruct (drawable m) eqn:Hm.
    + split; [reflexivity|]. intros _.
      destruct (mediaIsVideo_drawable m Hm) as [b ->]. cbn [rbind]. eauto.
    + split; [|discriminate]. intros [card Hc].
      destruct (mediaIsVideo_not_drawable m Hm) as [e He].
      rewrite He in Hc. discriminate.
Qed.

Lemma mapM_renderCatCard (compact : bool) (cats : list Cat.t) :
  (forall cards, mapM (renderCatCard compact) cats = Ok cards ->
     List.map cardTarget cards = List.map (fun cat => (Cat.id cat, None)) cats) /\
  ((exists cards, mapM (renderCatCard compact) cats = Ok cards) <->
   Forall (fun cat => drawable (mainMediaOf cat) = true) cats).
Proof.
  induction cats as [|cat cats [IHt IHd]]; simpl.
  - split; [intros cards [= <-]; reflexivity|].
    split; [constructor | eauto].
  - destruct (renderCatCard compact cat) as [card|e] eqn:Ec; simpl.
    + destruct (mapM (renderCatCard compact) cats) as [cards|e] eqn:Em; simpl.
      * split.
        -- intros ? [= <-]. simpl. rewrite (IHt cards eq_refl).
           destruct (renderCatCard_fields compact cat card Ec)
             as [_ [_ [Hid [Himg _]]]].
           unfold cardTarget at 1. rewrite Hid, Himg. reflexivity.
        -- split; [|eauto]. intros _. constructor.
           ++ apply (renderCatCard_ok_iff compact). eauto.
           ++ apply IHd. eauto.
      * split; [discriminate|]. split; [intros [? H]; discriminate|].
        intros H. apply Forall_cons in H as [_ H].
        apply IHd in H as [cards H]. discriminate.
    + split; [discriminate|]. split; [intros [? H]; discriminate|].
      intros H. apply Forall_cons in H as [H _].
      apply (renderCatCard_ok_iff compact) in H as [card H]. congruence.
Qed.

(** The batch grid, in the form the proofs on loading use. *)
Lemma renderCats_batch_spec (st : State) (cats : nat) :
  currentViewMode st = "batch" ->
  catCount (snd (renderCats cats st)) = countLabel (length (readArray st cats)) "cat" /\
  (fst (renderCats cats st) = Ok tt <->
   Forall (fun cat => drawable (mainMediaOf cat) = true) (readArray st cats)) /\
  (readArray st cats = [] ->
   catsGrid (snd (renderCats cats st)) = RMessage "no-data" "🐱 No cats found") /\
  (fst (renderCats cats st) = Ok tt -> readArray st cats <> [] ->
   List.map cardTarget (cardsOf (catsGrid (snd (renderCats cats st))))
     = List.map (fun cat => (Cat.id cat, None)) (readArray st cats)) /\
  (fst (renderCats cats st) <> Ok tt ->
   catsGrid (snd (renderCats cats st)) = catsGrid st).
Proof.
  intros Hmode. unfold renderCats, bind, get, modify, lift. rewrite Hmode.
  cbn [String.eqb Ascii.eqb Bool.eqb andb].
  destruct (mapM_renderCatCard false (readArray st cats)) as [Ht Hd].
  destruct (readArray st cats) as [|cat arr] eqn:Earr.
  - simpl. repeat split; try reflexivity; try congruence. constructor.
  - cbn [length Nat.eqb].
    destruct (mapM (renderCatCard false) (cat :: arr)) as [cards|e] eqn:Em;
      cbn [fst snd].
    + split; [reflexivity|]. split; [split; [intros _; apply Hd; eauto | reflexivity]|].
      split; [discriminate|]. split; [|congruence].
      intros _ _. apply Ht. reflexivity.
    + split; [reflexivity|]. split.
      * split; [discriminate|]. intros H. apply Hd in H as [cards H]. discriminate.
      * split; [discriminate|]. split; [discriminate | reflexivity].
Qed.

(** The gallery grid.  In "batch" mode [renderCats] writes the count label
    first, so the label is right even when a card then fails to draw.  It
    completes exactly when the first media item of every record can be
    drawn (later items are not looked at).  When it completes on a non-empty
    list the grid holds one card per record, in order, each aimed at its
    record; on the empty list it holds the "No cats found" message.  When it
    throws, the grid keeps its former content. *)
Theorem renderCats_batch (st : State) (cats : nat) :
  currentViewMode st = "batch" ->
  catCount (snd (renderCats cats st)) = countLabel (length (readArray st cats)) "cat" /\
  (fst (renderCats cats st) = Ok tt <->
   Forall (fun cat => drawable (mainMediaOf cat) = true) (readArray st cats)) /\
  (readArray st cats = [] ->
   catsGrid (snd (renderCats cats st)) = RMessage "no-data" "🐱 No cats found") /\
  (fst (renderCats cats st) = Ok tt -> readArray st cats <> [] ->
   List.map cardTarget (cardsOf (catsGrid (snd (renderCats cats st))))
     = List.map (fun cat => (Cat.id cat, None)) (readArray st cats)) /\
  (fst (renderCats cats st) <> Ok tt ->
   catsGrid (snd (renderCats cats st)) = catsGrid st).
Proof. exact (renderCats_batch_spec st cats). Qed.

(** The gallery grid of the small gallery: three cards, one per record. *)
Lemma renderCats_batch_witness :
  catCount (snd (renderCats 0 (galleryState "batch" [] ""))) = "3 cats" /\
  fst (renderCats 0 (galleryState "batch" [] "")) = Ok tt /\
  List.map cardTarget (cardsOf (catsGrid (snd (renderCats 0 (galleryState "batch" [] "")))))
    = [("c1", None); ("c2", None); ("c3", None)].
Proof.
  destruct (renderCats_batch (galleryState "batch" [] "") 0)
    as [Hlabel [Hiff [_ [Hcards _]]]]; [reflexivity|].
  assert (Hrun : fst (renderCats 0 (galleryState "batch" [] "")) = Ok tt).
  { apply Hiff. repeat constructor. }
  split; [exact Hlabel|]. split; [exact Hrun|].
  apply Hcards; [exact Hrun | discriminate].
Defined.

(** ** The modal *)

Lemma galleryThumb_Forall2 (cat : Cat.t) (startIndex : nat)
    (ims : list (nat * Media.t)) (thumbs : list Thumb) :
  mapM (galleryThumb cat startIndex) ims = Ok thumbs ->
  Forall2 (fun im t =>
             exists b, mediaIsVideo (snd im) = Ok b /\
                       t = mkThumb (fst im =? startIndex) (mediaSrc (snd im)) b
                             (Cat.id cat) (fst im))
          ims thumbs.
Proof.
  revert thumbs. induction ims as [|[j m] ims IH]; intros thumbs H; simpl in H.
  - injection H as <-. constructor.
  - unfold galleryThumb at 1 in H. simpl in H.
    destruct (mediaIsVideo m) as [b|e] eqn:Em; [|discriminate]. simpl in H.
    destruct (mapM (galleryThumb cat startIndex) ims) as [ts|e] eqn:Et; [|discriminate].
    simpl in H. injection H as <-. constructor; [|apply IH; reflexivity].
    exists b. split; [exact Em | reflexivity].
Qed.

Lemma galleryThumb_ok_inv (cat : Cat.t) (startIndex : nat)
    (ims : list (nat * Media.t)) (thumbs : list Thumb) :
  mapM (galleryThumb cat startIndex) ims = Ok thumbs ->
  Forall (fun im => drawable (snd im) = true) ims.
Proof.
  intros H. apply galleryThumb_Forall2 in H.
  induction H as [|im t ims ts [b [Hb _]] _ IH]; constructor; [|exact IH].
  apply mediaIsVideo_ok_iff. eauto.
Qed.

Lemma openCatModal_run (toLocaleDateString : string -> string) (st : State)
    (catId : string) (startIndex : nat) (cat : Cat.t) :
  findCat st catId = Some cat ->
  openCatModal toLocaleDateString catId startIndex st
    = match modalView toLocaleDateString cat startIndex with
      | Ok view => (Ok tt, openedWith view st)
      | Throw e => (Throw e, st)
      end.
Proof.
  unfold findCat. intros Hfind. unfold openCatModal, bind, get, lift, modify.
  rewrite Hfind. destruct (modalView _ cat startIndex); reflexivity.
Qed.

(** Opening the modal, in the form the proofs on cards use. *)
Lemma openCatModal_completes_spec (toLocaleDateString : string -> string)
    (st : State) (catId : string) (startIndex : nat) (cat : Cat.t) :
  findCat st catId = Some cat ->
  (fst (openCatModal toLocaleDateString catId startIndex st) = Ok tt <->
   drawable (currentMediaAt (getCatMedia cat) startIndex) = true /\
   (1 < length (getCatMedia cat) ->
    Forall (fun m => drawable m = true) (getCatMedia cat))) /\
  (fst (openCatModal toLocaleDateString catId startIndex st) = Ok tt ->
   exists view,
     snd (openCatModal toLocaleDateString catId startIndex st) = openedWith view st /\
     shows (modal_main view) (currentMediaAt (getCatMedia cat) startIndex) /\
     (forall m, getCatMedia cat !! startIndex = Some m -> shows (modal_main view) m)) /\
  (fst (openCatModal toLocaleDateString catId startIndex st) <> Ok tt ->
   snd (openCatModal toLocaleDateString catId startIndex st) = st).
Proof.
  intros Hfind. rewrite (openCatModal_run _ _ _ _ _ Hfind).
  unfold modalView.
  set (media := getCatMedia cat).
  set (current := currentMediaAt media startIndex).
  destruct (mediaIsVideo current) as [b|e] eqn:Eb; cbn [rbind].
  - assert (Hcur : drawable current = true) by (apply mediaIsVideo_ok_iff; eauto).
    destruct (1 <? length media) eqn:Elen.
    + destruct (mapM (galleryThumb cat startIndex) (imap pair media))
        as [thumbs|e] eqn:Et; cbn [rbind fst snd].
      * split; [|split].
        -- split; [|reflexivity]. intros _. split; [exact Hcur|]. intros _.
           apply imap_pair_drawable_inv. eapply galleryThumb_ok_inv. exact Et.
        -- intros _. eexists. split; [reflexivity|]. cbn [modal_main].
           split; [destruct b; reflexivity|].
           intros m Hm. subst current. unfold currentMediaAt in *.
           fold media in Hm. rewrite Hm. destruct b; reflexivity.
        -- congruence.
      * split; [|split].
        -- split; [discriminate|]. intros [_ Hall].
           apply Nat.ltb_lt in Elen. specialize (Hall Elen).
           destruct (galleryThumb_all cat startIndex (imap pair media)
                       (imap_pair_drawable _ Hall)) as [thumbs Ht].
           congruence.
        -- discriminate.
        -- reflexivity.
    + cbn [rbind fst snd]. apply Nat.ltb_ge in Elen. split; [|split].
      * split; [|reflexivity]. intros _. split; [exact Hcur | lia].
      * intros _. eexists. split; [reflexivity|]. cbn [modal_main].
        split; [destruct b; reflexivity|].
        intros m Hm. subst current. unfold currentMediaAt in *.
        fold media in Hm. rewrite Hm. destruct b; reflexivity.
      * congruence.
  - cbn [fst snd]. split; [|split].
    + split; [discriminate|]. intros [Hcur _].
      apply mediaIsVideo_ok_iff in Hcur as [b Hb]. congruence.
    + discriminate.
    + reflexivity.
Qed.

(** When the modal opens.  For a record found under the id, [openCatModal]
    completes exactly when the item it is to show can be drawn and, for a
    record with several items, every item can (each gets a thumbnail).  When
    it completes, the modal is written and made active, the page scroll is
    locked and one history entry is pushed, and the main element shows the
    item at the index.  When it throws, nothing at all has changed. *)
Theorem openCatModal_completes (toLocaleDateString : string -> string)
    (st : State) (catId : string) (startIndex : nat) (cat : Cat.t) :
  findCat st catId = Some cat ->
  (fst (openCatModal toLocaleDateString catId startIndex st) = Ok tt <->
   drawable (currentMediaAt (getCatMedia cat) startIndex) = true /\
   (1 < length (getCatMedia cat) ->
    Forall (fun m => drawable m = true) (getCatMedia cat))) /\
  (fst (openCatModal toLocaleDateString catId startIndex st) = Ok tt ->
   exists view,
     snd (openCatModal toLocaleDateString catId startIndex st) = openedWith view st /\
     shows (modal_main view) (currentMediaAt (getCatMedia cat) startIndex) /\
     (forall m, getCatMedia cat !! startIndex = Some m -> shows (modal_main view) m)) /\
  (fst (openCatModal toLocaleDateString catId startIndex st) <> Ok tt ->
   snd (openCatModal toLocaleDateString catId startIndex st) = st).
Proof.
  exact (openCatModal_completes_spec toLocaleDateString st catId startIndex cat).
Qed.

(** Opening the modal on Misty's video from the small gallery. *)
Lemma openCatModal_completes_witness :
  fst (openCatModal (fun s => s) "c2" 1 (galleryState "individual" [] "")) = Ok tt /\
  exists view,
    snd (openCatModal (fun s => s) "c2" 1 (galleryState "individual" [] ""))
      = openedWith view (galleryState "individual" [] "") /\
    modal_main view = VideoEl "https://x/3.mp4".
Proof.
  destruct (openCatModal_completes (fun s => s) (galleryState "individual" [] "")
              "c2" 1 misty eq_refl) as [Hiff [Hok _]].
  assert (Hrun : fst (openCatModal (fun s => s) "c2" 1
                        (galleryState "individual" [] "")) = Ok tt).
  { apply Hiff. split; [reflexivity|]. intros _. repeat constructor. }
  split; [exact Hrun|].
  destruct (Hok Hrun) as [view [Hst _]].
  exists view. split; [exact Hst|].
  assert (Hbody : modalBody (openedWith view (galleryState "individual" [] ""))
                  = Some view) by reflexivity.
  rewrite <- Hst in Hbody. injection Hbody as <-. reflexivity.
Defined.

(** The thumbnail strip.  The modal has a strip exactly when the record has
    more than one media item; the strip has one thumbnail per item, in
    order, carrying the item's source, the record's id and the item's index,
    and the only thumbnail marked active is the one at the opening index
    (none when the index is past the end). *)
Theorem openCatModal_gallery (toLocaleDateString : string -> string)
    (cat : Cat.t) (startIndex : nat) (view : ModalView) :
  modalView toLocaleDateString cat startIndex = Ok view ->
  (length (getCatMedia cat) <= 1 -> modal_gallery view = None) /\
  (1 < length (getCatMedia cat) ->
   exists thumbs,
     modal_gallery view = Some thumbs /\
     length thumbs = length (getCatMedia cat) /\
     forall j m, getCatMedia cat !! j = Some m ->
       exists t,
         thumbs !! j = Some t /\
         thumb_src t = mediaSrc m /\ thumb_cat t = Cat.id cat /\ thumb_idx t = j /\
         mediaIsVideo m = Ok (thumb_video t) /\
         (thumb_active t = true <-> j = startIndex)).
Proof.
  unfold modalView. set (media := getCatMedia cat).
  destruct (mediaIsVideo _) as [b|e]; cbn [rbind]; [|discriminate].
  destruct (1 <? length media) eqn:Elen.
  - apply Nat.ltb_lt in Elen.
    destruct (mapM (galleryThumb cat startIndex) (imap pair media))
      as [thumbs|e] eqn:Et; cbn [rbind]; [|discriminate].
    intros [= <-]. cbn [modal_gallery]. split; [lia|]. intros _.
    apply galleryThumb_Forall2 in Et.
    exists thumbs. split; [reflexivity|]. split.
    + rewrite <- (Forall2_length _ _ _ Et), length_imap. reflexivity.
    + intros j m Hj.
      assert (Him : imap pair media !! j = Some (j, m)).
      { rewrite list_lookup_imap, Hj. reflexivity. }
      destruct (Forall2_lookup_l _ _ _ _ _ Et Him) as [t [Ht [vb [Hvb ->]]]].
      exists (mkThumb (j =? startIndex) (mediaSrc m) vb (Cat.id cat) j).
      simpl in *. repeat split; try assumption.
      * apply Nat.eqb_eq.
      * apply Nat.eqb_eq.
  - apply Nat.ltb_ge in Elen. cbn [rbind]. intros [= <-]. cbn [modal_gallery].
    split; [reflexivity | lia].
Qed.

(** Misty's strip opened on her video: three thumbnails, the second one
    active. *)
Lemma openCatModal_gallery_witness :
  exists view thumbs,
    modalView (fun s => s) misty 1 = Ok view /\
    modal_gallery view = Some thumbs /\
    List.map thumb_active thumbs = [false; true; false].
Proof.
  destruct (modalView (fun s => s) misty 1) as [view|e] eqn:E; [|discriminate E].
  destruct (openCatModal_gallery (fun s => s) misty 1 view E) as [_ H].
  destruct H as [thumbs [Hg _]]; [simpl; lia|].
  exists view, thumbs. split; [reflexivity|]. split; [exact Hg|].
  revert Hg. injection E as <-. intros [= <-]. reflexivity.
Defined.

Lemma findCat_id (st : State) (catId : string) (cat : Cat.t) :
  findCat st catId = Some cat -> Cat.id cat = catId.
Proof.
  unfold findCat. intros H. apply find_some in H as [_ H].
  apply String.eqb_eq. exact H.
Qed.

Lemma modalView_main (toLocaleDateString : string -> string) (cat : Cat.t)
    (startIndex : nat) (view : ModalView) :
  modalView toLocaleDateString cat startIndex = Ok view ->
  exists b,
    mediaIsVideo (currentMediaAt (getCatMedia cat) startIndex) = Ok b /\
    modal_main view
      = (if b then VideoEl (mediaSrc (currentMediaAt (getCatMedia cat) startIndex))
         else ImgEl (mediaSrc (currentMediaAt (getCatMedia cat) startIndex))
                (Some (attributeValue
                         (escapeHtml
                            (orElse
                               (Media.title (currentMediaAt (getCatMedia cat) startIndex))
                               (orElse (Cat.title cat) "")))))) /\
    modal_title view
      = (if truthy (orElse (Media.title (currentMediaAt (getCatMedia cat) startIndex))
                      (orElse (Cat.title cat) ""))
         then orElse (Media.title (currentMediaAt (getCatMedia cat) startIndex))
                (orElse (Cat.title cat) "")
         else "🐱 Cute Cat") /\
    modal_categories view = default [] (Cat.categories cat) /\
    modal_added view
      = match Cat.created_at cat with
        | Some s => if truthy s then Some (toLocaleDateString s) else None
        | None => None
        end.
Proof.
  unfold modalView.
  destruct (mediaIsVideo _) as [b|e]; cbn [rbind]; [|discriminate].
  destruct (if 1 <? length (getCatMedia cat) then _ else _) as [g|e];
    cbn [rbind]; [|discriminate].
  intros [= <-]. exists b. repeat split.
Qed.

(** A card opens what it shows.  For an individual card drawn from item
    [i] of a record that [allCats] finds under its id, the click target is
    that record and that index, and [openCatModal] on the target opens the
    modal on the same source, as a video exactly when the card is one, under
    the card's title (or the default title when the card has none). *)
Theorem card_opens_its_item (toLocaleDateString : string -> string) (st : State)
    (cat : Cat.t) (i : nat) (m : Media.t) (card : Card) :
  findCat st (Cat.id cat) = Some cat ->
  getCatMedia cat !! i = Some m ->
  Forall (fun m => drawable m = true) (getCatMedia cat) ->
  renderIndividualCard cat m i = Ok card ->
  cardTarget card = (Cat.id cat, Some i) /\
  exists view,
    openCatModal toLocaleDateString (card_id card) i st = (Ok tt, openedWith view st) /\
    srcOf (modal_main view) = srcOf (card_media card) /\
    isVideoEl (modal_main view) = isVideoEl (card_media card) /\
    modal_title view = default "🐱 Cute Cat" (card_title card).
Proof.
  intros Hfind Hi Hall Hcard.
  destruct (renderIndividualCard_fields cat m i card Hcard)
    as [_ [Htitle [_ [Hid [Himg _]]]]].
  split; [unfold cardTarget; rewrite Hid, Himg; reflexivity|].
  rewrite Hid.
  destruct (openCatModal_completes_spec toLocaleDateString st (Cat.id cat) i cat Hfind)
    as [Hiff _].
  assert (Hcur : currentMediaAt (getCatMedia cat) i = m).
  { unfold currentMediaAt. rewrite Hi. reflexivity. }
  assert (Hm : drawable m = true).
  { rewrite Forall_forall in Hall. apply Hall.
    eapply list_elem_of_lookup_2. exact Hi. }
  assert (Hrun : fst (openCatModal toLocaleDateString (Cat.id cat) i st) = Ok tt).
  { apply Hiff. rewrite Hcur. auto. }
  rewrite (openCatModal_run _ _ _ _ _ Hfind) in Hrun |- *.
  destruct (modalView toLocaleDateString cat i) as [view|e] eqn:Ev; [|discriminate].
  exists view. split; [reflexivity|].
  destruct (modalView_main _ _ _ _ Ev) as [b [Hb [Hmain [Ht _]]]].
  rewrite Hcur in Hb, Hmain, Ht. rewrite Hmain, Ht, Htitle.
  unfold renderIndividualCard in Hcard. rewrite Hb in Hcard. cbn [rbind] in Hcard.
  injection Hcard as <-. cbn [card_media].
  destruct b; (split; [reflexivity|]; split; [reflexivity|]);
    destruct (truthy _); reflexivity.
Qed.

(** Misty's third card opens the modal on her third item. *)
Lemma card_opens_its_item_witness :
  exists card view,
    renderIndividualCard misty
      (Media.mk "https://x/4.jpg" "image" None (Some "Yawning") (Some ["orange"])) 2
      = Ok card /\
    cardTarget card = ("c2", Some 2) /\
    openCatModal (fun s => s) (card_id card) 2 (galleryState "individual" [] "")
      = (Ok tt, openedWith view (galleryState "individual" [] "")) /\
    srcOf (modal_main view) = srcOf (card_media card).
Proof.
  destruct (renderIndividualCard misty
              (Media.mk "https://x/4.jpg" "image" None (Some "Yawning") (Some ["orange"])) 2)
    as [card|e] eqn:E; [|discriminate E].
  destruct (card_opens_its_item (fun s => s) (galleryState "individual" [] "")
              misty 2 _ card eq_refl eq_refl) as [Ht [view [Hopen [Hsrc _]]]].
  - repeat constructor.
  - exact E.
  - exists card, view. auto.
Defined.

(** Closing gives back what opening took.  From a page whose modal is
    closed and whose scroll is free, opening the modal and then closing it,
    by the close control, by a click on the backdrop or by Escape, restores
    the page scroll and the session history and leaves the modal inactive:
    the state differs from the one before only in the hidden content of the
    modal.  So does the back button, when the entry under the pushed one is
    not itself a modal entry. *)
Theorem open_then_close (toLocaleDateString : string -> string) (st : State)
    (catId : string) (startIndex : nat) (cat : Cat.t) (view : ModalView) :
  findCat st catId = Some cat ->
  modalView toLocaleDateString cat startIndex = Ok view ->
  catModal_active st = false ->
  body_overflow st = EmptyString ->
  snd (openCatModal toLocaleDateString catId startIndex st) = openedWith view st /\
  closeModal None (openedWith view st) = (Ok tt, set_modalBody (Some view) st) /\
  closeModal (Some true) (openedWith view st) = (Ok tt, set_modalBody (Some view) st) /\
  onKeyDown "Escape" (openedWith view st) = (Ok tt, set_modalBody (Some view) st) /\
  (head (history st) <> Some true ->
   pressBack (openedWith view st) = (Ok tt, set_modalBody (Some view) st)).
Proof.
  intros Hfind Hview Hact Hover.
  rewrite (openCatModal_run _ _ _ _ _ Hfind), Hview.
  destruct st. simpl in Hact, Hover. subst.
  repeat split.
  intros Hhead. unfold pressBack, onPopState, closeModal, bind, get, modify, ret.
  simpl. destruct history0 as [|[] rest]; try reflexivity.
  exfalso. apply Hhead. reflexivity.
Qed.

(** Opening the small gallery's modal on Tom and pressing Escape. *)
Lemma open_then_close_witness :
  exists view,
    modalBody openedState = Some view /\
    onKeyDown "Escape" openedState
      = (Ok tt, set_modalBody (Some view) (galleryState "batch" [] "")).
Proof.
  destruct (modalView (fun s => s) tom 0) as [view|e] eqn:E; [|discriminate E].
  destruct (open_then_close (fun s => s) (galleryState "batch" [] "") "c1" 0 tom view
              eq_refl E eq_refl eq_refl) as [Hopen [_ [_ [Hesc _]]]].
  exists view. unfold openedState. rewrite Hopen. split; [reflexivity | exact Hesc].
Defined.

(** What a click on a thumbnail changes.  Without modal content
    [changeModalMedia] throws and changes nothing.  With content it
    completes and writes the modal's content only (the active flag, the page
    scroll and the session history are not touched, so no second history
    entry is pushed): the main element becomes a video or an image of the
    given source, the clicked thumbnail becomes the only active one, the
    date and the categories stay, and a description paragraph is updated if
    there is one but never created. *)
Theorem changeModalMedia_effect (st : State) (src : string) (thumb : nat)
    (isVideo : bool) (catId : string) (imgIndex : nat) :
  (modalBody st = None ->
   exists e, changeModalMedia src thumb isVideo catId imgIndex st = (Throw e, st)) /\
  (forall view, modalBody st = Some view ->
   exists view',
     changeModalMedia src thumb isVideo catId imgIndex st
       = (Ok tt, set_modalBody (Some view') st) /\
     modal_main view' = (if isVideo then VideoEl src else ImgEl src None) /\
     modal_added view' = modal_added view /\
     modal_categories view' = modal_categories view /\
     (modal_description view = None <-> modal_description view' = None) /\
     (modal_gallery view = None <-> modal_gallery view' = None) /\
     (forall thumbs, modal_gallery view = Some thumbs ->
      exists thumbs',
        modal_gallery view' = Some thumbs' /\
        length thumbs' = length thumbs /\
        forall j t, thumbs !! j = Some t ->
          exists t',
            thumbs' !! j = Some t' /\
            thumb_src t' = thumb_src t /\ thumb_video t' = thumb_video t /\
            thumb_cat t' = thumb_cat t /\ thumb_idx t' = thumb_idx t /\
            (thumb_active t' = true <-> j = thumb))).
Proof.
  unfold changeModalMedia, bind, get, throw, modify. split.
  - intros ->. eauto.
  - intros view ->. eexists. split; [reflexivity|].
    cbn [modal_main modal_added modal_categories modal_description modal_gallery].
    split; [reflexivity|]. split; [reflexivity|]. split; [reflexivity|].
    split; [|split].
    + destruct (List.find _ _); [|reflexivity].
      destruct (modal_description view); simpl; split; congruence.
    + destruct (modal_gallery view); simpl; split; congruence.
    + intros thumbs ->. simpl. eexists. split; [reflexivity|].
      split; [apply length_imap|].
      intros j t Hj. eexists. split; [rewrite list_lookup_imap, Hj; reflexivity|].
      simpl. repeat split; apply Nat.eqb_eq.
Qed.

Lemma galleryThumb_retarget (cat : Cat.t) (i j : nat)
    (ims : list (nat * Media.t)) (ts : list Thumb) :
  mapM (galleryThumb cat i) ims = Ok ts ->
  mapM (galleryThumb cat j) ims
    = Ok (List.map (fun t => mkThumb (thumb_idx t =? j) (thumb_src t) (thumb_video t)
                               (thumb_cat t) (thumb_idx t)) ts).
Proof.
  revert ts. induction ims as [|[k m] ims IH]; intros ts H; simpl in H.
  - injection H as <-. reflexivity.
  - unfold galleryThumb at 1 in H. simpl in H.
    destruct (mediaIsVideo m) as [b|e] eqn:Em; [|discriminate]. simpl in H.
    destruct (mapM (galleryThumb cat i) ims) as [ts0|e] eqn:Et; [|discriminate].
    simpl in H. injection H as <-.
    simpl. unfold galleryThumb at 1. simpl. rewrite Em. simpl.
    rewrite (IH ts0 eq_refl). reflexivity.
Qed.

Lemma galleryThumb_idx (cat : Cat.t) (i : nat) (media : list Media.t)
    (ts : list Thumb) :
  mapM (galleryThumb cat i) (imap pair media) = Ok ts ->
  forall k t, ts !! k = Some t -> thumb_idx t = k /\ k < length media.
Proof.
  intros H k t Hk. apply galleryThumb_Forall2 in H.
  destruct (Forall2_lookup_r _ _ _ _ _ H Hk) as [[k' m] [Him [b [_ ->]]]].
  apply list_lookup_imap_Some in Him as [m' [Hm [= -> ->]]].
  split; [reflexivity|]. eapply lookup_lt_Some. exact Hm.
Qed.

(** Navigating by thumbnail reaches the item.  With the modal open on a
    record that [allCats] finds under its id, take the thumbnail at position
    [j] whose URL, and the record's id, stand for themselves inside the
    single-quoted literals of the handler (no quote, apostrophe, backslash,
    line break or NUL; no ampersand in the id).  Then its handler is the call
    of [changeModalMedia] with the values the strip wrote, and a click on it
    completes and leaves the modal as opening it at [j] would have: the same
    source, the same kind of element, the same title, the same strip with
    thumbnail [j] active, the same date and categories.  (The [alt] text of
    an image, and a description paragraph that was not there when the modal
    opened, are not part of this.) *)
Theorem thumbnail_reaches_item (toLocaleDateString : string -> string) (st : State)
    (catId : string) (startIndex : nat) (cat : Cat.t) (view0 : ModalView)
    (thumbs : list Thumb) (j : nat) (t : Thumb) :
  findCat st catId = Some cat ->
  modalView toLocaleDateString cat startIndex = Ok view0 ->
  modal_gallery view0 = Some thumbs ->
  thumbs !! j = Some t ->
  scriptSafe (thumb_src t) = true ->
  idSafe catId = true ->
  exists viewj view' click,
    modalView toLocaleDateString cat j = Ok viewj /\
    thumbOnClick t
      = CallChangeModalMedia (thumb_src t) (thumb_video t) catId j /\
    clickThumb j t = Some click /\
    click (openedWith view0 st)
      = (Ok tt, set_modalBody (Some view') (openedWith view0 st)) /\
    srcOf (modal_main view') = srcOf (modal_main viewj) /\
    isVideoEl (modal_main view') = isVideoEl (modal_main viewj) /\
    modal_title view' = modal_title viewj /\
    modal_gallery view' = modal_gallery viewj /\
    modal_added view' = modal_added viewj /\
    modal_categories view' = modal_categories viewj.
Proof.
  intros Hfind Hview0 Hg Hj Hsrc Hsafe.
  pose proof (findCat_id _ _ _ Hfind) as Hid.
  pose proof (modalView_main _ _ _ _ Hview0) as [b0 [_ [_ [_ [Hcats0 Hadded0]]]]].
  (* the strip of [view0] *)
  assert (Hstrip : (1 <? length (getCatMedia cat)) = true /\
                   mapM (galleryThumb cat startIndex) (imap pair (getCatMedia cat))
                     = Ok thumbs).
  { unfold modalView in Hview0.
    destruct (mediaIsVideo _) as [b|e]; cbn [rbind] in Hview0; [|discriminate].
    destruct (1 <? length (getCatMedia cat)).
    - destruct (mapM _ _) as [ts|e]; cbn [rbind] in Hview0; [|discriminate].
      injection Hview0 as <-. simpl in Hg. injection Hg as ->. auto.
    - cbn [rbind] in Hview0. injection Hview0 as <-. discriminate. }
  destruct Hstrip as [Hlen Hthumbs].
  destruct (galleryThumb_idx _ _ _ _ Hthumbs j t Hj) as [Hidx Hjlt].
  destruct (lookup_lt_is_Some_2 _ _ Hjlt) as [m Hm].
  pose proof (galleryThumb_Forall2 _ _ _ _ Hthumbs) as HF.
  assert (Him : imap pair (getCatMedia cat) !! j = Some (j, m)).
  { rewrite list_lookup_imap, Hm. reflexivity. }
  destruct (Forall2_lookup_l _ _ _ _ _ HF Him) as [t' [Ht' [b [Hb Heq]]]].
  rewrite Hj in Ht'. injection Ht' as <-. simpl in Hb, Heq.
  (* opening at [j] *)
  assert (Hviewj : exists viewj, modalView toLocaleDateString cat j = Ok viewj /\
            modal_gallery viewj
              = Some (List.map (fun t => mkThumb (thumb_idx t =? j) (thumb_src t)
                                           (thumb_video t) (thumb_cat t) (thumb_idx t))
                        thumbs)).
  { unfold modalView.
    assert (Hcur : currentMediaAt (getCatMedia cat) j = m).
    { unfold currentMediaAt. rewrite Hm. reflexivity. }
    rewrite Hcur, Hb, Hlen. cbn [rbind].
    rewrite (galleryThumb_retarget _ _ j _ _ Hthumbs). cbn [rbind].
    eexists. split; reflexivity. }
  destruct Hviewj as [viewj [Hviewj Hgj]].
  pose proof (modalView_main _ _ _ _ Hviewj) as [bj [Hbj [Hmainj [Htitlej [Hcatsj Haddedj]]]]].
  assert (Hcur : currentMediaAt (getCatMedia cat) j = m).
  { unfold currentMediaAt. rewrite Hm. reflexivity. }
  rewrite Hcur in Hbj, Hmainj, Htitlej. rewrite Hb in Hbj. injection Hbj as <-.
  exists viewj.
  (* the handler *)
  assert (Hclick : thumbOnClick t
                   = CallChangeModalMedia (thumb_src t) (thumb_video t) catId j).
  { unfold thumbOnClick. rewrite Hsrc. rewrite Heq. cbn [thumb_cat thumb_idx].
    rewrite Hid, Hsafe. reflexivity. }
  unfold clickThumb. rewrite Hclick.
  (* the click *)
  cut (exists view',
         changeModalMedia (thumb_src t) j (thumb_video t) catId j (openedWith view0 st)
           = (Ok tt, set_modalBody (Some view') (openedWith view0 st)) /\
         srcOf (modal_main view') = srcOf (modal_main viewj) /\
         isVideoEl (modal_main view') = isVideoEl (modal_main viewj) /\
         modal_title view' = modal_title viewj /\
         modal_gallery view' = modal_gallery viewj /\
         modal_added view' = modal_added viewj /\
         modal_categories view' = modal_categories viewj).
  { intros [view' [Hrun Hsame]].
    exists view', (changeModalMedia (thumb_src t) j (thumb_video t) catId j).
    split; [exact Hviewj|]. split; [reflexivity|]. split; [reflexivity|].
    split; [exact Hrun | exact Hsame]. }
  unfold changeModalMedia, bind, get, modify.
  change (modalBody (openedWith view0 st)) with (Some view0).
  change (List.find (fun c => String.eqb (Cat.id c) catId)
            (readArray (openedWith view0 st) (allCats (openedWith view0 st))))
    with (findCat st catId).
  rewrite Heq. cbn [thumb_src thumb_video thumb_cat thumb_idx].
  rewrite Hfind, Hm, Hg.
  cbn [fmap option_fmap option_map mjoin option_join mbind option_bind].
  eexists. split; [reflexivity|].
  cbn [modal_main modal_title modal_gallery modal_added modal_categories].
  rewrite Hmainj, Htitlej, Hgj, Hcats0, Hcatsj, Hadded0, Haddedj.
  split; [destruct b; reflexivity|]. split; [destruct b; reflexivity|].
  split; [reflexivity|]. split; [|split; reflexivity].
  f_equal. apply list_eq. intros k.
  rewrite list_lookup_imap.
  change (List.map ?f thumbs) with (f <$> thumbs). rewrite list_lookup_fmap.
  destruct (thumbs !! k) as [tk|] eqn:Ek; [|reflexivity]. simpl.
  destruct (galleryThumb_idx _ _ _ _ Hthumbs k tk Ek) as [-> _]. reflexivity.
Qed.

(** Misty's modal opened on her first item: a click on the second
    thumbnail leaves the strip that opening on the second item has. *)
Lemma thumbnail_reaches_item_witness :
  exists view0 thumbs t viewj view' click,
    modalView (fun s => s) misty 0 = Ok view0 /\
    modal_gallery view0 = Some thumbs /\ thumbs !! 1 = Some t /\
    modalView (fun s => s) misty 1 = Ok viewj /\
    clickThumb 1 t = Some click /\
    click (openedWith view0 (galleryState "individual" [] ""))
      = (Ok tt, set_modalBody (Some view')
                  (openedWith view0 (galleryState "individual" [] ""))) /\
    modal_gallery view' = modal_gallery viewj /\
    modal_title view' = modal_title viewj.
Proof.
  destruct (modalView (fun s => s) misty 0) as [view0|e] eqn:E0; [|discriminate E0].
  destruct (modal_gallery view0) as [thumbs|] eqn:Eg;
    [|injection E0 as <-; discriminate Eg].
  destruct (thumbs !! 1) as [t|] eqn:Et;
    [|injection E0 as <-; injection Eg as <-; discriminate Et].
  destruct (thumbnail_reaches_item (fun s => s) (galleryState "individual" [] "")
              "c2" 0 misty view0 thumbs 1 t eq_refl E0 Eg Et)
    as [viewj [view' [click [Hj [_ [Hc [Hclick [_ [_ [Htitle [Hgal _]]]]]]]]]]].
  - injection E0 as <-. injection Eg as <-. injection Et as <-. reflexivity.
  - reflexivity.
  - exists view0, thumbs, t, viewj, view', click. repeat split; assumption.
Defined.

(** A URL with an apostrophe: the handler of the thumbnail is not the call
    of [changeModalMedia]. *)
Example thumbOnClick_apostrophe :
  thumbOnClick (mkThumb false "https://x/tom's.jpg" false "c1" 0) = OtherScript.
Proof. reflexivity. Qed.

(** ** The shelves *)

Lemma StronglySorted_app_cross {A : Type} (R : A -> A -> Prop) (l1 l2 : list A) :
  StronglySorted R (l1 ++ l2) ->
  StronglySorted R l1 /\ forall x y, In x l1 -> In y l2 -> R x y.
Proof.
  induction l1 as [|a l1 IH]; simpl; intros H.
  - split; [constructor | intros x y []].
  - apply StronglySorted_inv in H as [Hs Hall].
    destruct (IH Hs) as [Hs1 Hcross]. split.
    + constructor; [exact Hs1|].
      rewrite List.Forall_forall in Hall |- *. intros x Hx. apply Hall.
      apply in_or_app. left. exact Hx.
    + intros x y [<- | Hx] Hy.
      * rewrite List.Forall_forall in Hall. apply Hall. apply in_or_app. right. exact Hy.
      * apply Hcross; assumption.
Qed.

Lemma withinWeek_recentEnough (dateValue : string -> option Z) (oneWeekAgo : Z)
    (c : Cat.t) :
  withinWeek dateValue oneWeekAgo c = true <-> recentEnough dateValue oneWeekAgo c.
Proof.
  unfold withinWeek, recentEnough, createdDate, truthy_opt.
  destruct (Cat.created_at c) as [s|].
  - rewrite andb_true_iff. split.
    + intros [Hs Ht]. destruct (dateValue s) as [t|] eqn:Ed; [|discriminate].
      exists s, t. repeat split.
      * intros ->. discriminate.
      * exact Ed.
      * apply Z.leb_le, Ht.
    + intros [s' [t [[= <-] [Hs [Hd Ht]]]]]. rewrite Hd. split.
      * destruct s; [contradiction | reflexivity].
      * apply Z.leb_le, Ht.
  - split; [intros H; discriminate|]. intros [s [t [H _]]]. discriminate.
Qed.

Lemma recentEnough_dated (dateValue : string -> option Z) (oneWeekAgo : Z)
    (c : Cat.t) :
  recentEnough dateValue oneWeekAgo c ->
  exists t, createdDate dateValue c = Some t.
Proof.
  intros [s [t [Hs [_ [Hd _]]]]]. exists t. unfold createdDate. rewrite Hs. exact Hd.
Qed.

(** The four array operations of [renderRecentCats], run. *)
Lemma renderRecentCats_run (dateValue : string -> option Z) (oneWeekAgo : Z)
    (st : State) :
  renderRecentCats dateValue oneWeekAgo st
    = if (length (recentShown dateValue oneWeekAgo st) =? 0)%nat
      then (Ok tt, set_recentSection "none" (recentArrays dateValue oneWeekAgo st))
      else
        match mapM (renderCatCard true) (recentShown dateValue oneWeekAgo st) with
        | Ok cards =>
            (Ok tt, set_recentCats (RCards cards)
                      (set_recentSection "block"
                         (recentArrays dateValue oneWeekAgo st)))
        | Throw e =>
            (Throw e, set_recentSection "block" (recentArrays dateValue oneWeekAgo st))
        end.
Proof.
  unfold renderRecentCats, bind, get, modify, lift.
  unfold arraySpread, arrayFilter, arraySort, arraySlice0, allocArray, writeArray.
  cbn [fst snd heap set_heap].
  set (all := readArray st (allCats st)).
  set (n := length (heap st)).
  assert (R1 : readArray (set_heap (heap st ++ [all])%list st) n = all).
  { unfold readArray. simpl. rewrite list_lookup_middle by reflexivity. reflexivity. }
  rewrite R1.
  assert (Hn1 : length (heap st ++ [all])%list = S n).
  { rewrite length_app. simpl. lia. }
  rewrite Hn1.
  set (kept := List.filter (withinWeek dateValue oneWeekAgo) all).
  assert (R2 : readArray (set_heap ((heap st ++ [all]) ++ [kept])%list
                            (set_heap (heap st ++ [all])%list st)) (S n) = kept).
  { unfold readArray. simpl.
    rewrite list_lookup_middle by (symmetry; exact Hn1). reflexivity. }
  rewrite R2.
  set (sorted := sortBy (newestFirst dateValue) kept).
  assert (H3 : <[S n := sorted]> ((heap st ++ [all]) ++ [kept])%list
               = ((heap st ++ [all]) ++ [sorted])%list).
  { rewrite insert_app_r_alt by lia. rewrite Hn1, Nat.sub_diag. reflexivity. }
  rewrite H3.
  assert (R3 : readArray (set_heap ((heap st ++ [all]) ++ [sorted])%list
                 (set_heap ((heap st ++ [all]) ++ [kept])%list
                    (set_heap (heap st ++ [all])%list st))) (S n) = sorted).
  { unfold readArray. simpl.
    rewrite list_lookup_middle by (symmetry; exact Hn1). reflexivity. }
  rewrite R3.
  assert (Hn3 : length ((heap st ++ [all]) ++ [sorted])%list = S (S n)).
  { rewrite length_app, Hn1. simpl. lia. }
  rewrite Hn3.
  assert (Hst : set_heap (((heap st ++ [all]) ++ [sorted]) ++ [take 8 sorted])%list
                  (set_heap ((heap st ++ [all]) ++ [sorted])%list
                     (set_heap ((heap st ++ [all]) ++ [kept])%list
                        (set_heap (heap st ++ [all])%list st)))
                = recentArrays dateValue oneWeekAgo st).
  { unfold recentArrays, recentShown. fold all kept sorted.
    rewrite <- !app_assoc. reflexivity. }
  rewrite Hst.
  assert (R4 : readArray (recentArrays dateValue oneWeekAgo st) (S (S n))
               = recentShown dateValue oneWeekAgo st).
  { unfold readArray, recentArrays. cbn [heap set_heap].
    rewrite lookup_app_r by (unfold n; lia).
    replace (S (S n) - length (heap st)) with 2 by (unfold n; lia).
    reflexivity. }
  rewrite R4.
  destruct (length (recentShown dateValue oneWeekAgo st) =? 0)%nat; [reflexivity|].
  destruct (mapM (renderCatCard true) (recentShown dateValue oneWeekAgo st));
    reflexivity.
Qed.

Lemma recentShown_properties (dateValue : string -> option Z) (oneWeekAgo : Z)
    (st : State) :
  length (recentShown dateValue oneWeekAgo st) <= 8 /\
  recentShown dateValue oneWeekAgo st ⊆+ readArray st (allCats st) /\
  (forall c, In c (recentShown dateValue oneWeekAgo st) ->
     recentEnough dateValue oneWeekAgo c) /\
  StronglySorted (fun a b => (timeOf dateValue b <= timeOf dateValue a)%Z)
    (recentShown dateValue oneWeekAgo st) /\
  (forall c, In c (readArray st (allCats st)) ->
     recentEnough dateValue oneWeekAgo c ->
     In c (recentShown dateValue oneWeekAgo st) \/
     (length (recentShown dateValue oneWeekAgo st) = 8 /\
      forall r, In r (recentShown dateValue oneWeekAgo st) ->
        (timeOf dateValue c <= timeOf dateValue r)%Z)).
Proof.
  unfold recentShown.
  set (all := readArray st (allCats st)).
  set (kept := List.filter (withinWeek dateValue oneWeekAgo) all).
  set (sorted := sortBy (newestFirst dateValue) kept).
  assert (Hperm : Permutation sorted kept) by apply sortBy_perm.
  assert (Hkept : forall c, In c sorted -> recentEnough dateValue oneWeekAgo c).
  { intros c Hc. apply (Permutation_in _ Hperm) in Hc.
    apply filter_In in Hc as [_ Hc]. apply withinWeek_recentEnough, Hc. }
  assert (Hsorted : StronglySorted
            (fun a b => (timeOf dateValue b <= timeOf dateValue a)%Z) sorted).
  { apply Sorted_StronglySorted; [intros a b c Hab Hbc; lia|].
    apply (sortBy_sorted (newestFirst dateValue) _
             (fun c => exists t, createdDate dateValue c = Some t)).
    - intros a b [ta Ha] [tb Hb]. unfold newestFirst, timeOf.
      rewrite Ha, Hb. simpl. lia.
    - intros a b [ta Ha] [tb Hb]. unfold newestFirst, timeOf.
      rewrite Ha, Hb. simpl. lia.
    - apply Forall_forall. intros c Hc. apply list_elem_of_In in Hc.
      apply (Permutation_in _ (Permutation_sym Hperm)) in Hc.
      eapply recentEnough_dated, Hkept, Hc. }
  assert (Hin : forall c, In c sorted <-> In c (take 8 sorted) \/ In c (drop 8 sorted)).
  { intros c. rewrite <- in_app_iff, take_drop. reflexivity. }
  rewrite <- (take_drop 8 sorted) in Hsorted.
  apply StronglySorted_app_cross in Hsorted as [Hs Hcross].
  split; [rewrite length_take; lia|]. split; [|split; [|split]].
  - transitivity sorted; [apply sublist_submseteq, sublist_take|].
    transitivity kept; [apply Permutation_submseteq, Hperm|].
    apply sublist_submseteq, filter_sublist.
  - intros c Hc. apply Hkept, Hin. left. exact Hc.
  - exact Hs.
  - intros c Hc Hrecent.
    assert (Hc' : In c sorted).
    { apply (Permutation_in _ (Permutation_sym Hperm)).
      apply filter_In. split; [exact Hc | apply withinWeek_recentEnough, Hrecent]. }
    apply Hin in Hc' as [Hc' | Hc']; [left; exact Hc' | right].
    split.
    + rewrite length_take. apply Nat.min_l.
      destruct (Nat.le_gt_cases 8 (length sorted)) as [Hle | Hlt]; [exact Hle|].
      rewrite drop_ge in Hc' by lia. destruct Hc'.
    + intros r Hr. apply Hcross; assumption.
Qed.

Lemma shelf_cards (recent : list Cat.t) (st1 : State) (section : State -> string)
    (region : State -> Region) (setRegion : Region -> State -> State) :
  (forall r s, region (setRegion r s) = r) ->
  (forall r s, section (setRegion r s) = section s) ->
  forall out : result unit * State,
  out = match mapM (renderCatCard true) recent with
        | Ok cards => (Ok tt, setRegion (RCards cards) st1)
        | Throw e => (Throw e, st1)
        end ->
  section (snd out) = section st1 /\
  (fst out = Ok tt <-> Forall (fun cat => drawable (mainMediaOf cat) = true) recent) /\
  (fst out = Ok tt ->
   List.map cardTarget (cardsOf (region (snd out)))
     = List.map (fun cat => (Cat.id cat, None)) recent) /\
  (fst out <> Ok tt -> region (snd out) = region st1).
Proof.
  intros Hregion Hsection out ->.
  destruct (mapM_renderCatCard true recent) as [Ht Hd].
  destruct (mapM (renderCatCard true) recent) as [cards|e]; cbn [fst snd].
  - rewrite Hregion, Hsection. split; [reflexivity|].
    split; [split; [intros _; apply Hd; eauto | reflexivity]|].
    split; [intros _; apply Ht; reflexivity | congruence].
  - split; [reflexivity|]. split.
    + split; [discriminate|]. intros H. apply Hd in H as [cards H]. discriminate.
    + split; [discriminate | reflexivity].
Qed.

(** The recent shelf, in the form the proofs on loading use. *)
Lemma renderRecentCats_shelf_spec (dateValue : string -> option Z) (oneWeekAgo : Z)
    (st : State) :
  exists recent,
    length recent <= 8 /\
    recent ⊆+ readArray st (allCats st) /\
    (forall c, In c recent -> recentEnough dateValue oneWeekAgo c) /\
    StronglySorted (fun a b => (timeOf dateValue b <= timeOf dateValue a)%Z) recent /\
    (forall c, In c (readArray st (allCats st)) ->
       recentEnough dateValue oneWeekAgo c ->
       In c recent \/
       (length recent = 8 /\
        forall r, In r recent -> (timeOf dateValue c <= timeOf dateValue r)%Z)) /\
    (recent = [] ->
       fst (renderRecentCats dateValue oneWeekAgo st) = Ok tt /\
       recentSection (snd (renderRecentCats dateValue oneWeekAgo st)) = "none" /\
       recentCats (snd (renderRecentCats dateValue oneWeekAgo st)) = recentCats st) /\
    (recent <> [] ->
       recentSection (snd (renderRecentCats dateValue oneWeekAgo st)) = "block" /\
       (fst (renderRecentCats dateValue oneWeekAgo st) = Ok tt <->
        Forall (fun cat => drawable (mainMediaOf cat) = true) recent) /\
       (fst (renderRecentCats dateValue oneWeekAgo st) = Ok tt ->
        List.map cardTarget
          (cardsOf (recentCats (snd (renderRecentCats dateValue oneWeekAgo st))))
          = List.map (fun cat => (Cat.id cat, None)) recent) /\
       (fst (renderRecentCats dateValue oneWeekAgo st) <> Ok tt ->
        recentCats (snd (renderRecentCats dateValue oneWeekAgo st)) = recentCats st)).
Proof.
  exists (recentShown dateValue oneWeekAgo st).
  destruct (recentShown_properties dateValue oneWeekAgo st)
    as [Hlen [Hsub [Hrecent [Hsorted Htop]]]].
  repeat (split; [assumption|]).
  rewrite (renderRecentCats_run dateValue oneWeekAgo st).
  destruct (recentShown dateValue oneWeekAgo st) as [|c recent] eqn:E.
  - split; [|congruence]. intros _. repeat split.
  - split; [discriminate|]. intros _. cbn [length Nat.eqb].
    destruct (shelf_cards (c :: recent)
                (set_recentSection "block" (recentArrays dateValue oneWeekAgo st))
                recentSection recentCats set_recentCats
                (fun _ _ => eq_refl) (fun _ _ => eq_refl) _ eq_refl)
      as [Hsec [Hiff [Hcards Hkeep]]].
    split; [exact Hsec|]. split; [exact Hiff|]. split; [exact Hcards | exact Hkeep].
Qed.


(** With Tom created after the week began, the shelf shows Tom alone. *)
Example renderRecentCats_gallery :
  recentSection
    (snd (renderRecentCats
            (fun s => if String.eqb s "2026-01-10T08:00:00Z" then Some 1000%Z else None)
            500%Z (galleryState "batch" [] ""))) = "block" /\
  List.map cardTarget
    (cardsOf (recentCats
       (snd (renderRecentCats
               (fun s => if String.eqb s "2026-01-10T08:00:00Z" then Some 1000%Z else None)
               500%Z (galleryState "batch" [] "")))))
    = [("c1", None)].
Proof. split; reflexivity. Qed.

Lemma renderPopularCats_run (st : State) :
  renderPopularCats st
    = if (length (List.filter (fun c => Bool.eqb (Cat.is_featured c) true)
                    (readArray st (allCats st))) =? 0)%nat
      then (Ok tt,
            set_popularSection "none"
              (snd (allocArray
                      (List.filter (fun c => Bool.eqb (Cat.is_featured c) true)
                         (readArray st (allCats st))) st)))
      else
        match mapM (renderCatCard true)
                (List.filter (fun c => Bool.eqb (Cat.is_featured c) true)
                   (readArray st (allCats st))) with
        | Ok cards =>
            (Ok tt,
             set_popularCats (RCards cards)
               (set_popularSection "block"
                  (snd (allocArray
                          (List.filter (fun c => Bool.eqb (Cat.is_featured c) true)
                             (readArray st (allCats st))) st))))
        | Throw e =>
            (Throw e,
             set_popularSection "block"
               (snd (allocArray
                       (List.filter (fun c => Bool.eqb (Cat.is_featured c) true)
                          (readArray st (allCats st))) st)))
        end.
Proof.
  unfold renderPopularCats, bind, get, modify, lift, arrayFilter.
  set (popular := List.filter _ (readArray st (allCats st))).
  pose proof (readArray_alloc popular st) as Hr.
  destruct (allocArray popular st) as [l st1] eqn:Ea. cbn [fst snd] in *.
  rewrite Hr.
  destruct (length popular =? 0)%nat; [reflexivity|].
  destruct (mapM (renderCatCard true) popular); reflexivity.
Qed.

(** The popular shelf, in the form the proofs on loading use. *)
Lemma renderPopularCats_shelf_spec (st : State) :
  exists popular,
    sublist popular (readArray st (allCats st)) /\
    (forall c, In c popular <->
       In c (readArray st (allCats st)) /\ Cat.is_featured c = true) /\
    (popular = [] ->
       fst (renderPopularCats st) = Ok tt /\
       popularSection (snd (renderPopularCats st)) = "none" /\
       popularCats (snd (renderPopularCats st)) = popularCats st) /\
    (popular <> [] ->
       popularSection (snd (renderPopularCats st)) = "block" /\
       (fst (renderPopularCats st) = Ok tt <->
        Forall (fun cat => drawable (mainMediaOf cat) = true) popular) /\
       (fst (renderPopularCats st) = Ok tt ->
        List.map cardTarget (cardsOf (popularCats (snd (renderPopularCats st))))
          = List.map (fun cat => (Cat.id cat, None)) popular) /\
       (fst (renderPopularCats st) <> Ok tt ->
        popularCats (snd (renderPopularCats st)) = popularCats st)).
Proof.
  exists (List.filter (fun c => Bool.eqb (Cat.is_featured c) true)
            (readArray st (allCats st))).
  split; [apply filter_sublist|]. split.
  { intros c. rewrite filter_In. destruct (Cat.is_featured c); simpl; tauto. }
  rewrite (renderPopularCats_run st).
  destruct (List.filter _ (readArray st (allCats st))) as [|c popular] eqn:E.
  - split; [|congruence]. intros _. repeat split.
  - split; [discriminate|]. intros _. cbn [length Nat.eqb].
    destruct (shelf_cards (c :: popular)
                (set_popularSection "block" (snd (allocArray (c :: popular) st)))
                popularSection popularCats set_popularCats
                (fun _ _ => eq_refl) (fun _ _ => eq_refl) _ eq_refl)
      as [Hsec [Hiff [Hcards Hkeep]]].
    split; [exact Hsec|]. split; [exact Hiff|]. split; [exact Hcards | exact Hkeep].
Qed.


(** ** Loading *)

Lemma allDrawable_main (cats : list Cat.t) :
  allDrawable cats -> Forall (fun cat => drawable (mainMediaOf cat) = true) cats.
Proof.
  unfold allDrawable. intros Hall. eapply Forall_impl; [exact Hall|].
  intros cat H. simpl in H. unfold mainMediaOf.
  destruct (getCatMedia cat) as [|m ms]; [reflexivity|].
  apply Forall_cons in H as [H _]. exact H.
Qed.

Lemma renderRecentCats_draws (dateValue : string -> option Z) (oneWeekAgo : Z)
    (st : State) :
  Forall (fun cat => drawable (mainMediaOf cat) = true) (readArray st (allCats st)) ->
  fst (renderRecentCats dateValue oneWeekAgo st) = Ok tt.
Proof.
  intros Hall.
  destruct (renderRecentCats_shelf_spec dateValue oneWeekAgo st)
    as [recent [_ [Hsub [_ [_ [_ [Hnil Hcons]]]]]]].
  destruct recent as [|c recent]; [apply Hnil; reflexivity|].
  destruct Hcons as [_ [Hiff _]]; [discriminate|]. apply Hiff.
  apply Forall_forall. intros x Hx. rewrite Forall_forall in Hall. apply Hall.
  eapply elem_of_submseteq; eassumption.
Qed.

Lemma renderPopularCats_draws (st : State) :
  Forall (fun cat => drawable (mainMediaOf cat) = true) (readArray st (allCats st)) ->
  fst (renderPopularCats st) = Ok tt.
Proof.
  intros Hall.
  destruct (renderPopularCats_shelf_spec st) as [popular [Hsub [_ [Hnil Hcons]]]].
  destruct popular as [|c popular]; [apply Hnil; reflexivity|].
  destruct Hcons as [_ [Hiff _]]; [discriminate|]. apply Hiff.
  apply Forall_forall. intros x Hx. rewrite Forall_forall in Hall. apply Hall.
  eapply elem_of_sublist; eassumption.
Qed.

Lemma renderRecentCats_leaves_mode (dateValue : string -> option Z) (oneWeekAgo : Z) :
  leaves currentViewMode (renderRecentCats dateValue oneWeekAgo).
Proof. unfold renderRecentCats. repeat leaves_step. Qed.

Lemma renderPopularCats_leaves_mode : leaves currentViewMode renderPopularCats.
Proof. unfold renderPopularCats. repeat leaves_step. Qed.

Lemma keeps_readArray (st0 st : State) (l : nat) :
  keeps st0 st -> l < length (heap st0) -> readArray st l = readArray st0 l.
Proof.
  intros [_ [_ Hold]] Hl. unfold readArray. rewrite (Hold l Hl). reflexivity.
Qed.

Lemma markupFree_app (a b : string) :
  markupFree (a +:+ b) = markupFree a && markupFree b.
Proof.
  induction a as [|c a IH]; [reflexivity|].
  change (String c a +:+ b) with (String c (a +:+ b)). cbn [markupFree].
  rewrite IH, andb_assoc. reflexivity.
Qed.

(** What [loadCats] never does, and what it does with a failed fetch.
    [loadCats] always completes: the rejection of the fetch and any
    exception of the rendering end in the [catch] block.  After a rejected
    fetch both shelves read "Failed to load", the store and [allCats] are as
    before, and the grid holds an error paragraph whose markup is "Failed to
    load cats: " followed by the error's message, written without
    [escapeHtml]: the grid reads that text whenever the message holds
    nothing that can start markup (no [<], no [&], no NUL, no carriage
    return). *)
Theorem loadCats_never_throws (dateValue : string -> option Z) (oneWeekAgo : Z)
    (rows : result (list Cat.t)) (st : State) :
  fst (loadCats dateValue oneWeekAgo rows st) = Ok tt /\
  (forall e, rows = Throw e ->
     catsGrid (snd (loadCats dateValue oneWeekAgo rows st))
       = RMarkup "error" ("Failed to load cats: " +:+ message e) /\
     (markupFree (message e) = true ->
      regionText (catsGrid (snd (loadCats dateValue oneWeekAgo rows st)))
        = Some ("Failed to load cats: " +:+ message e)) /\
     recentCats (snd (loadCats dateValue oneWeekAgo rows st))
       = RMessage "error" "Failed to load" /\
     popularCats (snd (loadCats dateValue oneWeekAgo rows st))
       = RMessage "error" "Failed to load" /\
     heap (snd (loadCats dateValue oneWeekAgo rows st)) = heap st /\
     allCats (snd (loadCats dateValue oneWeekAgo rows st)) = allCats st).
Proof.
  split.
  - unfold loadCats. unfold bind at 1 2 3. unfold modify at 1 2 3. cbn [fst snd].
    unfold tryCatch.
    destruct (bind (lift rows) _ _) as [[[]|e] st'] eqn:E; reflexivity.
  - intros e ->. split; [reflexivity|]. split; [|repeat split].
    change (catsGrid (snd (loadCats dateValue oneWeekAgo (Throw e) st)))
      with (RMarkup "error" ("Failed to load cats: " +:+ message e)).
    cbn [regionText]. rewrite markupFree_app.
    change (markupFree "Failed to load cats: ") with true. cbn [andb].
    intros ->. reflexivity.
Qed.

(** An error message with a [<] in it is written to the grid as markup. *)
Example loadCats_markup_in_message :
  catsGrid
    (snd (loadCats (fun _ => None) 0%Z
            (Throw (TypeError "Unexpected token '<'")) (initialState 1000)))
    = RMarkup "error" "Failed to load cats: Unexpected token '<'" /\
  markupFree "Unexpected token '<'" = false.
Proof. split; reflexivity. Qed.

(** A load that draws.  When every media item of the fetched rows can be
    drawn, [loadCats] ends with [allCats] naming the fetched rows and the
    grid showing them in the current view mode: in "batch" mode the label
    counts the records and there is one card per record; in any other mode
    the label counts the media items and there is one card per media item;
    with nothing to show the grid holds the "no data" message. *)
Theorem loadCats_draws (dateValue : string -> option Z) (oneWeekAgo : Z)
    (fetched : list Cat.t) (st : State) :
  allDrawable fetched ->
  readArray (snd (loadCats dateValue oneWeekAgo (Ok fetched) st))
    (allCats (snd (loadCats dateValue oneWeekAgo (Ok fetched) st))) = fetched /\
  (currentViewMode st = "batch" ->
     catCount (snd (loadCats dateValue oneWeekAgo (Ok fetched) st))
       = countLabel (length fetched) "cat" /\
     (fetched = [] ->
      catsGrid (snd (loadCats dateValue oneWeekAgo (Ok fetched) st))
        = RMessage "no-data" "🐱 No cats found") /\
     (fetched <> [] ->
      List.map cardTarget
        (cardsOf (catsGrid (snd (loadCats dateValue oneWeekAgo (Ok fetched) st))))
        = List.map (fun cat => (Cat.id cat, None)) fetched)) /\
  (currentViewMode st <> "batch" ->
     catCount (snd (loadCats dateValue oneWeekAgo (Ok fetched) st))
       = countLabel (length (flat_map getCatMedia fetched)) "photo" /\
     (flat_map getCatMedia fetched = [] ->
      catsGrid (snd (loadCats dateValue oneWeekAgo (Ok fetched) st))
        = RMessage "no-data" "🐱 No photos found") /\
     (flat_map getCatMedia fetched <> [] ->
      List.map cardTarget
        (cardsOf (catsGrid (snd (loadCats dateValue oneWeekAgo (Ok fetched) st))))
        = individualTargets fetched)).
Proof.
  intros Hall. split; [apply loadCats_rows|].
  set (st1 := set_popularCats (RMessage "loading" "Loading...")
                (set_recentCats (RMessage "loading" "Loading...")
                   (set_catsGrid (RMessage "loading" "🐱 Loading cats...") st))).
  set (l := length (heap st1)).
  set (st2 := set_allCats l (snd (allocArray fetched st1))).
  assert (Hrows : readArray st2 l = fetched).
  { unfold st2, readArray, allocArray, l. simpl.
    rewrite list_lookup_middle by reflexivity. reflexivity. }
  assert (Hl : l < length (heap st2)).
  { unfold st2, allocArray, l. simpl. rewrite length_app. simpl. lia. }
  assert (Hmain : Forall (fun cat => drawable (mainMediaOf cat) = true) fetched)
    by exact (allDrawable_main _ Hall).
  (* the recent shelf *)
  pose proof (renderRecentCats_draws dateValue oneWeekAgo st2) as H3.
  change (readArray st2 (allCats st2)) with (readArray st2 l) in H3.
  rewrite Hrows in H3. specialize (H3 Hmain).
  pose proof (frames_renderRecentCats st2 dateValue oneWeekAgo st2 (keeps_refl st2))
    as [K3 _].
  pose proof (renderRecentCats_leaves_mode dateValue oneWeekAgo st2) as M3.
  destruct (renderRecentCats dateValue oneWeekAgo st2) as [r3 st3] eqn:E3.
  cbn [fst snd] in H3, K3, M3. subst r3.
  (* the popular shelf *)
  assert (A3 : allCats st3 = l) by (destruct K3 as [-> _]; reflexivity).
  pose proof (renderPopularCats_draws st3) as H4.
  rewrite A3, (keeps_readArray st2 st3 l K3 Hl), Hrows in H4. specialize (H4 Hmain).
  pose proof (frames_renderPopularCats st2 st3 K3) as [K4 _].
  pose proof (renderPopularCats_leaves_mode st3) as M4.
  destruct (renderPopularCats st3) as [r4 st4] eqn:E4.
  cbn [fst snd] in H4, K4, M4. subst r4.
  (* the grid *)
  assert (R4 : readArray st4 l = fetched).
  { rewrite (keeps_readArray st2 st4 l K4 Hl). exact Hrows. }
  assert (Mode : currentViewMode st4 = currentViewMode st).
  { rewrite M4, M3. reflexivity. }
  assert (Hrun : loadCats dateValue oneWeekAgo (Ok fetched) st
                 = match renderCats l st4 with
                   | (Throw e, st') =>
                       (modify (set_catsGrid
                                  (RMarkup "error"
                                     ("Failed to load cats: " +:+ message e))) ;;;
                        modify (set_recentCats (RMessage "error" "Failed to load")) ;;;
                        modify (set_popularCats (RMessage "error" "Failed to load")))%handler
                         st'
                   | r => r
                   end).
  { unfold loadCats. unfold bind at 1 2 3. unfold modify at 1 2 3. cbn [fst snd].
    fold st1. unfold tryCatch. unfold bind at 1. unfold lift at 1.
    unfold bind at 1. unfold allocArray at 1. cbn [fst snd].
    unfold bind at 1. unfold modify at 1. cbn [fst snd].
    change (set_allCats (length (heap st1))
              (set_heap (heap st1 ++ [fetched])%list st1)) with st2.
    unfold bind at 1. fold l. rewrite E3. unfold bind at 1. rewrite E4.
    reflexivity. }
  rewrite Hrun. split.
  - intros Hmode. rewrite <- Mode in Hmode.
    destruct (renderCats_batch_spec st4 l Hmode) as [Hlabel [Hiff [Hnil [Hcards _]]]].
    rewrite R4 in *.
    assert (Hok : fst (renderCats l st4) = Ok tt) by (apply Hiff, Hmain).
    destruct (renderCats l st4) as [[[]|e] st5]; cbn [fst snd] in *; [|discriminate].
    split; [exact Hlabel|]. split; [exact Hnil | exact (Hcards eq_refl)].
  - intros Hmode. rewrite <- Mode in Hmode.
    destruct (renderCats_individual_spec st4 l Hmode) as [Hiff [Hok _]].
    rewrite R4 in *.
    assert (Hrun' : fst (renderCats l st4) = Ok tt) by (apply Hiff, Hall).
    specialize (Hok Hrun').
    destruct (renderCats l st4) as [[[]|e] st5]; cbn [fst snd] in *; [|discriminate].
    exact Hok.
Qed.

(** Loading the small gallery into the empty page. *)
Lemma loadCats_draws_witness :
  readArray (snd (loadCats (fun _ => None) 0%Z (Ok gallery) (initialState 1000)))
    (allCats (snd (loadCats (fun _ => None) 0%Z (Ok gallery) (initialState 1000))))
    = gallery /\
  catCount (snd (loadCats (fun _ => None) 0%Z (Ok gallery) (initialState 1000)))
    = "3 cats".
Proof.
  destruct (loadCats_draws (fun _ => None) 0%Z gallery (initialState 1000))
    as [Hrows [Hbatch _]]; [repeat constructor|].
  split; [exact Hrows|]. apply Hbatch. reflexivity.
Defined.

(** ** The category panel *)

(** The category index of the small gallery, whose tags are all plain
    names. *)
Lemma categoryIndex_plain_witness :
  NoDup (List.map name (categoryIndex gallery)) /\
  (forall c, In c (List.map name (categoryIndex gallery)) <->
             In c (allCategoryNames gallery)) /\
  (forall e, In e (categoryIndex gallery) ->
     count e = CNum (count_occ string_dec (allCategoryNames gallery) (name e))) /\
  StronglySorted (fun a b => entryNum b <= entryNum a) (categoryIndex gallery).
Proof.
  apply (categoryIndex_plain gallery). repeat constructor.
Defined.








(** A tag with a double quote: the checkbox's value stops at the quote, so
    the box stands for a tag that no record has. *)
Example renderCategories_quoted_tag :
  let tag := "5" +:+ String doubleQuote " tall" in
  exists b,
    categoryFilters (snd (renderCategories [mkEntry tag (CNum 1)] (initialState 1000)))
      = RCheckboxes [b] /\
    cb_value b = mkAttr "5" (Some " tall") /\
    tagOf b = "5" /\ tagOf b <> tag.
Proof. eexists. repeat split; try reflexivity. discriminate. Qed.

(** ** Ways that change nothing *)

(** What does nothing.  While the modal is closed, the close control,
    Escape or any other key, and a [popstate] event leave every part of the
    state as it is; a click that lands inside the modal's content, and a key
    other than Escape, do so at any time. *)
Theorem no_op_when_closed (st : State) :
  (catModal_active st = false ->
     (forall event, closeModal event st = (Ok tt, st)) /\
     (forall key, onKeyDown key st = (Ok tt, st)) /\
     onPopState st = (Ok tt, st)) /\
  closeModal (Some false) st = (Ok tt, st) /\
  (forall key, key <> "Escape" -> onKeyDown key st = (Ok tt, st)).
Proof.
  split; [|split].
  - intros Hact. split; [|split].
    + intros event. apply closeModal_closed, Hact.
    + intros key. unfold onKeyDown, bind, get, ret. rewrite Hact, andb_false_r.
      reflexivity.
    + unfold onPopState, bind, get, ret. rewrite Hact. reflexivity.
  - reflexivity.
  - intros key Hkey. unfold onKeyDown, bind, get, ret.
    apply String.eqb_neq in Hkey. rewrite Hkey. reflexivity.
Qed.

(** ** Switching the view mode *)

(** Switching the view mode changes the mode and nothing else that the
    filters read: the records rendered in the new mode are the records
    [filterCats] would have rendered in the old one. *)
Theorem switchViewMode_same_records (st : State) (mode : string) :
  exists filtered st',
    switchViewMode mode st = renderCats filtered st' /\
    currentViewMode st' = mode /\
    selectedCategories st' = selectedCategories st /\
    searchInput st' = searchInput st /\
    readArray st' filtered = filteredRecords st.
Proof.
  destruct (filteredRecords_filter (set_currentViewMode mode st))
    as [[filtered [st' Hrun]] _].
  assert (Hread : readArray st' filtered
                  = filteredRecords (set_currentViewMode mode st)).
  { unfold filteredRecords. rewrite Hrun. reflexivity. }
  exists filtered, st'. split.
  { unfold switchViewMode, filterCats, bind, modify. cbn [fst snd].
    rewrite Hrun. reflexivity. }
  assert (Hmode : leaves currentViewMode filterCats_filtered).
  { unfold filterCats_filtered. repeat leaves_step. }
  assert (Hsel : leaves selectedCategories filterCats_filtered).
  { unfold filterCats_filtered. repeat leaves_step. }
  assert (Hsearch : leaves searchInput filterCats_filtered).
  { unfold filterCats_filtered. repeat leaves_step. }
  specialize (Hmode (set_currentViewMode mode st)).
  specialize (Hsel (set_currentViewMode mode st)).
  specialize (Hsearch (set_currentViewMode mode st)).
  rewrite Hrun in Hmode, Hsel, Hsearch. cbn [snd] in *.
  split; [exact Hmode|]. split; [exact Hsel|]. split; [exact Hsearch|].
  rewrite Hread, !(proj2 (filteredRecords_filter _)). reflexivity.
Qed.

(** ** Arming the swipe *)

(** How a swipe is armed.  A [touchstart] that does not carry exactly one
    touch changes nothing, so it neither arms the swipe nor cancels one that
    is armed; a [touchend] while no swipe is armed changes nothing, wherever
    the finger lifts; and a [touchend] that carries a touch always leaves
    the swipe disarmed, so that a second [touchend] without a fresh
    one-finger [touchstart] does nothing. *)
Theorem swipe_arming (st : State) :
  (forall touches, length touches <> 1 -> onTouchStart touches st = (Ok tt, st)) /\
  (forall changed, tracking (swipe st) = false ->
     onTouchEnd changed st = (Ok tt, st)) /\
  (forall touch rest,
     tracking (swipe (snd (onTouchEnd (touch :: rest) st))) = false) /\
  (forall touch rest changed,
     (onTouchEnd (touch :: rest) ;;; onTouchEnd changed) st
       = onTouchEnd (touch :: rest) st).
Proof.
  assert (Hoff : forall touch rest,
            fst (onTouchEnd (touch :: rest) st) = Ok tt /\
            tracking (swipe (snd (onTouchEnd (touch :: rest) st))) = false).
  { intros touch rest. unfold onTouchEnd, bind, get, modify, ret.
    destruct (tracking (swipe st)) eqn:Et; cbn [negb fst snd].
    - destruct (_ && _).
      + unfold closeModal, bind, get, modify, ret.
        cbn [catModal_active set_swipe].
        destruct (catModal_active st); cbn [negb fst snd]; [|split; reflexivity].
        cbn [history set_body_overflow set_catModal_active set_swipe].
        destruct (history st) as [|[] ?]; split; reflexivity.
      + split; reflexivity.
    - split; [reflexivity | exact Et]. }
  assert (Hidle : forall s changed, tracking (swipe s) = false ->
            onTouchEnd changed s = (Ok tt, s)).
  { intros s changed Ht. unfold onTouchEnd, bind, get, ret. rewrite Ht.
    destruct changed; reflexivity. }
  split; [|split; [|split]].
  - intros [|t [|t' ts]] Hlen; try reflexivity. simpl in Hlen. congruence.
  - apply Hidle.
  - intros touch rest. apply Hoff.
  - intros touch rest changed.
    destruct (Hoff touch rest) as [Hok Htr].
    unfold bind at 1.
    destruct (onTouchEnd (touch :: rest) st) as [r s] eqn:E.
    cbn [fst snd] in Hok, Htr. subst r. rewrite (Hidle s changed Htr).
    reflexivity.
Qed.

(** ** The database class: unique categories *)

Lemma ascii_compare_lt_trans (a b c : ascii) :
  Ascii.compare a b = Lt -> Ascii.compare b c = Lt -> Ascii.compare a c = Lt.
Proof.
  unfold Ascii.compare. rewrite !N.compare_lt_iff. lia.
Qed.

Lemma before_trans (a b c : string) :
  Database.before a b -> Database.before b c -> Database.before a c.
Proof.
  unfold Database.before. revert b c.
  induction a as [|x a IH]; intros [|y b] [|z c]; simpl; try congruence.
  destruct (Ascii.compare x y) eqn:Exy; try discriminate.
  - apply Ascii.compare_eq_iff in Exy. subst y.
    destruct (Ascii.compare x z) eqn:Exz; try congruence. apply IH.
  - intros _. destruct (Ascii.compare y z) eqn:Eyz; try discriminate.
    + apply Ascii.compare_eq_iff in Eyz. subst z. rewrite Exy. reflexivity.
    + intros _. rewrite (ascii_compare_lt_trans x y z Exy Eyz). reflexivity.
Qed.

Lemma before_irrefl (a : string) : ~ Database.before a a.
Proof.
  unfold Database.before. intros H.
  pose proof (String.compare_antisym a a) as Ha. rewrite H in Ha. discriminate.
Qed.

Lemma newSet_spec (xs init : list string) :
  NoDup init ->
  NoDup (fold_left (fun s c => setAdd c s) xs init) /\
  (forall c, In c (fold_left (fun s c => setAdd c s) xs init) <-> In c init \/ In c xs).
Proof.
  revert init. induction xs as [|x xs IH]; intros init Hnd; simpl.
  - split; [exact Hnd | tauto].
  - assert (Hnd' : NoDup (setAdd x init)).
    { unfold setAdd. destruct (arrayIncludes init x) eqn:E; [exact Hnd|].
      apply NoDup_app. split; [exact Hnd|]. split; [|apply NoDup_singleton].
      intros y Hy Hy'. apply list_elem_of_In in Hy, Hy'.
      destruct Hy' as [<- | []].
      apply arrayIncludes_In in Hy. congruence. }
    destruct (IH _ Hnd') as [H1 H2]. split; [exact H1|].
    intros c. rewrite H2, setAdd_In. intuition congruence.
Qed.

Lemma Sorted_before (l : list string) :
  Sorted (fun a b => String.compare a b <> Gt) l -> NoDup l ->
  StronglySorted Database.before l.
Proof.
  intros Hs Hnd. apply Sorted_StronglySorted.
  - intros a b c. apply before_trans.
  - induction Hs as [|x l Hs IH Hhd]; [constructor|].
    apply NoDup_cons in Hnd as [Hx Hnd].
    constructor; [apply IH, Hnd|].
    destruct Hhd as [|y l Hxy]; constructor.
    unfold Database.before. destruct (String.compare x y) eqn:E.
    + apply String.compare_eq_iff in E. subst y.
      exfalso. apply Hx. apply list_elem_of_In. left. reflexivity.
    + reflexivity.
    + congruence.
Qed.

(** [getUniqueCategories()] of the database class.  When the request
    succeeds it resolves with the category names in strictly ascending
    code-unit order, hence each one once, and a name is listed exactly when
    it occurs in the [categories] array of some row; rows whose [categories]
    is [null] contribute nothing.  When the request fails it rejects with
    the message of the error body, or with "Failed to fetch categories" when
    that message is missing or empty. *)
Theorem getUniqueCategories_sorted_unique :
  (forall rows, exists names,
     Database.getUniqueCategories (Database.Success rows) = Database.Resolved names /\
     StronglySorted Database.before names /\
     NoDup names /\
     (forall c, In c names <->
        exists row cs,
          In row rows /\ Database.categories row = Some cs /\ In c cs)) /\
  (forall message, JsString.truthy message = true ->
     Database.getUniqueCategories (Database.Failure (Some message))
       = Database.Rejected message) /\
  Database.getUniqueCategories (Database.Failure (Some EmptyString))
    = Database.Rejected "Failed to fetch categories" /\
  Database.getUniqueCategories (Database.Failure None)
    = Database.Rejected "Failed to fetch categories".
Proof.
  split; [|split; [|split]]; try reflexivity.
  - intros rows. unfold Database.getUniqueCategories.
    set (allCategories := flat_map _ _).
    destruct (newSet_spec allCategories [] (NoDup_nil_2)) as [Hnd Hin].
    fold (Database.newSet allCategories) in Hnd, Hin.
    pose proof (sortBy_perm Database.defaultCompare (Database.newSet allCategories))
      as Hperm.
    assert (Hnd' : NoDup (sortBy Database.defaultCompare
                            (Database.newSet allCategories))).
    { rewrite Hperm. exact Hnd. }
    eexists. split; [reflexivity|]. split; [|split].
    + apply Sorted_before; [|exact Hnd'].
      apply (sortBy_sorted _ _ (fun _ => True)).
      * intros a b _ _. unfold Database.defaultCompare.
        destruct (String.compare a b); [congruence | congruence | lia].
      * intros a b _ _. unfold Database.defaultCompare.
        rewrite (String.compare_antisym b a).
        destruct (String.compare a b); simpl; [lia | lia | congruence].
      * apply List.Forall_forall. intros; exact I.
    + exact Hnd'.
    + intros c. split.
      * intros Hc. apply (Permutation_in _ Hperm) in Hc.
        apply Hin in Hc as [[] | Hc].
        unfold allCategories in Hc. apply in_flat_map in Hc as [row [Hrow Hc]].
        apply filter_In in Hrow as [Hrow Hsome].
        destruct (Database.categories row) as [cs|] eqn:E; [|discriminate].
        exists row, cs. auto.
      * intros [row [cs [Hrow [E Hc]]]].
        apply (Permutation_in _ (Permutation_sym Hperm)).
        apply Hin. right. unfold allCategories. apply in_flat_map.
        exists row. split.
        -- apply filter_In. split; [exact Hrow|]. rewrite E. reflexivity.
        -- rewrite E. exact Hc.
  - intros message Hm. unfold Database.getUniqueCategories, JsString.orElse.
    rewrite Hm. reflexivity.
Qed.
